(** * Batch work orchestrator: accounting model of [batchkit/orchestrator.py]

    The class [Orchestrator] is embedded as a record of its fields and every
    method as a program in a small monad that threads the record, collects
    the signals sent to other threads (condition-variable notifications and
    log records) and ends in one of four ways: it returns, it raises, it
    parks on the queue condition, or it blocks on an empty queue.

    The accounting methods run their bodies with [_accounting_lock] held,
    so a method is one atomic transition of the record; the locks
    themselves are not fields of the model, and neither are the pauses of
    [time.sleep]. *)

From stdpp Require Import gmap strings list fin_maps pretty.

#[local] Set Warnings "-clear-no-such-hyp".

Local Open Scope Z_scope.
Local Open Scope string_scope.

(** ** Data carried through the orchestrator *)

(** [WorkItemRequest]: the orchestrator reads [filepath] and [language];
    everything else a producer puts in a request is one opaque payload. *)
Record WorkItemRequest := mkWorkItemRequest {
  filepath : string;
  language : option string;
  request_payload : string
}.

(** [WorkItemResult]: [attempts] and [can_retry] are read by the
    orchestrator, the outcome data is opaque. *)
Record WorkItemResult := mkWorkItemResult {
  attempts : Z;
  can_retry : bool;
  result_payload : string
}.

(** A subtype of [BatchRequest] is known by its class name and by the
    classes of the two objects its factories build. Only the class of a
    work item processor or of a status checker is ever inspected. *)
Record BatchType := mkBatchType {
  type_name : string;
  get_work_item_processor : string;
  get_endpoint_status_checker : string
}.

Definition StubWorkItemProcessor : string := "StubWorkItemProcessor".
Definition UnknownEndpointStatusChecker : string := "UnknownEndpointStatusChecker".

Record BatchRunSummarizer := mkBatchRunSummarizer {
  summarizer_batch_id : Z
}.

(** [make_work_items] stands for the items that [request.make_work_items]
    yields for this request. *)
Record BatchRequest := mkBatchRequest {
  batch_id : Z;
  batch_type : BatchType;
  combine_results : bool;
  make_work_items : list WorkItemRequest
}.

Definition get_batch_run_summarizer (request : BatchRequest) : BatchRunSummarizer :=
  mkBatchRunSummarizer (batch_id request).

(** Modelled from the spec: the class [EndpointManager] is not part of
    this file. The handle has a [name] unique per generation, a logical
    [endpoint_name], an [endpoint_config] compared by value, a work item
    processor, a status checker and a stop flag; [request_stop] raises the
    flag, [start] marks the manager started and
    [set_endpoint_status_checker] replaces the checker. The orchestrator
    reads the flag and the checker through [_endpoint_managers] only;
    through [_in_progress_owner] and through the argument of a callback it
    reads [name], [endpoint_name] and [endpoint_config], which never
    change, so those hold the handle as it was when it was stored. *)
Record EndpointManager := mkEndpointManager {
  name : string;
  endpoint_name : string;
  endpoint_config : gmap string string;
  work_item_processor : string;
  endpoint_status_checker : string;
  em_stop_requested : bool;
  em_started : bool
}.

Definition em_request_stop (m : EndpointManager) : EndpointManager :=
  mkEndpointManager (name m) (endpoint_name m) (endpoint_config m)
    (work_item_processor m) (endpoint_status_checker m) true (em_started m).

Definition em_start (m : EndpointManager) : EndpointManager :=
  mkEndpointManager (name m) (endpoint_name m) (endpoint_config m)
    (work_item_processor m) (endpoint_status_checker m) (em_stop_requested m) true.

Definition em_set_endpoint_status_checker (c : string) (m : EndpointManager) : EndpointManager :=
  mkEndpointManager (name m) (endpoint_name m) (endpoint_config m)
    (work_item_processor m) c (em_stop_requested m) (em_started m).

(** [ThreadedNotifier.stop()] either succeeds or raises [OSError] with the
    recorded errno. *)
Record ThreadedNotifier := mkThreadedNotifier {
  stop_errno : option Z
}.

Definition EBADF : Z := 9.

(** ** Python values *)

(** Truth value of an optional string: [None] and the empty string are
    false. *)
Definition truthy (o : option string) : bool :=
  match o with
  | Some s => negb (String.eqb s "")
  | None => false
  end.

(** [str.lower] on ASCII text. *)
Definition lower_ascii (c : Ascii.ascii) : Ascii.ascii :=
  let n := Ascii.nat_of_ascii c in
  if ((65 <=? n)%nat && (n <=? 90)%nat)%bool then Ascii.ascii_of_nat (n + 32) else c.

Fixpoint lower (s : string) : string :=
  match s with
  | EmptyString => EmptyString
  | String c s' => String (lower_ascii c) (lower s')
  end.

(** ** Insertion-ordered dictionaries

    [_in_progress] is iterated by [hotswap_endpoint_managers], so its
    order is kept: a Python [dict] is a list of bindings in insertion
    order with pairwise distinct keys. *)
Abbreviation dict V := (list (string * V)).

Fixpoint dict_get {V} (k : string) (d : dict V) : option V :=
  match d with
  | [] => None
  | (k', v) :: d' => if decide (k = k') then Some v else dict_get k d'
  end.

(** [d[k] = v]: an existing key keeps its position. *)
Fixpoint dict_set {V} (k : string) (v : V) (d : dict V) : dict V :=
  match d with
  | [] => [(k, v)]
  | (k', v') :: d' =>
      if decide (k = k') then (k, v) :: d' else (k', v') :: dict_set k v d'
  end.

(** [del d[k]] for a key that is present. *)
Fixpoint dict_del {V} (k : string) (d : dict V) : dict V :=
  match d with
  | [] => []
  | (k', v') :: d' =>
      if decide (k = k') then d' else (k', v') :: dict_del k d'
  end.

Definition dict_keys {V} (d : dict V) : list string := d.*1.

Definition dict_wf {V} (d : dict V) : Prop := NoDup (dict_keys d).

(** ** The orchestrator object *)

Record Orchestrator := mkOrchestrator {
  _submission_que : list (option BatchRequest);
  _singleton_run_summary_path : option string;
  _on_batch_id : Z;
  _on_batch_type : option BatchType;
  _file_queue : list WorkItemRequest;
  _file_queue_size : Z;
  _in_progress : dict WorkItemRequest;
  _in_progress_owner : gmap string EndpointManager;
  _work_results : gmap string (option WorkItemResult);
  _batch_completion_evt : bool;
  _summarizer : option BatchRunSummarizer;
  _stop_requested : bool;
  _endpoint_managers : list EndpointManager;
  _endpoint_generation : Z;
  _old_managers : gset string;
  _config_notifier : option ThreadedNotifier;
  _run_summary_thread_gate : bool;
  _creator_pid : Z;
  __cnt_work_success_cb : Z;
  __cnt_work_failure_cb : Z
}.

(** Field assignment [self.f = v], one setter per assigned field. *)
Definition set_submission_que v (self : Orchestrator) : Orchestrator :=
  mkOrchestrator v (_singleton_run_summary_path self) (_on_batch_id self)
    (_on_batch_type self) (_file_queue self) (_file_queue_size self)
    (_in_progress self) (_in_progress_owner self) (_work_results self)
    (_batch_completion_evt self) (_summarizer self) (_stop_requested self)
    (_endpoint_managers self) (_endpoint_generation self)
    (_old_managers self) (_config_notifier self)
    (_run_summary_thread_gate self) (_creator_pid self)
    (__cnt_work_success_cb self) (__cnt_work_failure_cb self).

Definition set_on_batch_id v (self : Orchestrator) : Orchestrator :=
  mkOrchestrator (_submission_que self) (_singleton_run_summary_path self) v
    (_on_batch_type self) (_file_queue self) (_file_queue_size self)
    (_in_progress self) (_in_progress_owner self) (_work_results self)
    (_batch_completion_evt self) (_summarizer self) (_stop_requested self)
    (_endpoint_managers self) (_endpoint_generation self)
    (_old_managers self) (_config_notifier self)
    (_run_summary_thread_gate self) (_creator_pid self)
    (__cnt_work_success_cb self) (__cnt_work_failure_cb self).

Definition set_on_batch_type v (self : Orchestrator) : Orchestrator :=
  mkOrchestrator (_submission_que self) (_singleton_run_summary_path self)
    (_on_batch_id self) v (_file_queue self) (_file_queue_size self)
    (_in_progress self) (_in_progress_owner self) (_work_results self)
    (_batch_completion_evt self) (_summarizer self) (_stop_requested self)
    (_endpoint_managers self) (_endpoint_generation self)
    (_old_managers self) (_config_notifier self)
    (_run_summary_thread_gate self) (_creator_pid self)
    (__cnt_work_success_cb self) (__cnt_work_failure_cb self).

Definition set_file_queue v (self : Orchestrator) : Orchestrator :=
  mkOrchestrator (_submission_que self) (_singleton_run_summary_path self)
    (_on_batch_id self) (_on_batch_type self) v (_file_queue_size self)
    (_in_progress self) (_in_progress_owner self) (_work_results self)
    (_batch_completion_evt self) (_summarizer self) (_stop_requested self)
    (_endpoint_managers self) (_endpoint_generation self)
    (_old_managers self) (_config_notifier self)
    (_run_summary_thread_gate self) (_creator_pid self)
    (__cnt_work_success_cb self) (__cnt_work_failure_cb self).

Definition set_file_queue_size v (self : Orchestrator) : Orchestrator :=
  mkOrchestrator (_submission_que self) (_singleton_run_summary_path self)
    (_on_batch_id self) (_on_batch_type self) (_file_queue self) v
    (_in_progress self) (_in_progress_owner self) (_work_results self)
    (_batch_completion_evt self) (_summarizer self) (_stop_requested self)
    (_endpoint_managers self) (_endpoint_generation self)
    (_old_managers self) (_config_notifier self)
    (_run_summary_thread_gate self) (_creator_pid self)
    (__cnt_work_success_cb self) (__cnt_work_failure_cb self).

Definition set_in_progress v (self : Orchestrator) : Orchestrator :=
  mkOrchestrator (_submission_que self) (_singleton_run_summary_path self)
    (_on_batch_id self) (_on_batch_type self) (_file_queue self)
    (_file_queue_size self) v (_in_progress_owner self) (_work_results self)
    (_batch_completion_evt self) (_summarizer self) (_stop_requested self)
    (_endpoint_managers self) (_endpoint_generation self)
    (_old_managers self) (_config_notifier self)
    (_run_summary_thread_gate self) (_creator_pid self)
    (__cnt_work_success_cb self) (__cnt_work_failure_cb self).

Definition set_in_progress_owner v (self : Orchestrator) : Orchestrator :=
  mkOrchestrator (_submission_que self) (_singleton_run_summary_path self)
    (_on_batch_id self) (_on_batch_type self) (_file_queue self)
    (_file_queue_size self) (_in_progress self) v (_work_results self)
    (_batch_completion_evt self) (_summarizer self) (_stop_requested self)
    (_endpoint_managers self) (_endpoint_generation self)
    (_old_managers self) (_config_notifier self)
    (_run_summary_thread_gate self) (_creator_pid self)
    (__cnt_work_success_cb self) (__cnt_work_failure_cb self).

Definition set_work_results v (self : Orchestrator) : Orchestrator :=
  mkOrchestrator (_submission_que self) (_singleton_run_summary_path self)
    (_on_batch_id self) (_on_batch_type self) (_file_queue self)
    (_file_queue_size self) (_in_progress self) (_in_progress_owner self) v
    (_batch_completion_evt self) (_summarizer self) (_stop_requested self)
    (_endpoint_managers self) (_endpoint_generation self)
    (_old_managers self) (_config_notifier self)
    (_run_summary_thread_gate self) (_creator_pid self)
    (__cnt_work_success_cb self) (__cnt_work_failure_cb self).

Definition set_batch_completion_evt v (self : Orchestrator) : Orchestrator :=
  mkOrchestrator (_submission_que self) (_singleton_run_summary_path self)
    (_on_batch_id self) (_on_batch_type self) (_file_queue self)
    (_file_queue_size self) (_in_progress self) (_in_progress_owner self)
    (_work_results self) v (_summarizer self) (_stop_requested self)
    (_endpoint_managers self) (_endpoint_generation self)
    (_old_managers self) (_config_notifier self)
    (_run_summary_thread_gate self) (_creator_pid self)
    (__cnt_work_success_cb self) (__cnt_work_failure_cb self).

Definition set_summarizer v (self : Orchestrator) : Orchestrator :=
  mkOrchestrator (_submission_que self) (_singleton_run_summary_path self)
    (_on_batch_id self) (_on_batch_type self) (_file_queue self)
    (_file_queue_size self) (_in_progress self) (_in_progress_owner self)
    (_work_results self) (_batch_completion_evt self) v
    (_stop_requested self) (_endpoint_managers self)
    (_endpoint_generation self) (_old_managers self) (_config_notifier self)
    (_run_summary_thread_gate self) (_creator_pid self)
    (__cnt_work_success_cb self) (__cnt_work_failure_cb self).

Definition set_stop_requested v (self : Orchestrator) : Orchestrator :=
  mkOrchestrator (_submission_que self) (_singleton_run_summary_path self)
    (_on_batch_id self) (_on_batch_type self) (_file_queue self)
    (_file_queue_size self) (_in_progress self) (_in_progress_owner self)
    (_work_results self) (_batch_completion_evt self) (_summarizer self) v
    (_endpoint_managers self) (_endpoint_generation self)
    (_old_managers self) (_config_notifier self)
    (_run_summary_thread_gate self) (_creator_pid self)
    (__cnt_work_success_cb self) (__cnt_work_failure_cb self).

Definition set_endpoint_managers v (self : Orchestrator) : Orchestrator :=
  mkOrchestrator (_submission_que self) (_singleton_run_summary_path self)
    (_on_batch_id self) (_on_batch_type self) (_file_queue self)
    (_file_queue_size self) (_in_progress self) (_in_progress_owner self)
    (_work_results self) (_batch_completion_evt self) (_summarizer self)
    (_stop_requested self) v (_endpoint_generation self) (_old_managers self)
    (_config_notifier self) (_run_summary_thread_gate self)
    (_creator_pid self) (__cnt_work_success_cb self)
    (__cnt_work_failure_cb self).

Definition set_endpoint_generation v (self : Orchestrator) : Orchestrator :=
  mkOrchestrator (_submission_que self) (_singleton_run_summary_path self)
    (_on_batch_id self) (_on_batch_type self) (_file_queue self)
    (_file_queue_size self) (_in_progress self) (_in_progress_owner self)
    (_work_results self) (_batch_completion_evt self) (_summarizer self)
    (_stop_requested self) (_endpoint_managers self) v (_old_managers self)
    (_config_notifier self) (_run_summary_thread_gate self)
    (_creator_pid self) (__cnt_work_success_cb self)
    (__cnt_work_failure_cb self).

Definition set_old_managers v (self : Orchestrator) : Orchestrator :=
  mkOrchestrator (_submission_que self) (_singleton_run_summary_path self)
    (_on_batch_id self) (_on_batch_type self) (_file_queue self)
    (_file_queue_size self) (_in_progress self) (_in_progress_owner self)
    (_work_results self) (_batch_completion_evt self) (_summarizer self)
    (_stop_requested self) (_endpoint_managers self)
    (_endpoint_generation self) v (_config_notifier self)
    (_run_summary_thread_gate self) (_creator_pid self)
    (__cnt_work_success_cb self) (__cnt_work_failure_cb self).

Definition set_config_notifier v (self : Orchestrator) : Orchestrator :=
  mkOrchestrator (_submission_que self) (_singleton_run_summary_path self)
    (_on_batch_id self) (_on_batch_type self) (_file_queue self)
    (_file_queue_size self) (_in_progress self) (_in_progress_owner self)
    (_work_results self) (_batch_completion_evt self) (_summarizer self)
    (_stop_requested self) (_endpoint_managers self)
    (_endpoint_generation self) (_old_managers self) v
    (_run_summary_thread_gate self) (_creator_pid self)
    (__cnt_work_success_cb self) (__cnt_work_failure_cb self).

Definition set_run_summary_thread_gate v (self : Orchestrator) : Orchestrator :=
  mkOrchestrator (_submission_que self) (_singleton_run_summary_path self)
    (_on_batch_id self) (_on_batch_type self) (_file_queue self)
    (_file_queue_size self) (_in_progress self) (_in_progress_owner self)
    (_work_results self) (_batch_completion_evt self) (_summarizer self)
    (_stop_requested self) (_endpoint_managers self)
    (_endpoint_generation self) (_old_managers self) (_config_notifier self)
    v (_creator_pid self) (__cnt_work_success_cb self)
    (__cnt_work_failure_cb self).

Definition set__cnt_work_success_cb v (self : Orchestrator) : Orchestrator :=
  mkOrchestrator (_submission_que self) (_singleton_run_summary_path self)
    (_on_batch_id self) (_on_batch_type self) (_file_queue self)
    (_file_queue_size self) (_in_progress self) (_in_progress_owner self)
    (_work_results self) (_batch_completion_evt self) (_summarizer self)
    (_stop_requested self) (_endpoint_managers self)
    (_endpoint_generation self) (_old_managers self) (_config_notifier self)
    (_run_summary_thread_gate self) (_creator_pid self) v
    (__cnt_work_failure_cb self).

Definition set__cnt_work_failure_cb v (self : Orchestrator) : Orchestrator :=
  mkOrchestrator (_submission_que self) (_singleton_run_summary_path self)
    (_on_batch_id self) (_on_batch_type self) (_file_queue self)
    (_file_queue_size self) (_in_progress self) (_in_progress_owner self)
    (_work_results self) (_batch_completion_evt self) (_summarizer self)
    (_stop_requested self) (_endpoint_managers self)
    (_endpoint_generation self) (_old_managers self) (_config_notifier self)
    (_run_summary_thread_gate self) (_creator_pid self)
    (__cnt_work_success_cb self) v.


(** ** Running a method *)

Inductive Exception :=
  | KeyError (key : string)
  | AssertionError
  | AttributeError
  | OSError (errno : Z)
  | BatchNotFoundException
  | InvalidConfigurationError
  | OtherException (what : string).

(** What a method sends to other threads or to the log sink while it
    runs. [notify] and [notify_all] are calls on [_file_queue_cond]. *)
Inductive BatchStatusEnum := waiting | running | done | deleted.

Inductive Signal :=
  | notify
  | notify_all
  | change_status_enum (batch_id : Z) (status : BatchStatusEnum)
  | delete_batch (batch_id : Z)
  | write_single_output_json (batch_id : Z)
  | log_debug (msg : string)
  | log_info (msg : string)
  | log_warning (msg : string)
  | log_error (msg : string).

(** How a call ends. [Waits] is a caller parked in
    [_file_queue_cond.wait()]: when woken it runs the loop of
    [steal_work] again from the top. [Blocks] is a [get] on a queue that
    holds nothing. *)
Inductive Outcome (A : Type) :=
  | Returns (a : A)
  | Raises (e : Exception)
  | Waits
  | Blocks.

Arguments Returns {A} a.
Arguments Raises {A} e.
Arguments Waits {A}.
Arguments Blocks {A}.

Record Run (A : Type) := mkRun {
  final : Orchestrator;
  emitted : list Signal;
  outcome : Outcome A
}.

Arguments mkRun {A} final emitted outcome.
Arguments final {A} r.
Arguments emitted {A} r.
Arguments outcome {A} r.

Definition M (A : Type) : Type := Orchestrator -> Run A.

Definition ret {A} (a : A) : M A := fun self => mkRun self [] (Returns a).

Definition bind {A B} (c : M A) (k : A -> M B) : M B := fun self =>
  match c self with
  | mkRun s1 e1 (Returns a) =>
      match k a s1 with
      | mkRun s2 e2 o2 => mkRun s2 (e1 ++ e2) o2
      end
  | mkRun s1 e1 (Raises e) => mkRun s1 e1 (Raises e)
  | mkRun s1 e1 Waits => mkRun s1 e1 Waits
  | mkRun s1 e1 Blocks => mkRun s1 e1 Blocks
  end.

Declare Scope orch_scope.
Delimit Scope orch_scope with orch.
Notation "x <- c ;; k" := (bind c (fun x => k))
  (at level 100, c at next level, k at level 200, right associativity) : orch_scope.
Notation "c ;; k" := (bind c (fun _ => k)) : orch_scope.
Local Open Scope orch_scope.

Definition get_self : M Orchestrator := fun self => mkRun self [] (Returns self).
Definition assign (f : Orchestrator -> Orchestrator) : M unit :=
  fun self => mkRun (f self) [] (Returns tt).
Definition raise {A} (e : Exception) : M A := fun self => mkRun self [] (Raises e).
Definition signal (x : Signal) : M unit := fun self => mkRun self [x] (Returns tt).
Definition wait {A} : M A := fun self => mkRun self [] Waits.
Definition block {A} : M A := fun self => mkRun self [] Blocks.

(** [try: c except Exception as e: h e] *)
Definition try_except {A} (c : M A) (h : Exception -> M A) : M A := fun self =>
  match c self with
  | mkRun s1 e1 (Raises e) =>
      match h e s1 with
      | mkRun s2 e2 o2 => mkRun s2 (e1 ++ e2) o2
      end
  | r => r
  end.

(** Modelled from the spec: the class [WorkItemQueue] is not part of this
    file. It is a FIFO of pending work items whose [get] blocks while the
    queue holds nothing. *)
Definition file_queue_put (work : WorkItemRequest) : M unit :=
  assign (fun self => set_file_queue (_file_queue self ++ [work]) self).

Definition file_queue_get : M WorkItemRequest :=
  self <- get_self ;;
  match _file_queue self with
  | [] => block
  | work :: rest => assign (set_file_queue rest) ;; ret work
  end.

(** [while self._file_queue_size > 0: self._file_queue.get();
    self._file_queue_size -= 1], unrolled [n] times. *)
Fixpoint drain_file_queue (n : nat) : M unit :=
  match n with
  | O => ret tt
  | S n' =>
      self <- get_self ;;
      if decide (_file_queue_size self > 0) then
        file_queue_get ;;
        assign (fun self => set_file_queue_size (_file_queue_size self - 1) self) ;;
        drain_file_queue n'
      else ret tt
  end.

(** [del self._in_progress[filepath]] and [del self._in_progress_owner[filepath]] *)
Definition del_in_progress (filepath : string) : M unit :=
  self <- get_self ;;
  match dict_get filepath (_in_progress self) with
  | None => raise (KeyError filepath)
  | Some _ => assign (set_in_progress (dict_del filepath (_in_progress self)))
  end.

Definition del_in_progress_owner (filepath : string) : M unit :=
  self <- get_self ;;
  match _in_progress_owner self !! filepath with
  | None => raise (KeyError filepath)
  | Some _ => assign (set_in_progress_owner (delete filepath (_in_progress_owner self)))
  end.

Definition batch_completion_evt_set : M unit := assign (set_batch_completion_evt true).

(** ** Accounting methods *)

(** [_merge_results]. A stored [WorkItemResult] is a plain object and so
    is true; the placeholder [None] is false. The source adds the prior
    attempts to the incoming object itself before storing it; its callers
    read only [can_retry] from that object afterwards. *)
Definition _merge_results (filepath : string) (result : WorkItemResult) : M unit :=
  self <- get_self ;;
  match _work_results self !! filepath with
  | None | Some None =>
      assign (set_work_results (<[filepath := Some result]> (_work_results self)))
  | Some (Some prev) =>
      let prev_attempts := attempts prev in
      let result := mkWorkItemResult (attempts result + prev_attempts)
                      (can_retry result) (result_payload result) in
      assign (set_work_results (<[filepath := Some result]> (_work_results self)))
  end.

(** [len(self._in_progress) == 0 and self._file_queue_size == 0] *)
Definition batch_finished (self : Orchestrator) : bool :=
  bool_decide (_file_queue_size self = 0) && bool_decide (length (_in_progress self) = 0%nat).

Definition notify_work_success (filepath : string) (manager : EndpointManager)
    (result : WorkItemResult) : M unit :=
  assign (fun self => set__cnt_work_success_cb (__cnt_work_success_cb self + 1) self) ;;
  self <- get_self ;;
  if bool_decide (name manager ∈ _old_managers self) then ret tt
  else if _stop_requested self then ret tt
  else
    del_in_progress filepath ;;
    del_in_progress_owner filepath ;;
    _merge_results filepath result ;;
    self <- get_self ;;
    if batch_finished self then batch_completion_evt_set else ret tt.

Section Retries.

(** [constants.ORCHESTRATOR_SCOPE_MAX_RETRIES] is defined outside this
    file. *)
Variable ORCHESTRATOR_SCOPE_MAX_RETRIES : Z.

(** The attempts stored for [filepath]; read as
    [self._work_results[filepath].attempts] right after a merge, when an
    object is stored. *)
Definition stored_attempts (filepath : string) (self : Orchestrator) : Z :=
  match _work_results self !! filepath with
  | Some (Some r) => attempts r
  | _ => 0
  end.

Definition notify_work_failure (filepath : string) (manager : EndpointManager)
    (result : WorkItemResult) : M unit :=
  assign (fun self => set__cnt_work_failure_cb (__cnt_work_failure_cb self + 1) self) ;;
  self <- get_self ;;
  if bool_decide (name manager ∈ _old_managers self) then ret tt
  else if _stop_requested self then ret tt
  else
    _merge_results filepath result ;;
    self <- get_self ;;
    (if can_retry result
        && bool_decide (stored_attempts filepath self - 1 < ORCHESTRATOR_SCOPE_MAX_RETRIES)
     then
       signal (log_debug "Placed work item back into queue since retriable.") ;;
       match dict_get filepath (_in_progress self) with
       | None => raise (KeyError filepath)
       | Some work =>
           file_queue_put work ;;
           assign (fun self => set_file_queue_size (_file_queue_size self + 1) self) ;;
           signal notify
       end
     else ret tt) ;;
    del_in_progress filepath ;;
    del_in_progress_owner filepath ;;
    self <- get_self ;;
    if batch_finished self then batch_completion_evt_set else ret tt.

End Retries.

(** ** Handing out work *)

(** What [steal_work] returns: a work item or [SentinelWorkItemRequest()]. *)
Inductive StealResult :=
  | Work (work : WorkItemRequest)
  | Sentinel.

(** One pass through the [while True] loop of [steal_work]. The loop
    leaves through a [break] in every branch but the last, which parks
    the caller on the condition; a woken caller starts the pass again on
    the state it then finds. A [KeyError] from the configuration lookup
    leaves the method with the work item taken off the queue. *)
Definition steal_work (manager : EndpointManager) : M StealResult :=
  self <- get_self ;;
  if bool_decide (name manager ∈ _old_managers self) || _stop_requested self then
    ret Sentinel
  else if bool_decide (_file_queue_size self > 0) then
    work <- file_queue_get ;;
    assign (fun self => set_file_queue_size (_file_queue_size self - 1) self) ;;
    mismatch <-
      (if truthy (language work) then
         match endpoint_config manager !! "language" with
         | None => raise (KeyError "language")
         | Some l => ret (bool_decide (lower l ≠ lower (default "" (language work))))
         end
       else ret false) ;;
    if (mismatch : bool) then
      file_queue_put work ;;
      assign (fun self => set_file_queue_size (_file_queue_size self + 1) self) ;;
      signal notify ;;
      ret Sentinel
    else
      assign (fun self =>
        set_in_progress (dict_set (filepath work) work (_in_progress self)) self) ;;
      assign (fun self =>
        set_in_progress_owner (<[filepath work := manager]> (_in_progress_owner self)) self) ;;
      ret (Work work)
  else wait.

(** ** Cancellation and stop *)

(** [for m in self._endpoint_managers: m.request_stop();
    self._old_managers.add(m.name)] *)
Definition stop_and_retire_all : M unit :=
  assign (fun self =>
    set_old_managers (_old_managers self ∪ list_to_set (name <$> _endpoint_managers self))
      (set_endpoint_managers (em_request_stop <$> _endpoint_managers self) self)).

Definition cancel_running_batch (batch_id : Z) : M bool :=
  self <- get_self ;;
  if bool_decide (_on_batch_id self ≠ batch_id) then ret false
  else
    drain_file_queue (Z.to_nat (_file_queue_size self)) ;;
    signal notify_all ;;
    assign (set_in_progress []) ;;
    assign (set_in_progress_owner ∅) ;;
    stop_and_retire_all ;;
    batch_completion_evt_set ;;
    ret true.

(** The guarded [self._config_notifier.stop()] of [request_stop]. *)
Definition config_notifier_stop : M unit :=
  self <- get_self ;;
  match _config_notifier self with
  | None => ret tt
  | Some notifier =>
      match stop_errno notifier with
      | None => assign (set_config_notifier None)
      | Some errno => raise (OSError errno)
      end
  end.

(** [request_stop], called by the process [pid]. *)
Definition request_stop (pid : Z) : M unit :=
  self <- get_self ;;
  if bool_decide (pid ≠ _creator_pid self) then ret tt
  else
    try_except config_notifier_stop
      (fun e =>
         match e with
         | OSError errno => if bool_decide (errno ≠ EBADF) then raise e else ret tt
         | _ => raise e
         end) ;;
    assign (set_stop_requested true) ;;
    self <- get_self ;;
    drain_file_queue (Z.to_nat (_file_queue_size self)) ;;
    assign (fun self => set_submission_que (_submission_que self ++ [None]) self) ;;
    signal notify_all ;;
    batch_completion_evt_set ;;
    assign (fun self => set_endpoint_managers (em_request_stop <$> _endpoint_managers self) self) ;;
    assign (set_run_summary_thread_gate true).

(** ** Run summaries *)

(** The object handed to the writers: [{}] without a summarizer, else
    what [run_summary] is given. *)
Inductive SummaryJson :=
  | EmptySummary
  | RunSummary (summarizer : BatchRunSummarizer)
      (snap_work_results : gmap string (option WorkItemResult))
      (snap_file_queue_size : Z) (snap_num_running : nat)
      (num_endpoint_managers : nat) (log_conclusion_msg : bool).

(** The two writers live outside this file. Each answers a call with
    [None] when it succeeds and with the exception it raises otherwise. *)
Record SummaryWriters := mkSummaryWriters {
  write_json_file_atomic : SummaryJson -> string -> Z -> option Exception;
  set_run_summary : Z -> SummaryJson -> option Exception
}.

Definition call (answer : option Exception) : M unit :=
  match answer with
  | None => ret tt
  | Some e => raise e
  end.

Section Summaries.

Variable writers : SummaryWriters.

Definition write_summary_information (write_run_summary : bool) (write_retries : Z)
    (log_conclusion_msg : bool) (allow_fail : bool) : M unit :=
  self <- get_self ;;
  let snap_work_results := _work_results self in
  let snap_file_queue_size := _file_queue_size self in
  let snap_num_running := length (_in_progress self) in
  let snap_run_summarizer := _summarizer self in
  let snap_batch_id := _on_batch_id self in
  let summary_json :=
    match snap_run_summarizer with
    | Some summarizer =>
        RunSummary summarizer snap_work_results snap_file_queue_size snap_num_running
          (length (_endpoint_managers self)) log_conclusion_msg
    | None => EmptySummary
    end in
  if write_run_summary then
    try_except
      (if truthy (_singleton_run_summary_path self) then
         signal (log_debug "Updating singleton run_summary") ;;
         call (write_json_file_atomic writers summary_json
                 (default "" (_singleton_run_summary_path self)) write_retries)
       else
         try_except (call (set_run_summary writers snap_batch_id summary_json))
           (fun e =>
              match e with
              | BatchNotFoundException => ret tt
              | _ => raise e
              end))
      (fun e =>
         signal (log_warning "Failed to write run_summary") ;;
         if negb allow_fail then raise e else ret tt)
  else ret tt.

(** One turn of [_run_summary_loop], after the gate has opened. *)
Definition _run_summary_loop : M unit :=
  self <- get_self ;;
  if _stop_requested self then ret tt
  else if bool_decide (_on_batch_id self > -1) && bool_decide (is_Some (_summarizer self)) then
    try_except (write_summary_information true 5 false false)
      (fun e => signal (log_error "Orchestrator: run_summary_thread in run_summary_loop()"))
  else ret tt.

Definition _master_finalize : M unit :=
  self <- get_self ;;
  if truthy (_singleton_run_summary_path self) then
    write_summary_information false 3 true false
  else ret tt.

End Summaries.

(** ** Hot swap of the endpoint managers *)

Section Hotswap.

(** Modelled from the spec: the constructor of [EndpointManager] is not
    part of this file; it fails on a configuration-derived error. The
    predicate says for which configurations it succeeds. *)
Variable valid_endpoint_config : gmap string string -> bool.

(** [EndpointManager("HotswapGen{0}_{1}".format(str(gen), endpoint_name),
    endpoint_name, endpoint_config, ..., ep_status_checker, ...,
    work_item_processor)]. The locals [endpoint_name], [endpoint_config]
    and [work_item_processor] of the source are [ep_name], [ep_config] and
    [processor] here, as the fields of a manager bear those names. *)
Definition new_EndpointManager (gen : Z) (ep_name : string)
    (ep_config : gmap string string)
    (ep_status_checker processor : string) : M EndpointManager :=
  if valid_endpoint_config ep_config then
    ret (mkEndpointManager ("HotswapGen" +:+ pretty gen +:+ "_" +:+ ep_name)
           ep_name ep_config processor ep_status_checker false false)
  else raise (OtherException "EndpointManager").

(** [{em.endpoint_name: em for em in self._endpoint_managers}] *)
Definition managers_by_endpoint_name (ems : list EndpointManager)
    : gmap string EndpointManager :=
  foldl (fun d em => <[endpoint_name em := em]> d) ∅ ems.

(** [for endpoint_name, endpoint_config in config_data.items(): ...] with
    the two locals [deleted_managers] and [new_em_objs]. *)
Fixpoint diff_configuration (gen : Z) (ep_status_checker processor : string)
    (config_items : list (string * gmap string string))
    (deleted_managers : gmap string EndpointManager)
    (new_em_objs : list EndpointManager)
    : M (gmap string EndpointManager * list EndpointManager) :=
  match config_items with
  | [] => ret (deleted_managers, new_em_objs)
  | (ep_name, ep_config) :: rest =>
      let preserved :=
        match deleted_managers !! ep_name with
        | Some em =>
            bool_decide (ep_config = endpoint_config em)
            && bool_decide (work_item_processor em = processor)
            && negb (em_stop_requested em)
        | None => false
        end in
      if preserved then
        diff_configuration gen ep_status_checker processor rest
          (delete ep_name deleted_managers) new_em_objs
      else
        em <- new_EndpointManager gen ep_name ep_config ep_status_checker processor ;;
        diff_configuration gen ep_status_checker processor rest
          deleted_managers (new_em_objs ++ [em])
  end.

(** [for m in self._endpoint_managers: if m.endpoint_name in
    deleted_managers: self._old_managers.add(m.name); m.request_stop()] *)
Definition stop_deleted (deleted_managers : gmap string EndpointManager) : M unit :=
  assign (fun self =>
    set_old_managers
      (_old_managers self
       ∪ list_to_set
           (name <$> filter (fun m => is_Some (deleted_managers !! endpoint_name m))
                       (_endpoint_managers self)))
      (set_endpoint_managers
         ((fun m =>
             if bool_decide (is_Some (deleted_managers !! endpoint_name m))
             then em_request_stop m else m) <$> _endpoint_managers self)
         self)).

(** [for filepath, work_item in self._in_progress.items(): ...] with the
    two shallow copies as locals. *)
Fixpoint unassign_deleted (deleted_managers : gmap string EndpointManager)
    (items : list (string * WorkItemRequest))
    (work_in_progress : dict WorkItemRequest)
    (work_in_progress_owner : gmap string EndpointManager)
    : M (dict WorkItemRequest * gmap string EndpointManager) :=
  match items with
  | [] => ret (work_in_progress, work_in_progress_owner)
  | (filepath, work_item) :: rest =>
      self <- get_self ;;
      match _in_progress_owner self !! filepath with
      | None => raise (KeyError filepath)
      | Some owner =>
          let owner_endpoint_name := endpoint_name owner in
          if bool_decide (is_Some (deleted_managers !! owner_endpoint_name)) then
            file_queue_put work_item ;;
            assign (fun self => set_file_queue_size (_file_queue_size self + 1) self) ;;
            unassign_deleted deleted_managers rest
              (dict_del filepath work_in_progress)
              (delete filepath work_in_progress_owner)
          else
            unassign_deleted deleted_managers rest work_in_progress work_in_progress_owner
      end
  end.

(** [load_configuration] answers with the parsed configuration, in file
    order, or raises [InvalidConfigurationError], which is [None] here. *)
Definition hotswap_endpoint_managers
    (load_configuration : option (list (string * gmap string string))) : M unit :=
  match load_configuration with
  | None => signal (log_error "Invalid endpoint configuration file")
  | Some config_data =>
      self <- get_self ;;
      if _stop_requested self then ret tt
      else
        let gen := _endpoint_generation self in
        assign (set_endpoint_generation (gen + 1)) ;;
        let ep_status_checker :=
          match _on_batch_type self with
          | None => UnknownEndpointStatusChecker
          | Some t => get_endpoint_status_checker t
          end in
        let processor :=
          match _on_batch_type self with
          | None => StubWorkItemProcessor
          | Some t => get_work_item_processor t
          end in
        diffed <-
          try_except
            (d <- diff_configuration gen ep_status_checker processor config_data
                    (managers_by_endpoint_name (_endpoint_managers self)) [] ;;
             ret (Some d))
            (fun e => signal (log_error "Caught Exception reading config") ;; ret None) ;;
        match diffed with
        | None => ret tt
        | Some (deleted_managers, new_em_objs) =>
            self <- get_self ;;
            if _stop_requested self then ret tt
            else
              stop_deleted deleted_managers ;;
              self <- get_self ;;
              work <- unassign_deleted deleted_managers (_in_progress self)
                        (_in_progress self) (_in_progress_owner self) ;;
              assign (set_in_progress work.1) ;;
              assign (set_in_progress_owner work.2) ;;
              signal notify_all ;;
              let new_em_objs := em_start <$> new_em_objs in
              assign (fun self =>
                set_endpoint_managers
                  (filter (fun em => ¬ is_Some (deleted_managers !! endpoint_name em))
                     (_endpoint_managers self) ++ new_em_objs) self) ;;
              assign (fun self =>
                set_endpoint_managers
                  (em_set_endpoint_status_checker ep_status_checker
                     <$> _endpoint_managers self) self) ;;
              signal (log_info "Set new EndpointManagers after hot-swap")
        end
  end.

End Hotswap.

(** ** The master loop *)

Section MasterLoop.

Variable writers : SummaryWriters.
Variable valid_endpoint_config : gmap string string -> bool.

(** [for work in request.make_work_items(...): self._file_queue.put(work);
    self._file_queue_size += 1; self._work_results[work.filepath] = None] *)
Fixpoint enqueue_work_items (works : list WorkItemRequest) : M unit :=
  match works with
  | [] => ret tt
  | work :: rest =>
      file_queue_put work ;;
      assign (fun self => set_file_queue_size (_file_queue_size self + 1) self) ;;
      assign (fun self =>
        set_work_results (<[filepath work := None]> (_work_results self)) self) ;;
      enqueue_work_items rest
  end.

Definition assert (b : bool) : M unit :=
  if b then ret tt else raise AssertionError.

(** The critical section that starts a batch. It answers [false] when the
    loop returns because a stop was requested. The [None] that
    [request_stop] puts on the submission queue has no
    [get_batch_run_summarizer]. *)
Definition start_batch (request : option BatchRequest) : M bool :=
  self <- get_self ;;
  if _stop_requested self then
    _master_finalize writers ;;
    ret false
  else
    (if bool_decide (_singleton_run_summary_path self = None)
     then assign (set_work_results ∅) else ret tt) ;;
    match request with
    | None => raise AttributeError
    | Some request =>
        assign (set_summarizer (Some (get_batch_run_summarizer request))) ;;
        signal (log_info "Orchestrator: Starting batch") ;;
        assign (set_on_batch_id (batch_id request)) ;;
        assign (set_batch_completion_evt false) ;;
        assign (set_run_summary_thread_gate true) ;;
        self <- get_self ;;
        assert (bool_decide (length (_in_progress self) = 0%nat)) ;;
        assert (bool_decide (_file_queue_size self = 0)) ;;
        enqueue_work_items (make_work_items request) ;;
        signal notify_all ;;
        ret true
    end.

(** How far one turn of [_master_thread_loop] gets before it waits. *)
Inductive LoopStep :=
  | Continue
  | Return
  | AwaitCompletion (request : BatchRequest).

(** The loop body up to [self._batch_completion_evt.wait()]. The status
    provider and the configuration loader are outside this file: the
    answers of the two [is_deleted] calls and of [load_configuration] are
    inputs. *)
Definition _master_thread_loop_begin (is_deleted_on_arrival : bool)
    (load_configuration : option (list (string * gmap string string)))
    (is_deleted_on_start : bool) : M LoopStep :=
  self <- get_self ;;
  match _submission_que self with
  | [] => block
  | request :: rest =>
      assign (set_submission_que rest) ;;
      assign (set_on_batch_type (batch_type <$> request)) ;;
      if bool_decide (is_Some request) && is_deleted_on_arrival then
        signal (log_info "Orchestrator: Skipping batch because it was marked deleted.") ;;
        ret Continue
      else
        hotswap_endpoint_managers valid_endpoint_config load_configuration ;;
        started <- start_batch request ;;
        match started, request with
        | true, Some request =>
            (if is_deleted_on_start then
               cancel_running_batch (batch_id request) ;; ret tt
             else signal (change_status_enum (batch_id request) running)) ;;
            ret (AwaitCompletion request)
        | _, _ => ret Return
        end
  end.

(** The loop body after [self._batch_completion_evt.wait()] has returned. *)
Definition _master_thread_loop_end (request : BatchRequest)
    (is_deleted_on_wake is_deleted_at_end : bool) : M unit :=
  let canceled := is_deleted_on_wake in
  signal (log_info (if canceled then "Orchestrator: Canceled processing batch"
                    else "Orchestrator: Completed batch")) ;;
  self <- get_self ;;
  (if bool_decide (_singleton_run_summary_path self = None) then
     write_summary_information writers true 10 true true
   else
     write_summary_information writers true 10 false true) ;;
  (if negb canceled && combine_results request then
     signal (log_info "Orchestrator: Concatenating batch results to single file") ;;
     signal (write_single_output_json (batch_id request))
   else ret tt) ;;
  (if is_deleted_at_end then signal (delete_batch (batch_id request))
   else
     signal (change_status_enum (batch_id request) done) ;;
     signal (log_info "Orchestrator: Updated batch status to Done")) ;;
  assign (set_run_summary_thread_gate false).

End MasterLoop.

(** ** The object that [__init__] builds *)

Definition Orchestrator_init (submission_queue : list (option BatchRequest))
    (singleton_run_summary_path : option string)
    (config_notifier : option ThreadedNotifier) (creator_pid : Z) : Orchestrator :=
  mkOrchestrator submission_queue singleton_run_summary_path (-1) None
    [] 0 [] ∅ ∅ false None false [] 0 ∅ config_notifier false creator_pid 0 0.

(** ** Vocabulary of the properties *)

(** The accounting state: work queue, queue size, [_in_progress],
    [_in_progress_owner], [_work_results] and [_batch_completion_evt]. *)
Definition accounting (self : Orchestrator) :=
  (_file_queue self, _file_queue_size self, _in_progress self,
   _in_progress_owner self, _work_results self, _batch_completion_evt self).

(** A callback of [manager] is dropped when the manager is retired or a
    stop was requested. *)
Definition retired (manager : EndpointManager) (self : Orchestrator) : Prop :=
  name manager ∈ _old_managers self.

Definition dropped (manager : EndpointManager) (self : Orchestrator) : bool :=
  bool_decide (name manager ∈ _old_managers self) || _stop_requested self.

(** The merge as the specification words it: without a prior result the
    incoming result is stored as it is, otherwise its attempts are
    increased by the prior attempts. *)
Definition merged (prior : option (option WorkItemResult)) (result : WorkItemResult)
    : WorkItemResult :=
  match prior with
  | Some (Some prev) =>
      mkWorkItemResult (attempts result + attempts prev) (can_retry result)
        (result_payload result)
  | _ => result
  end.

(** Results reported one after the other for the same filepath. *)
Fixpoint merge_sequence (filepath : string) (results : list WorkItemResult) : M unit :=
  match results with
  | [] => ret tt
  | result :: rest => _merge_results filepath result ;; merge_sequence filepath rest
  end.

Definition total_attempts (results : list WorkItemResult) : Z :=
  foldr (fun r acc => attempts r + acc) 0 results.

(** The last result of [first :: rest]. *)
Definition most_recent (first : WorkItemResult) (rest : list WorkItemResult)
    : WorkItemResult :=
  foldl (fun _ r => r) first rest.

(** The invariants of the data model: the size counter is the length of
    the queue, [_in_progress] is a dictionary whose keys are those of
    [_in_progress_owner] and the filepaths of its values, and no filepath
    is queued twice or both queued and in progress. *)
Definition accounting_wf (self : Orchestrator) : Prop :=
  _file_queue_size self = Z.of_nat (length (_file_queue self))
  ∧ NoDup (dict_keys (_in_progress self))
  ∧ dom (_in_progress_owner self) = list_to_set (dict_keys (_in_progress self))
  ∧ Forall (fun kv => filepath kv.2 = kv.1) (_in_progress self)
  ∧ NoDup (filepath <$> _file_queue self)
  ∧ Forall (fun w => filepath w ∉ dict_keys (_in_progress self)) (_file_queue self).

#[global] Instance accounting_wf_dec self : Decision (accounting_wf self).
Proof. unfold accounting_wf. apply _. Defined.

(** The request names a language: [work.language] is true. *)
Definition language_set (work : WorkItemRequest) : Prop :=
  truthy (language work) = true.

(** The language configured for [manager] differs, letter case aside,
    from the one the request names. *)
Definition language_differs (manager : EndpointManager) (work : WorkItemRequest) : Prop :=
  ∃ l, endpoint_config manager !! "language" = Some l
       ∧ lower l ≠ lower (default "" (language work)).

(** The state in which [steal_work] hands [work] to [manager], [rest]
    being what stays queued. *)
Definition handed_out (manager : EndpointManager) (work : WorkItemRequest)
    (rest : list WorkItemRequest) (self : Orchestrator) : Orchestrator :=
  set_in_progress_owner (<[filepath work := manager]> (_in_progress_owner self))
    (set_in_progress (dict_set (filepath work) work (_in_progress self))
       (set_file_queue_size (_file_queue_size self - 1)
          (set_file_queue rest self))).

(** The object after a success callback that is not dropped and finds
    [filepath] in both dictionaries, before the completion check. *)
Definition success_recorded (filepath : string) (result : WorkItemResult)
    (self : Orchestrator) : Orchestrator :=
  set_work_results
    (<[filepath := Some (merged (_work_results self !! filepath) result)]>
       (_work_results self))
    (set_in_progress_owner (delete filepath (_in_progress_owner self))
       (set_in_progress (dict_del filepath (_in_progress self))
          (set__cnt_work_success_cb (__cnt_work_success_cb self + 1) self))).

(** The completion check that ends both callbacks. *)
Definition check_completion (self : Orchestrator) : Orchestrator :=
  if batch_finished self then set_batch_completion_evt true self else self.

(** The object after the merge of a failure callback that is not dropped. *)
Definition failure_merged (filepath : string) (result : WorkItemResult)
    (self : Orchestrator) : Orchestrator :=
  set_work_results
    (<[filepath := Some (merged (_work_results self !! filepath) result)]>
       (_work_results self))
    (set__cnt_work_failure_cb (__cnt_work_failure_cb self + 1) self).

(** Whether a failure callback grants another attempt: the result can be
    retried and the merged attempts, less one, are below the maximum. *)
Definition retry_granted (MAX : Z) (filepath : string) (result : WorkItemResult)
    (self : Orchestrator) : bool :=
  can_retry result
  && bool_decide (attempts (merged (_work_results self !! filepath) result) - 1 < MAX).

(** [work] put back at the end of the queue. *)
Definition requeued (work : WorkItemRequest) (self : Orchestrator) : Orchestrator :=
  set_file_queue_size (_file_queue_size self + 1)
    (set_file_queue (_file_queue self ++ [work]) self).

(** [filepath] taken out of both dictionaries. *)
Definition no_longer_in_progress (filepath : string) (self : Orchestrator) : Orchestrator :=
  set_in_progress_owner (delete filepath (_in_progress_owner self))
    (set_in_progress (dict_del filepath (_in_progress self)) self).

(** What the guarded [self._config_notifier.stop()] of [request_stop]
    leaves in [_config_notifier], and the errno it lets escape, if any. *)
Definition config_notifier_after_stop (self : Orchestrator) : option ThreadedNotifier :=
  match _config_notifier self with
  | Some notifier =>
      match stop_errno notifier with
      | None => None
      | Some _ => Some notifier
      end
  | None => None
  end.

Definition config_notifier_stop_escapes (self : Orchestrator) : option Z :=
  match _config_notifier self with
  | Some notifier =>
      match stop_errno notifier with
      | Some errno => if bool_decide (errno ≠ EBADF) then Some errno else None
      | None => None
      end
  | None => None
  end.

(** The object after a [request_stop] of the creator process that gets
    through. *)
Definition stopped (self : Orchestrator) : Orchestrator :=
  set_run_summary_thread_gate true
    (set_endpoint_managers (em_request_stop <$> _endpoint_managers self)
       (set_batch_completion_evt true
          (set_submission_que (_submission_que self ++ [None])
             (set_file_queue_size
                (_file_queue_size self - Z.of_nat (Z.to_nat (_file_queue_size self)))
                (set_file_queue
                   (drop (Z.to_nat (_file_queue_size self)) (_file_queue self))
                   (set_stop_requested true
                      (set_config_notifier (config_notifier_after_stop self) self))))))).

(** The object a summary write is given, as [write_summary_information]
    builds it from its snapshot. *)
Definition summary_json (log_conclusion_msg : bool) (self : Orchestrator) : SummaryJson :=
  match _summarizer self with
  | Some summarizer =>
      RunSummary summarizer (_work_results self) (_file_queue_size self)
        (length (_in_progress self)) (length (_endpoint_managers self))
        log_conclusion_msg
  | None => EmptySummary
  end.

(** The exception a summary write fails with, if it fails: what the
    writer in charge raises, the benign [BatchNotFoundException] of the
    status provider set aside. *)
Definition summary_write_failure (writers : SummaryWriters) (write_retries : Z)
    (log_conclusion_msg : bool) (self : Orchestrator) : option Exception :=
  if truthy (_singleton_run_summary_path self) then
    write_json_file_atomic writers (summary_json log_conclusion_msg self)
      (default "" (_singleton_run_summary_path self)) write_retries
  else
    match set_run_summary writers (_on_batch_id self)
            (summary_json log_conclusion_msg self) with
    | Some BatchNotFoundException => None
    | answer => answer
    end.

(** Whether the master loop asks for the conclusion message in its final
    summary: only without a singleton run summary. *)
Definition final_summary_logs_conclusion (self : Orchestrator) : bool :=
  bool_decide (_singleton_run_summary_path self = None).

(** The status checker and the work item processor that a hot swap picks
    for the batch type at hand. *)
Definition ep_status_checker_for (self : Orchestrator) : string :=
  match _on_batch_type self with
  | None => UnknownEndpointStatusChecker
  | Some t => get_endpoint_status_checker t
  end.

Definition work_item_processor_for (self : Orchestrator) : string :=
  match _on_batch_type self with
  | None => StubWorkItemProcessor
  | Some t => get_work_item_processor t
  end.

(** The diff of a hot swap run on [self]: its result is the pair of
    [deleted_managers] and [new_em_objs]. *)
Definition hotswap_diff (valid_endpoint_config : gmap string string -> bool)
    (config_data : list (string * gmap string string)) (self : Orchestrator)
    : Run (gmap string EndpointManager * list EndpointManager) :=
  diff_configuration valid_endpoint_config (_endpoint_generation self)
    (ep_status_checker_for self) (work_item_processor_for self) config_data
    (managers_by_endpoint_name (_endpoint_managers self)) [] self.

(** Whether the manager that owns [filepath] is being deleted. *)
Definition owner_deleted (deleted_managers : gmap string EndpointManager)
    (self : Orchestrator) (filepath : string) : bool :=
  match _in_progress_owner self !! filepath with
  | Some owner => bool_decide (is_Some (deleted_managers !! endpoint_name owner))
  | None => false
  end.

(** The bindings of [_in_progress] that a hot swap frees. *)
Definition unassigned (deleted_managers : gmap string EndpointManager)
    (self : Orchestrator) : list (string * WorkItemRequest) :=
  filter (fun kv => owner_deleted deleted_managers self kv.1 = true) (_in_progress self).

(** The bindings of [_in_progress] that a hot swap leaves in place. *)
Definition kept_in_progress (deleted_managers : gmap string EndpointManager)
    (self : Orchestrator) : list (string * WorkItemRequest) :=
  filter (fun kv => owner_deleted deleted_managers self kv.1 = false) (_in_progress self).

(** The object after a hot swap that deletes [deleted_managers] and
    starts [new_em_objs]. *)
Definition swapped (deleted_managers : gmap string EndpointManager)
    (new_em_objs : list EndpointManager) (self : Orchestrator) : Orchestrator :=
  let moved := unassigned deleted_managers self in
  set_endpoint_managers
    (em_set_endpoint_status_checker (ep_status_checker_for self)
       <$> (filter (fun em => ¬ is_Some (deleted_managers !! endpoint_name em))
              ((fun m =>
                  if bool_decide (is_Some (deleted_managers !! endpoint_name m))
                  then em_request_stop m else m) <$> _endpoint_managers self)
            ++ (em_start <$> new_em_objs))%list)
    (set_in_progress_owner
       (foldl (fun d kv => delete kv.1 d) (_in_progress_owner self) moved)
       (set_in_progress (kept_in_progress deleted_managers self)
          (set_file_queue_size (_file_queue_size self + Z.of_nat (length moved))
             (set_file_queue (_file_queue self ++ moved.*2)
                (set_old_managers
                   (_old_managers self
                    ∪ list_to_set
                        (name <$> filter
                           (fun m => is_Some (deleted_managers !! endpoint_name m))
                           (_endpoint_managers self)))
                   (set_endpoint_generation (_endpoint_generation self + 1) self)))))).

(** ** The orchestrator as a transition system *)


(** Completion means quiescence: unless a stop was requested, a set
    completion event goes with an empty queue and nothing in progress. *)
Definition completion_inv (self : Orchestrator) : Prop :=
  _stop_requested self = false → _batch_completion_evt self = true →
  _file_queue_size self = 0 ∧ _in_progress self = [].

(** A property that a method keeps, however the method ends. *)
Definition preserves {A} (I : Orchestrator → Prop) (c : M A) : Prop :=
  ∀ self, I self → I (final (c self)).

Section System.

Variable ORCHESTRATOR_SCOPE_MAX_RETRIES : Z.
Variable writers : SummaryWriters.
Variable valid_endpoint_config : gmap string string -> bool.

(** What the threads around the orchestrator do to it: the endpoint
    managers steal work and report, the configuration watcher hot swaps,
    clients submit, cancel and stop, and the two threads of the
    orchestrator itself take their turns. *)
Inductive Call :=
  | StealWork (manager : EndpointManager)
  | NotifyWorkSuccess (filepath : string) (manager : EndpointManager)
      (result : WorkItemResult)
  | NotifyWorkFailure (filepath : string) (manager : EndpointManager)
      (result : WorkItemResult)
  | HotswapEndpointManagers
      (load_configuration : option (list (string * gmap string string)))
  | CancelRunningBatch (batch_id : Z)
  | RequestStop (pid : Z)
  | Submit (request : BatchRequest)
  | MasterThreadLoopBegin (is_deleted_on_arrival : bool)
      (load_configuration : option (list (string * gmap string string)))
      (is_deleted_on_start : bool)
  | MasterThreadLoopEnd (request : BatchRequest)
      (is_deleted_on_wake is_deleted_at_end : bool)
  | RunSummaryLoop.

Definition perform (c : Call) : M unit :=
  match c with
  | StealWork manager => steal_work manager ;; ret tt
  | NotifyWorkSuccess filepath manager result =>
      notify_work_success filepath manager result
  | NotifyWorkFailure filepath manager result =>
      notify_work_failure ORCHESTRATOR_SCOPE_MAX_RETRIES filepath manager result
  | HotswapEndpointManagers load_configuration =>
      hotswap_endpoint_managers valid_endpoint_config load_configuration
  | CancelRunningBatch batch_id => cancel_running_batch batch_id ;; ret tt
  | RequestStop pid => request_stop pid
  | Submit request =>
      assign (fun self => set_submission_que (_submission_que self ++ [Some request]) self)
  | MasterThreadLoopBegin is_deleted_on_arrival load_configuration is_deleted_on_start =>
      _master_thread_loop_begin writers valid_endpoint_config is_deleted_on_arrival
        load_configuration is_deleted_on_start ;; ret tt
  | MasterThreadLoopEnd request is_deleted_on_wake is_deleted_at_end =>
      _master_thread_loop_end writers request is_deleted_on_wake is_deleted_at_end
  | RunSummaryLoop => _run_summary_loop writers
  end.

(** The filepaths of the work items of a batch are unique within the
    batch: the request that the master loop takes next yields no filepath
    twice. *)
Definition unique_filepaths (self : Orchestrator) (c : Call) : Prop :=
  match c with
  | MasterThreadLoopBegin _ _ _ =>
      match _submission_que self with
      | Some request :: _ => NoDup (filepath <$> make_work_items request)
      | _ => True
      end
  | _ => True
  end.

(** Endpoint managers that report one attempt per result, and only on
    work that the orchestrator can account for, so that the callback
    returns. *)
Definition well_behaved (self : Orchestrator) (c : Call) : Prop :=
  match c with
  | NotifyWorkSuccess _ _ result | NotifyWorkFailure _ _ result =>
      attempts result = 1 ∧ outcome (perform c self) = Returns tt
  | _ => True
  end.

(** The states that the calls allowed by [guard] lead to from a new
    orchestrator. *)
Inductive reachable (guard : Orchestrator → Call → Prop) : Orchestrator → Prop :=
  | reachable_init submission_queue singleton_run_summary_path config_notifier
      creator_pid :
      reachable guard
        (Orchestrator_init submission_queue singleton_run_summary_path
           config_notifier creator_pid)
  | reachable_step self c :
      reachable guard self → guard self c →
      reachable guard (final (perform c self)).

End System.

(** The three steps by which the master loop starts a batch: the results
    of the batch before are dropped unless there is a singleton run
    summary, the batch is announced, and its work items are queued with
    the [None] placeholder as their result. *)
Definition batch_reset (self : Orchestrator) : Orchestrator :=
  if bool_decide (_singleton_run_summary_path self = None)
  then set_work_results ∅ self else self.

Definition batch_opened (request : BatchRequest) (self : Orchestrator) : Orchestrator :=
  set_run_summary_thread_gate true
    (set_batch_completion_evt false
       (set_on_batch_id (batch_id request)
          (set_summarizer (Some (get_batch_run_summarizer request))
             (batch_reset self)))).

Definition enqueued (works : list WorkItemRequest) (self : Orchestrator) : Orchestrator :=
  set_work_results
    (foldl (fun results work => <[filepath work := None]> results)
       (_work_results self) works)
    (set_file_queue_size (_file_queue_size self + Z.of_nat (length works))
       (set_file_queue (_file_queue self ++ works) self)).

(** ** A small deployment

    One endpoint [E1] for the language [en-US], a batch of two files and
    a retry budget of two, used to run the methods on concrete inputs. *)

Definition example_writers : SummaryWriters :=
  mkSummaryWriters (fun _ _ _ => None) (fun _ _ => None).


Definition example_valid : gmap string string -> bool := fun _ => true.

Definition example_config : list (string * gmap string string) :=
  [("E1", {["language" := "en-US"]})].

Definition work_a : WorkItemRequest := mkWorkItemRequest "a" (Some "EN-us") "".
Definition work_b : WorkItemRequest := mkWorkItemRequest "b" None "".

Definition example_request : BatchRequest :=
  mkBatchRequest 7 (mkBatchType "SpeechBatch" "SpeechProcessor" "SpeechChecker") false
    [work_a; work_b].

(** The manager that the hot swap at the start of the batch creates. *)
Definition example_manager : EndpointManager :=
  mkEndpointManager "HotswapGen1_E1" "E1" {["language" := "en-US"]}
    "SpeechProcessor" "SpeechChecker" false true.

(** A manager configured for another language, and one whose
    configuration names no language. *)
Definition french_manager : EndpointManager :=
  mkEndpointManager "HotswapGen1_E2" "E2" {["language" := "fr-FR"]}
    "SpeechProcessor" "SpeechChecker" false true.

Definition plain_manager : EndpointManager :=
  mkEndpointManager "HotswapGen1_E3" "E3" ∅ "SpeechProcessor" "SpeechChecker" false true.

Definition example_perform : Call -> M unit :=
  perform 2 example_writers example_valid.

(** The orchestrator is created by process 1, the endpoints are
    configured, the batch is submitted and the master loop starts it. *)
Definition example_created : Orchestrator := Orchestrator_init [] None None 1.

Definition example_configured : Orchestrator :=
  final (example_perform (HotswapEndpointManagers (Some example_config)) example_created).

Definition example_submitted : Orchestrator :=
  final (example_perform (Submit example_request) example_configured).

Definition example_started : Orchestrator :=
  final (example_perform (MasterThreadLoopBegin false (Some example_config) false)
           example_submitted).

(** The manager has taken the first file. *)
Definition example_running : Orchestrator :=
  final (example_perform (StealWork example_manager) example_started).

(** A first failed attempt that can be retried. *)
Definition example_result : WorkItemResult := mkWorkItemResult 1 true "timeout".

Definition example_failed : Orchestrator :=
  final (example_perform (NotifyWorkFailure "a" example_manager example_result)
           example_running).

(** The batch is canceled while the first file is in progress. *)
Definition example_canceled : Orchestrator :=
  final (example_perform (CancelRunningBatch 7) example_running).

(** The calls that the properties over runs allow. *)
Definition example_guard (self : Orchestrator) (c : Call) : Prop :=
  unique_filepaths self c ∧ well_behaved 2 example_writers example_valid self c.

(** A new configuration that drops [E1] for a French endpoint [E2], and
    what the diff of the hot swap makes of it while the first file is in
    progress. *)
Definition french_config : list (string * gmap string string) :=
  [("E2", {["language" := "fr-FR"]})].

Definition example_deleted : gmap string EndpointManager :=
  {["E1" := example_manager]}.

Definition example_new : list EndpointManager :=
  [mkEndpointManager "HotswapGen2_E2" "E2" {["language" := "fr-FR"]}
     "SpeechProcessor" "SpeechChecker" false false].

(** ** What no call takes back *)

(** From [a] to [b] no manager has left the retired set, a requested stop
    still stands, the creator process and the singleton summary path are
    the same and the generation counter has not gone down. *)
Definition never_undone (a b : Orchestrator) : Prop :=
  _old_managers a ⊆ _old_managers b
  ∧ (_stop_requested a = true → _stop_requested b = true)
  ∧ _creator_pid b = _creator_pid a
  ∧ _singleton_run_summary_path b = _singleton_run_summary_path a
  ∧ (_endpoint_generation a ≤ _endpoint_generation b)%Z.

(** A program that takes nothing back, however it ends. *)
Definition increasing {A} (c : M A) : Prop :=
  ∀ self, never_undone self (final (c self)).

(** ** The diff of a hot swap, in closed form *)

(** Whether a hot swap keeps the manager that [by_name] holds for a
    configured endpoint: the endpoint has a manager, with the same
    configuration and the same type of work item processor, that was not
    asked to stop. *)
Definition endpoint_preserved (processor : string)
    (by_name : gmap string EndpointManager)
    (entry : string * gmap string string) : bool :=
  match by_name !! entry.1 with
  | Some em =>
      bool_decide (entry.2 = endpoint_config em)
      && bool_decide (work_item_processor em = processor)
      && negb (em_stop_requested em)
  | None => false
  end.

(** The entries of a configuration whose manager is kept, and those that
    get a new manager. *)
Definition preserved_endpoints (processor : string)
    (by_name : gmap string EndpointManager)
    (config_data : list (string * gmap string string)) :=
  filter (fun entry => endpoint_preserved processor by_name entry = true) config_data.

Definition replaced_endpoints (processor : string)
    (by_name : gmap string EndpointManager)
    (config_data : list (string * gmap string string)) :=
  filter (fun entry => endpoint_preserved processor by_name entry = false) config_data.

(** The manager that generation [gen] makes for a configuration entry. *)
Definition manager_of_generation (gen : Z) (ep_status_checker processor : string)
    (entry : string * gmap string string) : EndpointManager :=
  mkEndpointManager ("HotswapGen" +:+ pretty gen +:+ "_" +:+ entry.1)
    entry.1 entry.2 processor ep_status_checker false false.

(** A constructor that refuses a configuration without a language, and a
    configuration with such an entry. *)
Definition strict_valid : gmap string string -> bool :=
  fun ep_config => bool_decide (is_Some (ep_config !! "language")).

Definition broken_config : list (string * gmap string string) :=
  [("E1", {["language" := "en-US"]}); ("E9", ∅)].

(** ** The master thread among the other threads *)

(** Where the master thread stands: about to take a request off the
    submission queue, waiting for the completion event of the batch it
    started, or gone (returned, dead of an exception, or stuck). *)
Inductive MasterThread :=
  | TakingRequest
  | AwaitingCompletion (request : BatchRequest)
  | Exited.

(** Where the loop body up to the wait leaves the master thread. *)
Definition after_begin (o : Outcome LoopStep) : MasterThread :=
  match o with
  | Returns (AwaitCompletion request) => AwaitingCompletion request
  | Returns Continue => TakingRequest
  | Returns Return | Raises _ | Waits | Blocks => Exited
  end.

(** The calls of the other threads. *)
Definition external (c : Call) : Prop :=
  match c with
  | MasterThreadLoopBegin _ _ _ | MasterThreadLoopEnd _ _ _ => False
  | _ => True
  end.

(** The stop sentinel [None] is on the submission queue only once a stop
    is requested. *)
Definition sentinel_inv (self : Orchestrator) : Prop :=
  None ∈ _submission_que self → _stop_requested self = true.

(** Unless a stop is requested, nothing is queued and nothing is in
    progress: what the master thread asserts when it starts a batch. *)
Definition quiescent (self : Orchestrator) : Prop :=
  _stop_requested self = false → _file_queue_size self = 0 ∧ _in_progress self = [].

Section Threads.

Variable ORCHESTRATOR_SCOPE_MAX_RETRIES : Z.
Variable writers : SummaryWriters.
Variable valid_endpoint_config : gmap string string -> bool.

(** The states of the orchestrator and of its master thread that a
    deployment runs through: clients submit requests, never the sentinel;
    the other threads call at any time; the master thread runs the loop
    body up to the wait when a request is there to take, and the rest of
    it once the completion event is set. *)
Inductive reaches (guard : Orchestrator → Call → Prop)
    : MasterThread → Orchestrator → Prop :=
  | reaches_init submission_queue singleton_run_summary_path config_notifier
      creator_pid :
      Forall is_Some submission_queue →
      reaches guard TakingRequest
        (Orchestrator_init submission_queue singleton_run_summary_path
           config_notifier creator_pid)
  | reaches_call master self c :
      reaches guard master self → external c → guard self c →
      reaches guard master
        (final (perform ORCHESTRATOR_SCOPE_MAX_RETRIES writers valid_endpoint_config
                  c self))
  | reaches_begin self is_deleted_on_arrival load_configuration is_deleted_on_start :
      reaches guard TakingRequest self →
      _submission_que self ≠ [] →
      guard self (MasterThreadLoopBegin is_deleted_on_arrival load_configuration
                    is_deleted_on_start) →
      reaches guard
        (after_begin
           (outcome (_master_thread_loop_begin writers valid_endpoint_config
                       is_deleted_on_arrival load_configuration is_deleted_on_start
                       self)))
        (final (_master_thread_loop_begin writers valid_endpoint_config
                  is_deleted_on_arrival load_configuration is_deleted_on_start self))
  | reaches_end request self is_deleted_on_wake is_deleted_at_end :
      reaches guard (AwaitingCompletion request) self →
      _batch_completion_evt self = true →
      reaches guard TakingRequest
        (final (_master_thread_loop_end writers request is_deleted_on_wake
                  is_deleted_at_end self)).

End Threads.

(** ** Work that is still pending *)

(** Unless a stop is requested, a filepath whose result is still the
    [None] placeholder is queued or in progress. *)
Definition pending_inv (self : Orchestrator) : Prop :=
  _stop_requested self = false →
  ∀ fp, _work_results self !! fp = Some None →
        fp ∈ filepath <$> _file_queue self ∨ fp ∈ dict_keys (_in_progress self).

(** Calls of a run in which no batch is canceled and every endpoint
    manager that is handed work can be matched against its language:
    batches have unique filepaths, [steal_work] does not raise,
    [cancel_running_batch] is not asked for the running batch, and no
    batch is found deleted when the master loop starts it. *)
Definition orderly (self : Orchestrator) (c : Call) : Prop :=
  unique_filepaths self c
  ∧ match c with
    | StealWork manager => ∀ e, outcome (steal_work manager self) ≠ Raises e
    | CancelRunningBatch batch_id => batch_id ≠ _on_batch_id self
    | MasterThreadLoopBegin _ _ is_deleted_on_start => is_deleted_on_start = false
    | _ => True
    end.

(** The batch of the example runs to its end: the manager reports the
    first file, takes the second and reports it too. *)
Definition example_completed : Orchestrator :=
  final (example_perform (NotifyWorkSuccess "b" example_manager example_result)
    (final (example_perform (StealWork example_manager)
      (final (example_perform (NotifyWorkSuccess "a" example_manager example_result)
         example_running))))).

(** ** A batch that is worked off *)

(** The object after the calls [calls], one after the other, however each
    of them ends. *)
Definition perform_all (MAX : Z) (writers : SummaryWriters)
    (valid : gmap string string -> bool) (calls : list Call) (self : Orchestrator)
    : Orchestrator :=
  foldl (fun s c => final (perform MAX writers valid c s)) self calls.

(** The calls of an endpoint manager that works off [works]: it steals
    and then reports a success with the result [report work], item after
    item. *)
Definition processing (manager : EndpointManager)
    (report : WorkItemRequest → WorkItemResult) (works : list WorkItemRequest)
    : list Call :=
  works ≫= (fun work =>
    [StealWork manager; NotifyWorkSuccess (filepath work) manager (report work)]).

(** ** The reports of the endpoint managers *)




(** * Properties *)

Local Open Scope list_scope.
Local Open Scope Z_scope.

(** ** Dictionaries *)

Lemma dict_get_Some_elem {V} (d : dict V) k v :
  dict_get k d = Some v → (k, v) ∈ d.
Proof.
  induction d as [|[k' v'] d IH]; simpl; [done|].
  case_decide; intros; simplify_eq; [left | right; auto].
Qed.

Lemma dict_get_None {V} (d : dict V) k :
  dict_get k d = None ↔ k ∉ dict_keys d.
Proof.
  unfold dict_keys. induction d as [|[k' v'] d IH]; simpl.
  - split; [intros _; apply not_elem_of_nil | done].
  - rewrite not_elem_of_cons. case_decide; subst; naive_solver.
Qed.

Lemma dict_get_is_Some {V} (d : dict V) k :
  is_Some (dict_get k d) ↔ k ∈ dict_keys d.
Proof.
  rewrite <- not_eq_None_Some, dict_get_None.
  destruct (decide (k ∈ dict_keys d)); naive_solver.
Qed.

Lemma dict_elem_get {V} (d : dict V) k v :
  dict_wf d → (k, v) ∈ d → dict_get k d = Some v.
Proof.
  unfold dict_wf, dict_keys. induction d as [|[k' v'] d IH]; simpl.
  - intros _ H. by apply elem_of_nil in H.
  - rewrite NoDup_cons, elem_of_cons. intros [Hk Hd] [Heq | Hin].
    + simplify_eq. by rewrite decide_True.
    + rewrite decide_False; [auto|]. intros ->. apply Hk.
      apply list_elem_of_fmap. by exists (k', v).
Qed.

Lemma dict_keys_set {V} (d : dict V) k v :
  dict_keys (dict_set k v d) ≡ₚ
    if decide (k ∈ dict_keys d) then dict_keys d else dict_keys d ++ [k].
Proof.
  unfold dict_keys. induction d as [|[k' v'] d IH]; simpl; [done|].
  destruct (decide (k = k')) as [->|Hne]; simpl.
  - rewrite decide_True; [done | left].
  - rewrite IH. destruct (decide (k ∈ d.*1)).
    + rewrite decide_True; [done | by right].
    + rewrite decide_False; [done|]. rewrite elem_of_cons. naive_solver.
Qed.

Lemma dict_get_set {V} (d : dict V) k k' v :
  dict_get k' (dict_set k v d) = if decide (k' = k) then Some v else dict_get k' d.
Proof.
  induction d as [|[k0 v0] d IH]; simpl.
  - repeat case_decide; naive_solver.
  - destruct (decide (k = k0)) as [->|]; simpl; repeat case_decide; naive_solver.
Qed.

Lemma dict_wf_set {V} (d : dict V) k v : dict_wf d → dict_wf (dict_set k v d).
Proof.
  unfold dict_wf. intros Hd. rewrite dict_keys_set. case_decide; [done|].
  apply NoDup_app. split_and!; [done | | apply NoDup_singleton].
  intros x Hx ->%list_elem_of_singleton. done.
Qed.

Lemma dict_keys_del {V} (d : dict V) k :
  dict_wf d → ∀ k', k' ∈ dict_keys (dict_del k d) ↔ k' ∈ dict_keys d ∧ k' ≠ k.
Proof.
  unfold dict_wf, dict_keys. induction d as [|[k0 v0] d IH]; simpl; intros Hd k'.
  - rewrite elem_of_nil. naive_solver.
  - apply NoDup_cons in Hd as [Hk0 Hd]. destruct (decide (k = k0)) as [->|Hne]; simpl.
    + rewrite elem_of_cons. split; [|naive_solver].
      intros Hin. split; [by right|]. by intros ->.
    + rewrite !elem_of_cons, IH by done. naive_solver.
Qed.

Lemma dict_del_sublist {V} (d : dict V) k : dict_del k d `sublist_of` d.
Proof.
  induction d as [|[k0 v0] d IH]; simpl; [done|].
  case_decide; [by apply sublist_cons | by apply sublist_skip].
Qed.

Lemma dict_wf_del {V} (d : dict V) k : dict_wf d → dict_wf (dict_del k d).
Proof.
  unfold dict_wf, dict_keys. intros Hd.
  eapply sublist_NoDup; [done | apply fmap_sublist, dict_del_sublist].
Qed.

Lemma dict_get_del {V} (d : dict V) k k' :
  dict_wf d →
  dict_get k' (dict_del k d) = if decide (k' = k) then None else dict_get k' d.
Proof.
  unfold dict_wf, dict_keys. induction d as [|[k0 v0] d IH]; simpl; intros Hd.
  - by case_decide.
  - apply NoDup_cons in Hd as [Hk0 Hd].
    destruct (decide (k = k0)) as [->|Hne]; simpl.
    + destruct (decide (k' = k0)) as [->|]; [|done].
      by apply dict_get_None.
    + rewrite IH by done. repeat case_decide; naive_solver.
Qed.


(** ** Tactics *)

(** Reading a field of an updated object and the result of a finished run. *)
Tactic Notation "fields" :=
  cbn [_submission_que _singleton_run_summary_path _on_batch_id
       _on_batch_type _file_queue _file_queue_size _in_progress
       _in_progress_owner _work_results _batch_completion_evt _summarizer
       _stop_requested _endpoint_managers _endpoint_generation _old_managers
       _config_notifier _run_summary_thread_gate _creator_pid
       __cnt_work_success_cb __cnt_work_failure_cb set_submission_que
       set_on_batch_id set_on_batch_type set_file_queue set_file_queue_size
       set_in_progress set_in_progress_owner set_work_results
       set_batch_completion_evt set_summarizer set_stop_requested
       set_endpoint_managers set_endpoint_generation set_old_managers
       set_config_notifier set_run_summary_thread_gate
       set__cnt_work_success_cb set__cnt_work_failure_cb outcome final
       emitted app fst snd].

Tactic Notation "fields" "in" hyp(H) :=
  cbn [_submission_que _singleton_run_summary_path _on_batch_id
       _on_batch_type _file_queue _file_queue_size _in_progress
       _in_progress_owner _work_results _batch_completion_evt _summarizer
       _stop_requested _endpoint_managers _endpoint_generation _old_managers
       _config_notifier _run_summary_thread_gate _creator_pid
       __cnt_work_success_cb __cnt_work_failure_cb set_submission_que
       set_on_batch_id set_on_batch_type set_file_queue set_file_queue_size
       set_in_progress set_in_progress_owner set_work_results
       set_batch_completion_evt set_summarizer set_stop_requested
       set_endpoint_managers set_endpoint_generation set_old_managers
       set_config_notifier set_run_summary_thread_gate
       set__cnt_work_success_cb set__cnt_work_failure_cb outcome final
       emitted app fst snd] in H.

(** Unfolding the plumbing of a method body. *)
Ltac unfold_run :=
  unfold batch_completion_evt_set, file_queue_put;
  unfold bind, get_self, assign, ret, raise, signal, wait, block, try_except;
  fields.

(** ** Running programs *)

Lemma bind_run {A B} (c : M A) (k : A → M B) self s1 e1 a s2 e2 o2 :
  c self = mkRun s1 e1 (Returns a) →
  k a s1 = mkRun s2 e2 o2 →
  bind c k self = mkRun s2 (e1 ++ e2) o2.
Proof. unfold bind. by intros -> ->. Qed.

Lemma bind_stops {A B} (c : M A) (k : A → M B) self s1 e1 :
  (∀ e, c self = mkRun s1 e1 (Raises e) → bind c k self = mkRun s1 e1 (Raises e))
  ∧ (c self = mkRun s1 e1 Waits → bind c k self = mkRun s1 e1 Waits)
  ∧ (c self = mkRun s1 e1 Blocks → bind c k self = mkRun s1 e1 Blocks).
Proof. unfold bind. split_and!; [intros e|..]; by intros ->. Qed.

Lemma merge_results_run filepath result self :
  _merge_results filepath result self
  = mkRun (set_work_results
             (<[filepath := Some (merged (_work_results self !! filepath) result)]>
                (_work_results self)) self)
      [] (Returns tt).
Proof.
  unfold _merge_results, bind, get_self, assign, merged.
  destruct (_work_results self !! filepath) as [[prev|]|]; reflexivity.
Qed.

Lemma stored_attempts_merge filepath result self :
  stored_attempts filepath (final (_merge_results filepath result self))
  = attempts result + stored_attempts filepath self.
Proof.
  rewrite merge_results_run. unfold stored_attempts, merged. fields.
  rewrite lookup_insert_eq.
  destruct (_work_results self !! filepath) as [[prev|]|]; cbn [attempts]; lia.
Qed.

Lemma merge_sequence_stored filepath first rest self :
  let r := merge_sequence filepath (first :: rest) self in
  outcome r = Returns tt
  ∧ _work_results (final r) !! filepath
    = Some (Some (mkWorkItemResult
                    (total_attempts (first :: rest) + stored_attempts filepath self)
                    (can_retry (most_recent first rest))
                    (result_payload (most_recent first rest)))).
Proof.
  revert first self. induction rest as [|next rest IH]; intros first self.
  - cbn [merge_sequence]. unfold bind, ret. rewrite merge_results_run. fields.
    split; [done|].
    rewrite lookup_insert_eq. unfold stored_attempts, merged, total_attempts, most_recent.
    cbn [foldr foldl].
    destruct (_work_results self !! filepath) as [[prev|]|]; cbn [attempts];
      do 2 f_equal; destruct first as [a c p]; cbn [attempts can_retry result_payload];
      f_equal; lia.
  - change (merge_sequence filepath (first :: next :: rest))
      with (_merge_results filepath first ;; merge_sequence filepath (next :: rest)).
    unfold bind at 1. rewrite merge_results_run.
    destruct (IH next (set_work_results
      (<[filepath:=Some (merged (_work_results self !! filepath) first)]>
         (_work_results self)) self)) as [Ho Hs].
    cbn zeta in Ho, Hs.
    destruct (merge_sequence filepath (next :: rest) _) as [s2 e2 o2].
    fields. fields in Ho. fields in Hs. split; [done|]. rewrite Hs.
    pose proof (stored_attempts_merge filepath first self) as Hm.
    rewrite merge_results_run in Hm. fields in Hm. rewrite Hm.
    change (most_recent first (next :: rest)) with (most_recent next rest).
    change (total_attempts (first :: next :: rest))
      with (attempts first + total_attempts (next :: rest)).
    do 3 f_equal. lia.
Qed.

(** C3. For every filepath and incoming result, the merge returns and
    changes only [_work_results]: it stores the incoming result as it is
    when nothing or the [None] placeholder was stored, and otherwise
    stores it with its attempts increased by the attempts stored before.
    Hence, starting from the placeholder of a batch start, the results
    reported one after the other leave the last result stored with the
    sum of all reported attempts. *)
Theorem merge_accumulates_attempts filepath result self :
  let prior := _work_results self !! filepath in
  let r := _merge_results filepath result self in
  outcome r = Returns tt
  ∧ final r
    = set_work_results
        (<[filepath :=
             Some match prior with
                  | Some (Some prev) =>
                      mkWorkItemResult (attempts result + attempts prev)
                        (can_retry result) (result_payload result)
                  | Some None | None => result
                  end]> (_work_results self)) self
  ∧ ∀ first rest,
      let placeholder :=
        set_work_results (<[filepath := None]> (_work_results self)) self in
      _work_results (final (merge_sequence filepath (first :: rest) placeholder)) !! filepath
      = Some (Some (mkWorkItemResult (total_attempts (first :: rest))
                      (can_retry (most_recent first rest))
                      (result_payload (most_recent first rest)))).
Proof.
  intros prior r. subst r. rewrite merge_results_run. fields.
  split; [done|]. split.
  - subst prior. unfold merged. by destruct (_work_results self !! filepath) as [[?|]|].
  - intros first rest.
    destruct (merge_sequence_stored filepath first rest
                (set_work_results (<[filepath := None]> (_work_results self)) self))
      as [_ ->].
    do 3 f_equal. unfold stored_attempts. fields.
    rewrite lookup_insert_eq. lia.
Qed.

(** ** Callbacks *)

Lemma notify_work_success_run filepath manager result self :
  notify_work_success filepath manager result self
  = let counted := set__cnt_work_success_cb (__cnt_work_success_cb self + 1) self in
    if dropped manager self then mkRun counted [] (Returns tt)
    else
      match dict_get filepath (_in_progress self), _in_progress_owner self !! filepath with
      | None, _ => mkRun counted [] (Raises (KeyError filepath))
      | Some _, None =>
          mkRun (set_in_progress (dict_del filepath (_in_progress self)) counted)
            [] (Raises (KeyError filepath))
      | Some _, Some _ =>
          mkRun (check_completion (success_recorded filepath result self))
            [] (Returns tt)
      end.
Proof.
  unfold notify_work_success, dropped, del_in_progress, del_in_progress_owner.
  unfold_run.
  destruct (bool_decide (name manager ∈ _old_managers self)); [reflexivity|].
  destruct (_stop_requested self); [reflexivity|]. cbn [orb]. fields.
  destruct (dict_get filepath (_in_progress self)); [|reflexivity]. fields.
  destruct (_in_progress_owner self !! filepath); [|reflexivity]. fields.
  rewrite merge_results_run. fields.
  unfold check_completion, success_recorded.
  by destruct (batch_finished _).
Qed.

Lemma notify_work_failure_run MAX filepath manager result self :
  notify_work_failure MAX filepath manager result self
  = let counted := set__cnt_work_failure_cb (__cnt_work_failure_cb self + 1) self in
    if dropped manager self then mkRun counted [] (Returns tt)
    else
      let merged := failure_merged filepath result self in
      let retry := retry_granted MAX filepath result self in
      let log := if retry then [log_debug "Placed work item back into queue since retriable."]
                 else [] in
      match dict_get filepath (_in_progress self), _in_progress_owner self !! filepath with
      | None, _ => mkRun merged log (Raises (KeyError filepath))
      | Some work, None =>
          mkRun (set_in_progress (dict_del filepath (_in_progress self))
                   (if retry then requeued work merged else merged))
            (if retry then log ++ [notify] else []) (Raises (KeyError filepath))
      | Some work, Some _ =>
          mkRun (check_completion
                   (no_longer_in_progress filepath
                      (if retry then requeued work merged else merged)))
            (if retry then log ++ [notify] else []) (Returns tt)
      end.
Proof.
  unfold notify_work_failure, dropped, del_in_progress, del_in_progress_owner.
  unfold_run.
  destruct (bool_decide (name manager ∈ _old_managers self)); [reflexivity|].
  destruct (_stop_requested self); [reflexivity|]. cbn [orb]. fields.
  rewrite merge_results_run. fields.
  unfold retry_granted, stored_attempts, failure_merged, check_completion,
    no_longer_in_progress, requeued. fields.
  rewrite lookup_insert_eq.
  destruct (dict_get filepath (_in_progress self)) as [work|] eqn:Hip;
    destruct (_in_progress_owner self !! filepath) as [owner|] eqn:Hown;
    destruct (can_retry result); cbn [andb]; try case_bool_decide;
    fields; rewrite ?Hip, ?Hown; fields; rewrite ?Hip, ?Hown; fields;
    try reflexivity; by destruct (batch_finished _).
Qed.

Lemma retired_dropped manager self : retired manager self → dropped manager self = true.
Proof. unfold retired, dropped. intros H. by rewrite bool_decide_eq_true_2. Qed.

(** C5. Whatever the filepath and the result, a success or failure
    callback from a manager whose name is in [_old_managers] returns
    without a signal and leaves the work queue, the queue size,
    [_in_progress], [_in_progress_owner], [_work_results] and
    [_batch_completion_evt] as they were. *)
Theorem retired_manager_callbacks_ignored MAX filepath manager result self :
  retired manager self →
  let ok := notify_work_success filepath manager result self in
  let ko := notify_work_failure MAX filepath manager result self in
  (outcome ok = Returns tt ∧ emitted ok = [] ∧ accounting (final ok) = accounting self)
  ∧ (outcome ko = Returns tt ∧ emitted ko = [] ∧ accounting (final ko) = accounting self).
Proof.
  intros Hr%retired_dropped ok ko. subst ok ko.
  rewrite notify_work_success_run, notify_work_failure_run. cbn zeta.
  rewrite Hr. unfold accounting. fields. done.
Qed.

(** ** Handing out work *)

Lemma set_file_queue_size_id self :
  set_file_queue_size (_file_queue_size self) self = self.
Proof. by destruct self. Qed.

(** The five ways through [steal_work]. *)
Lemma steal_work_run manager self :
  steal_work manager self
  = if dropped manager self then mkRun self [] (Returns Sentinel)
    else if bool_decide (_file_queue_size self > 0) then
      match _file_queue self with
      | [] => mkRun self [] Blocks
      | work :: rest =>
          let taken := handed_out manager work rest self in
          if truthy (language work) then
            match endpoint_config manager !! "language" with
            | None =>
                mkRun (set_file_queue_size (_file_queue_size self - 1)
                         (set_file_queue rest self))
                  [] (Raises (KeyError "language"))
            | Some l =>
                if bool_decide (lower l ≠ lower (default "" (language work))) then
                  mkRun (set_file_queue (rest ++ [work]) self) [notify] (Returns Sentinel)
                else mkRun taken [] (Returns (Work work))
            end
          else mkRun taken [] (Returns (Work work))
      end
    else mkRun self [] Waits.
Proof.
  unfold steal_work, dropped, retired, handed_out, bind, get_self. simpl.
  destruct (bool_decide (name manager ∈ _old_managers self) || _stop_requested self);
    [done|].
  case_bool_decide; [|done].
  unfold file_queue_get, bind, get_self. simpl.
  destruct (_file_queue self) as [|work rest]; [done|]. simpl.
  destruct (truthy (language work)); [|done].
  destruct (endpoint_config manager !! "language") as [l|]; [|done]. simpl.
  case_bool_decide; [|done]. simpl. f_equal.
  destruct self; unfold set_file_queue_size, set_file_queue; simpl. f_equal. lia.
Qed.

(** C6. [steal_work] never returns a work item that names a language
    differing, letter case aside, from [endpoint_config["language"]] of
    the calling manager. When the item at the head of the queue is such an
    item, the call moves it to the back of the queue, so that the queue
    holds the same items and its size, [_in_progress] and
    [_in_progress_owner] are as before, sends one [notify] and returns the
    sentinel. *)
Theorem steal_work_language_routing manager self :
  let r := steal_work manager self in
  (∀ work, outcome r = Returns (Work work) →
     ¬ (language_set work ∧ language_differs manager work))
  ∧ (∀ work rest,
       dropped manager self = false →
       _file_queue_size self > 0 →
       _file_queue self = work :: rest →
       language_set work → language_differs manager work →
       outcome r = Returns Sentinel
       ∧ emitted r = [notify]
       ∧ final r = set_file_queue (rest ++ [work]) self
       ∧ _file_queue (final r) ≡ₚ _file_queue self
       ∧ _file_queue_size (final r) = _file_queue_size self
       ∧ _in_progress (final r) = _in_progress self
       ∧ _in_progress_owner (final r) = _in_progress_owner self).
Proof.
  intros r. subst r. rewrite steal_work_run. split.
  - intros work Hret [Hset (l & Hl & Hne)]. unfold language_set in Hset.
    destruct (dropped manager self); [done|].
    case_bool_decide; [|done].
    destruct (_file_queue self) as [|work' rest]; [done|]. cbn zeta in Hret.
    destruct (truthy (language work')) eqn:Ht.
    + destruct (endpoint_config manager !! "language") as [l'|] eqn:Hl'; [|done].
      case_bool_decide as Hd; [done|]. simpl in Hret. simplify_eq.
    + simpl in Hret. simplify_eq. congruence.
  - intros work rest -> Hsize Hq Hset (l & Hl & Hne). unfold language_set in Hset.
    rewrite bool_decide_eq_true_2 by done. rewrite Hq. cbn zeta.
    rewrite Hset, Hl, bool_decide_eq_true_2 by done. simpl.
    split_and!; try done. by rewrite Permutation_app_comm.
Qed.

(** C10. [steal_work] raises [KeyError] for the key ["language"] exactly
    when it takes from the queue an item that names a language while the
    configuration of the calling manager has no ["language"] entry; it
    raises nothing else. The item is then off the queue and not in
    progress. Such an input exists. *)
Theorem steal_work_missing_language_key manager self :
  let r := steal_work manager self in
  (outcome r = Raises (KeyError "language")
   ↔ dropped manager self = false
     ∧ _file_queue_size self > 0
     ∧ ∃ work rest, _file_queue self = work :: rest
         ∧ language_set work
         ∧ endpoint_config manager !! "language" = None)
  ∧ (∀ e, outcome r = Raises e →
       e = KeyError "language"
       ∧ _file_queue (final r) = tail (_file_queue self)
       ∧ _in_progress (final r) = _in_progress self)
  ∧ (∃ manager' self', outcome (steal_work manager' self') = Raises (KeyError "language")).
Proof.
  intros r. subst r. rewrite steal_work_run. split_and!.
  - unfold language_set. destruct (dropped manager self).
    { split; [done | by intros [? _]]. }
    case_bool_decide as Hsize; [|split; [done | by intros (_ & ? & _)]].
    destruct (_file_queue self) as [|work rest].
    { split; [done | by intros (_ & _ & ? & ? & ? & _)]. }
    cbn zeta.
    assert (∀ P : Prop, (∃ work0 rest0, work :: rest = work0 :: rest0
                ∧ truthy (language work0) = true ∧ P)
              ↔ truthy (language work) = true ∧ P) as Hhead.
    { intros P. split; [intros (? & ? & [= <- <-] & ? & ?); done|].
      intros [? ?]. by exists work, rest. }
    rewrite Hhead. clear Hhead.
    destruct (truthy (language work)) eqn:Ht; [|split; [done | by intros (_ & _ & ? & _)]].
    destruct (endpoint_config manager !! "language") as [l|] eqn:Hl.
    + case_bool_decide; (split; [done | by intros (_ & _ & _ & ?)]).
    + done.
  - intros e. destruct (dropped manager self); [done|].
    case_bool_decide; [|done].
    destruct (_file_queue self) as [|work rest]; [done|]. cbn zeta.
    destruct (truthy (language work)) eqn:Ht; [|done].
    destruct (endpoint_config manager !! "language") as [l|] eqn:Hl.
    + by case_bool_decide.
    + simpl. by intros [= <-].
  - exists (mkEndpointManager "HotswapGen0_E1" "E1" ∅ "P" "C" false false).
    exists (set_file_queue_size 1
              (set_file_queue [mkWorkItemRequest "a" (Some "en") ""]
                 (Orchestrator_init [] None None 1))).
    reflexivity.
Qed.


(** Two objects with the same fields are the same object. *)
Lemma Orchestrator_eq (a b : Orchestrator) :
  _submission_que a = _submission_que b →
  _singleton_run_summary_path a = _singleton_run_summary_path b →
  _on_batch_id a = _on_batch_id b →
  _on_batch_type a = _on_batch_type b →
  _file_queue a = _file_queue b →
  _file_queue_size a = _file_queue_size b →
  _in_progress a = _in_progress b →
  _in_progress_owner a = _in_progress_owner b →
  _work_results a = _work_results b →
  _batch_completion_evt a = _batch_completion_evt b →
  _summarizer a = _summarizer b →
  _stop_requested a = _stop_requested b →
  _endpoint_managers a = _endpoint_managers b →
  _endpoint_generation a = _endpoint_generation b →
  _old_managers a = _old_managers b →
  _config_notifier a = _config_notifier b →
  _run_summary_thread_gate a = _run_summary_thread_gate b →
  _creator_pid a = _creator_pid b →
  __cnt_work_success_cb a = __cnt_work_success_cb b →
  __cnt_work_failure_cb a = __cnt_work_failure_cb b →
  a = b.
Proof. destruct a, b; cbn; intros; by simplify_eq. Qed.

(** Equality of two updated objects, field by field. *)
Ltac same_fields :=
  apply Orchestrator_eq; fields; try reflexivity.

(** ** Cancellation and stop *)

(** The drain loop, run for as many turns as the size counter says, takes
    that many items off the queue; it blocks when the queue holds fewer. *)
Lemma drain_file_queue_run n self :
  n = Z.to_nat (_file_queue_size self) →
  drain_file_queue n self
  = if decide (n ≤ length (_file_queue self))%nat then
      mkRun (set_file_queue_size (_file_queue_size self - Z.of_nat n)
               (set_file_queue (drop n (_file_queue self)) self))
        [] (Returns tt)
    else
      mkRun (set_file_queue_size
               (_file_queue_size self - Z.of_nat (length (_file_queue self)))
               (set_file_queue [] self))
        [] Blocks.
Proof.
  revert self. induction n as [|n IH]; intros self Hn.
  - cbn [drain_file_queue]. rewrite decide_True by lia. unfold ret.
    f_equal. same_fields. lia.
  - cbn [drain_file_queue]. unfold file_queue_get. unfold_run.
    rewrite decide_True by lia.
    destruct (_file_queue self) as [|work rest] eqn:Hq; fields.
    + rewrite decide_False by (cbn; lia). f_equal.
      same_fields; rewrite ?Hq; cbn [length]; [done | lia].
    + rewrite IH by (fields; lia). fields. cbn [length drop].
      destruct (decide (n ≤ length rest)%nat).
      * rewrite decide_True by lia. f_equal. same_fields. lia.
      * rewrite decide_False by lia. f_equal. same_fields. lia.
Qed.

Lemma drain_file_queue_exact self :
  _file_queue_size self = Z.of_nat (length (_file_queue self)) →
  drain_file_queue (Z.to_nat (_file_queue_size self)) self
  = mkRun (set_file_queue_size 0 (set_file_queue [] self)) [] (Returns tt).
Proof.
  intros Hsize. rewrite drain_file_queue_run by done.
  rewrite decide_True by lia. rewrite Hsize, Nat2Z.id, drop_all.
  f_equal. same_fields. lia.
Qed.

Lemma cancel_running_batch_run batch_id self :
  _file_queue_size self = Z.of_nat (length (_file_queue self)) →
  cancel_running_batch batch_id self
  = if bool_decide (_on_batch_id self ≠ batch_id) then mkRun self [] (Returns false)
    else
      mkRun
        (set_batch_completion_evt true
           (set_old_managers
              (_old_managers self ∪ list_to_set (name <$> _endpoint_managers self))
              (set_endpoint_managers (em_request_stop <$> _endpoint_managers self)
                 (set_in_progress_owner ∅
                    (set_in_progress []
                       (set_file_queue_size 0 (set_file_queue [] self)))))))
        [notify_all] (Returns true).
Proof.
  intros Hsize. unfold cancel_running_batch, stop_and_retire_all.
  unfold bind at 1. unfold get_self at 1.
  case_bool_decide; [reflexivity|].
  unfold bind at 1. rewrite drain_file_queue_exact by done.
  unfold_run. reflexivity.
Qed.

(** C7. [cancel_running_batch] returns [False] and changes nothing when
    [_on_batch_id] differs from its argument. Otherwise, in a state whose
    size counter is the length of the queue, it returns [True] and leaves
    the queue empty with size 0, [_in_progress] and [_in_progress_owner]
    empty, every endpoint manager asked to stop with its name in
    [_old_managers], and [_batch_completion_evt] set. *)
Theorem cancel_running_batch_spec batch_id self :
  let r := cancel_running_batch batch_id self in
  (_on_batch_id self ≠ batch_id → r = mkRun self [] (Returns false))
  ∧ (_on_batch_id self = batch_id →
     _file_queue_size self = Z.of_nat (length (_file_queue self)) →
     outcome r = Returns true
     ∧ _file_queue (final r) = []
     ∧ _file_queue_size (final r) = 0
     ∧ _in_progress (final r) = []
     ∧ _in_progress_owner (final r) = ∅
     ∧ _endpoint_managers (final r) = em_request_stop <$> _endpoint_managers self
     ∧ Forall (fun m => name m ∈ _old_managers (final r) ∧ em_stop_requested m = true)
         (_endpoint_managers (final r))
     ∧ _old_managers self ⊆ _old_managers (final r)
     ∧ _batch_completion_evt (final r) = true).
Proof.
  intros r. subst r. split.
  - intros Hne. unfold cancel_running_batch, bind, get_self.
    by rewrite bool_decide_eq_true_2.
  - intros Heq Hsize. rewrite cancel_running_batch_run by done.
    rewrite bool_decide_eq_false_2 by (intros ?; done). fields.
    split_and!; try done; [|set_solver].
    apply Forall_fmap, Forall_forall. intros m Hm. split; [|done].
    cbn. apply elem_of_union_r, elem_of_list_to_set, list_elem_of_fmap.
    by exists m.
Qed.

Lemma request_stop_run pid self :
  request_stop pid self
  = if bool_decide (pid ≠ _creator_pid self) then mkRun self [] (Returns tt)
    else
      match config_notifier_stop_escapes self with
      | Some errno => mkRun self [] (Raises (OSError errno))
      | None =>
          if decide (Z.to_nat (_file_queue_size self) ≤ length (_file_queue self))%nat
          then mkRun (stopped self) [notify_all] (Returns tt)
          else
            mkRun (set_file_queue_size
                     (_file_queue_size self - Z.of_nat (length (_file_queue self)))
                     (set_file_queue []
                        (set_stop_requested true
                           (set_config_notifier (config_notifier_after_stop self) self))))
              [] Blocks
      end.
Proof.
  unfold request_stop. unfold bind at 1. unfold get_self at 1.
  case_bool_decide; [reflexivity|].
  unfold bind at 1.
  assert (try_except config_notifier_stop
            (fun e => match e with
                      | OSError errno =>
                          if bool_decide (errno ≠ EBADF) then raise e else ret tt
                      | _ => raise e
                      end) self
          = match config_notifier_stop_escapes self with
            | Some errno => mkRun self [] (Raises (OSError errno))
            | None =>
                mkRun (set_config_notifier (config_notifier_after_stop self) self)
                  [] (Returns tt)
            end) as ->.
  { unfold config_notifier_stop, config_notifier_stop_escapes,
      config_notifier_after_stop. unfold_run.
    destruct (_config_notifier self) as [[[errno|]]|] eqn:Hn; fields;
      cbn [stop_errno]; try case_bool_decide; fields; f_equal;
      same_fields; by rewrite Hn. }
  destruct (config_notifier_stop_escapes self) as [errno|]; [reflexivity|].
  unfold bind at 1. unfold assign at 1.
  unfold bind at 1. unfold get_self at 1.
  unfold bind at 1. rewrite drain_file_queue_run by reflexivity. fields.
  case_decide; [|reflexivity].
  unfold_run. reflexivity.
Qed.

Lemma em_request_stop_idemp (ems : list EndpointManager) :
  em_request_stop <$> (em_request_stop <$> ems) = em_request_stop <$> ems.
Proof. rewrite <- list_fmap_compose. by apply list_fmap_ext. Qed.

(** C8, as the code has it. Called from another process than the creator,
    [request_stop] does nothing at all. Called again from the creator
    process after a call that returned, it returns, broadcasts on the
    queue condition once more and leaves every field as the first call
    left it, except that one more stop sentinel is appended to the
    submission queue. *)
Theorem request_stop_repeated pid self :
  let first := request_stop pid self in
  (pid ≠ _creator_pid self → first = mkRun self [] (Returns tt))
  ∧ (pid = _creator_pid self →
     outcome first = Returns tt →
     request_stop pid (final first)
     = mkRun (set_submission_que (_submission_que (final first) ++ [None]) (final first))
         [notify_all] (Returns tt)).
Proof.
  intros first. subst first. split.
  - intros Hpid. rewrite request_stop_run. by rewrite bool_decide_eq_true_2.
  - intros Hpid. rewrite request_stop_run.
    rewrite bool_decide_eq_false_2 by (intros ?; done).
    destruct (config_notifier_stop_escapes self) as [errno|] eqn:Hesc; [done|].
    case_decide as Hlen; [|done]. intros _. fields.
    rewrite request_stop_run. unfold stopped at 1 2. fields.
    rewrite bool_decide_eq_false_2 by (intros ?; done).
    assert (config_notifier_stop_escapes (stopped self) = None) as ->.
    { unfold stopped. unfold config_notifier_stop_escapes in *. fields.
      unfold config_notifier_after_stop.
      by destruct (_config_notifier self) as [[[errno|]]|]. }
    assert (Z.to_nat (_file_queue_size self
                      - Z.of_nat (Z.to_nat (_file_queue_size self))) = 0%nat) as Hz by lia.
    unfold stopped at 1 2. fields.
    case_decide; [|lia]. f_equal.
    unfold stopped. same_fields.
    + rewrite Hz. apply drop_0.
    + lia.
    + apply em_request_stop_idemp.
    + unfold config_notifier_after_stop. fields.
      by destruct (_config_notifier self) as [[[errno|]]|].
Qed.

(** ** Run summaries *)

Lemma write_summary_information_run writers write_run_summary write_retries
    log_conclusion_msg allow_fail self :
  write_summary_information writers write_run_summary write_retries
    log_conclusion_msg allow_fail self
  = if write_run_summary then
      let debug :=
        if truthy (_singleton_run_summary_path self)
        then [log_debug "Updating singleton run_summary"] else [] in
      match summary_write_failure writers write_retries log_conclusion_msg self with
      | None => mkRun self debug (Returns tt)
      | Some e =>
          mkRun self (debug ++ [log_warning "Failed to write run_summary"])
            (if allow_fail then Returns tt else Raises e)
      end
    else mkRun self [] (Returns tt).
Proof.
  unfold write_summary_information, summary_write_failure, summary_json, call.
  unfold bind at 1. unfold get_self at 1.
  destruct write_run_summary; [|reflexivity]. cbn zeta.
  destruct (truthy (_singleton_run_summary_path self)).
  - destruct (write_json_file_atomic _ _ _ _) as [e|]; unfold_run;
      [by destruct allow_fail | reflexivity].
  - destruct (set_run_summary _ _ _) as [e|]; unfold_run; [|reflexivity].
    destruct e; unfold_run; try reflexivity; by destruct allow_fail.
Qed.

Lemma _master_thread_loop_end_run writers request is_deleted_on_wake
    is_deleted_at_end self :
  _master_thread_loop_end writers request is_deleted_on_wake is_deleted_at_end self
  = mkRun (set_run_summary_thread_gate false self)
      ([log_info (if is_deleted_on_wake then "Orchestrator: Canceled processing batch"
                  else "Orchestrator: Completed batch")]
       ++ emitted (write_summary_information writers true 10
                     (final_summary_logs_conclusion self) true self)
       ++ (if negb is_deleted_on_wake && combine_results request then
             [log_info "Orchestrator: Concatenating batch results to single file";
              write_single_output_json (batch_id request)]
           else [])
       ++ (if is_deleted_at_end then [delete_batch (batch_id request)]
           else [change_status_enum (batch_id request) done;
                 log_info "Orchestrator: Updated batch status to Done"]))
      (Returns tt).
Proof.
  unfold _master_thread_loop_end, final_summary_logs_conclusion.
  unfold bind at 1. unfold signal at 1.
  unfold bind at 1. unfold get_self at 1.
  unfold bind at 1.
  assert ((if bool_decide (_singleton_run_summary_path self = None)
           then write_summary_information writers true 10 true true
           else write_summary_information writers true 10 false true) self
          = write_summary_information writers true 10
              (bool_decide (_singleton_run_summary_path self = None)) true self) as ->.
  { by case_bool_decide. }
  rewrite write_summary_information_run. cbn zeta.
  destruct (summary_write_failure _ _ _ _) as [e|];
    destruct (negb is_deleted_on_wake && combine_results request);
    destruct is_deleted_at_end; unfold_run; rewrite ?app_nil_r, <- ?app_assoc;
    reflexivity.
Qed.



(** ** Hot swap *)

(** The diff neither reads nor changes the object. *)
Lemma diff_configuration_run valid gen checker processor config deleted new self :
  ∃ o, (∀ self', diff_configuration valid gen checker processor config deleted new self'
                 = mkRun self' [] o)
       ∧ o = outcome (diff_configuration valid gen checker processor config deleted new self)
       ∧ (o = Raises (OtherException "EndpointManager") ∨ ∃ d, o = Returns d).
Proof.
  revert deleted new. induction config as [|[ep_name ep_config] config IH];
    intros deleted new.
  - exists (Returns (deleted, new)). split_and!; [done | done | right; eauto].
  - cbn [diff_configuration].
    destruct (match deleted !! ep_name with Some _ => _ | None => _ end).
    + apply IH.
    + unfold new_EndpointManager. destruct (valid ep_config).
      * destruct (IH deleted (new ++ [mkEndpointManager
                    ("HotswapGen" +:+ pretty gen +:+ "_" +:+ ep_name) ep_name ep_config
                    processor checker false false])%list) as (o & Hrun & Ho & Hcases).
        exists o. split_and!; [|by rewrite Ho; unfold bind, ret; rewrite Hrun|done].
        intros self'. unfold bind, ret. by rewrite Hrun.
      * exists (Raises (OtherException "EndpointManager")).
        split_and!; [done | done | by left].
Qed.

Lemma dict_del_app {V} (pre l : dict V) k v :
  k ∉ dict_keys pre → dict_del k (pre ++ (k, v) :: l) = pre ++ l.
Proof.
  unfold dict_keys. induction pre as [|[k' v'] pre IH]; cbn; intros Hk.
  - by rewrite decide_True.
  - apply not_elem_of_cons in Hk as [Hne Hk].
    rewrite decide_False by done. by rewrite IH.
Qed.

Lemma NoDup_app_cons_inv {A} (pre l : list A) x :
  NoDup (pre ++ x :: l) → NoDup (pre ++ l) ∧ x ∉ pre.
Proof.
  rewrite !NoDup_app, NoDup_cons. intros (Hpre & Hdisj & Hx & Hl). split_and!; try done.
  - intros y Hy Hin. apply (Hdisj y Hy). by right.
  - intros Hin. apply (Hdisj x Hin). left.
Qed.

Lemma dict_del_filter {V} (P : string → Prop) `{!∀ k, Decision (P k)} (pre l : dict V) :
  dict_wf (pre ++ l) →
  foldl (fun d kv => dict_del kv.1 d) (pre ++ l) (filter (fun kv => P kv.1) l)
  = pre ++ filter (fun kv => ¬ P kv.1) l.
Proof.
  unfold dict_wf, dict_keys. revert pre.
  induction l as [|[k v] l IH]; intros pre Hwf; [done|].
  rewrite !filter_cons. cbn [fst]. destruct (decide (P k)) as [HP|HP].
  - rewrite decide_False by naive_solver. cbn [foldl fst].
    rewrite fmap_app, fmap_cons in Hwf. apply NoDup_app_cons_inv in Hwf as [Hwf Hk].
    rewrite dict_del_app by done. apply IH. by rewrite fmap_app.
  - rewrite decide_True by done.
    rewrite (cons_middle (k, v) pre l), app_assoc. rewrite IH.
    + by rewrite <- app_assoc.
    + by rewrite <- app_assoc.
Qed.

(** The loop that frees the work of deleted managers, when every
    binding it visits has an owner. *)
Lemma unassign_deleted_run deleted items wip wipo self :
  (∀ kv, kv ∈ items → is_Some (_in_progress_owner self !! kv.1)) →
  let moved := filter (fun kv => owner_deleted deleted self kv.1 = true) items in
  unassign_deleted deleted items wip wipo self
  = mkRun (set_file_queue_size (_file_queue_size self + Z.of_nat (length moved))
             (set_file_queue (_file_queue self ++ moved.*2) self))
      []
      (Returns (foldl (fun d kv => dict_del kv.1 d) wip moved,
                foldl (fun d kv => delete kv.1 d) wipo moved)).
Proof.
  unfold owner_deleted. revert wip wipo self.
  induction items as [|[filepath work_item] items IH]; intros wip wipo self Hown.
  - cbn. unfold ret. f_equal. same_fields; [by rewrite app_nil_r | lia].
  - cbn [unassign_deleted]. unfold bind at 1. unfold get_self at 1.
    destruct (Hown (filepath, work_item)) as [owner Howner]; [left|].
    cbn [fst] in Howner. rewrite Howner. rewrite filter_cons. cbn [fst].
    rewrite Howner.
    case_bool_decide as Hdel.
    + rewrite decide_True by done. unfold_run.
      rewrite IH by (intros kv Hkv; fields; apply Hown; by right).
      fields. cbn [foldl length fmap list_fmap snd fst]. f_equal.
      same_fields; [by rewrite <- app_assoc | lia].
    + rewrite decide_False by done.
      rewrite IH by (intros kv Hkv; apply Hown; by right). reflexivity.
Qed.

Lemma hotswap_endpoint_managers_run valid load_configuration self :
  dict_wf (_in_progress self) →
  (∀ kv, kv ∈ _in_progress self → is_Some (_in_progress_owner self !! kv.1)) →
  hotswap_endpoint_managers valid load_configuration self
  = match load_configuration with
    | None => mkRun self [log_error "Invalid endpoint configuration file"] (Returns tt)
    | Some config_data =>
        if _stop_requested self then mkRun self [] (Returns tt)
        else
          match outcome (hotswap_diff valid config_data self) with
          | Returns (deleted_managers, new_em_objs) =>
              mkRun (swapped deleted_managers new_em_objs self)
                [notify_all; log_info "Set new EndpointManagers after hot-swap"]
                (Returns tt)
          | _ =>
              mkRun (set_endpoint_generation (_endpoint_generation self + 1) self)
                [log_error "Caught Exception reading config"] (Returns tt)
          end
    end.
Proof.
  intros Hwf Hown. unfold hotswap_endpoint_managers.
  destruct load_configuration as [config_data|]; [|reflexivity].
  unfold bind at 1. unfold get_self at 1.
  destruct (_stop_requested self) eqn:Hstop; [reflexivity|].
  unfold bind at 1. unfold assign at 1.
  unfold hotswap_diff, ep_status_checker_for, work_item_processor_for.
  destruct (diff_configuration_run valid (_endpoint_generation self)
              match _on_batch_type self with
              | Some t => get_endpoint_status_checker t
              | None => UnknownEndpointStatusChecker
              end
              match _on_batch_type self with
              | Some t => get_work_item_processor t
              | None => StubWorkItemProcessor
              end
              config_data (managers_by_endpoint_name (_endpoint_managers self)) [] self)
    as (o & Hrun & <- & Hcases).
  unfold bind at 1. unfold try_except at 1. unfold bind at 1.
  rewrite Hrun.
  destruct Hcases as [-> | [[deleted_managers new_em_objs] ->]].
  { unfold_run. reflexivity. }
  unfold ret at 1. fields.
  unfold bind at 1. unfold get_self at 1. fields. rewrite Hstop.
  unfold stop_deleted.
  unfold bind at 1. unfold assign at 1.
  unfold bind at 1. unfold get_self at 1.
  unfold bind at 1. fields.
  rewrite unassign_deleted_run by (intros kv Hkv; fields; by apply Hown).
  unfold_run. f_equal. unfold swapped, unassigned, kept_in_progress, owner_deleted,
    ep_status_checker_for. fields.
  same_fields.
  pose proof (dict_del_filter
    (fun k => match _in_progress_owner self !! k with
              | Some owner => bool_decide (is_Some (deleted_managers !! endpoint_name owner))
              | None => false
              end = true) [] (_in_progress self) Hwf) as Hfilter.
  cbn [app] in Hfilter. rewrite Hfilter.
  apply list_filter_iff. intros kv. apply not_true_iff_false.
Qed.

Lemma elem_of_filter_keys {V} (P : string * V → Prop) `{!∀ kv, Decision (P kv)}
    (Q : string → Prop) (l : dict V) k :
  (∀ kv, P kv ↔ Q kv.1) →
  k ∈ (filter P l).*1 ↔ k ∈ l.*1 ∧ Q k.
Proof.
  intros HPQ. rewrite !list_elem_of_fmap. split.
  - intros (kv & -> & [HQ Hin]%list_elem_of_filter).
    split; [by exists kv | by apply HPQ].
  - intros [(kv & -> & Hin) HQ]. exists kv. split; [done|].
    apply list_elem_of_filter. split; [by apply HPQ | done].
Qed.

Lemma lookup_foldl_delete {V W} (m : gmap string W) (l : dict V) k :
  foldl (fun d kv => delete kv.1 d) m l !! k
  = if decide (k ∈ l.*1) then None else m !! k.
Proof.
  revert m. induction l as [|[k' v] l IH]; intros m; cbn [foldl fmap list_fmap fst].
  - rewrite decide_False; [done | apply not_elem_of_nil].
  - rewrite IH. destruct (decide (k ∈ l.*1)) as [Hin|Hnin].
    + rewrite decide_True; [done | by right].
    + destruct (decide (k = k')) as [->|Hne].
      * rewrite decide_True by left. apply lookup_delete_eq.
      * rewrite decide_False by (rewrite elem_of_cons; naive_solver).
        by apply lookup_delete_ne.
Qed.

Lemma filepaths_of_values (l : dict WorkItemRequest) :
  Forall (fun kv => filepath kv.2 = kv.1) l → filepath <$> l.*2 = l.*1.
Proof.
  induction 1 as [|[k w] l Hkw _ IH]; [done|]. cbn in *. by rewrite Hkw, IH.
Qed.

Lemma accounting_wf_owner self filepath :
  accounting_wf self →
  is_Some (_in_progress_owner self !! filepath) ↔ filepath ∈ dict_keys (_in_progress self).
Proof.
  intros (_ & _ & Hdom & _). by rewrite <- elem_of_dom, Hdom, elem_of_list_to_set.
Qed.

Lemma accounting_wf_owners self :
  accounting_wf self →
  ∀ kv, kv ∈ _in_progress self → is_Some (_in_progress_owner self !! kv.1).
Proof.
  intros Hwf kv Hkv. apply accounting_wf_owner; [done|].
  apply list_elem_of_fmap. by exists kv.
Qed.

Lemma elem_of_unassigned_keys deleted self k :
  k ∈ (unassigned deleted self).*1
  ↔ k ∈ dict_keys (_in_progress self) ∧ owner_deleted deleted self k = true.
Proof.
  unfold unassigned, dict_keys.
  by apply (elem_of_filter_keys _ (fun k => owner_deleted deleted self k = true)).
Qed.

Lemma elem_of_kept_keys deleted self k :
  k ∈ (kept_in_progress deleted self).*1
  ↔ k ∈ dict_keys (_in_progress self) ∧ owner_deleted deleted self k = false.
Proof.
  unfold kept_in_progress, dict_keys.
  by apply (elem_of_filter_keys _ (fun k => owner_deleted deleted self k = false)).
Qed.

(** A hot swap keeps the invariants of the data model. *)
Lemma swapped_wf deleted new self :
  accounting_wf self → accounting_wf (swapped deleted new self).
Proof.
  intros Hwf. pose proof Hwf as (Hsize & Hkeys & Hdom & Hpaths & Hqueue & Hdisj).
  unfold accounting_wf, swapped. fields.
  rewrite Forall_forall in Hdisj. rewrite Forall_forall in Hpaths.
  assert (Forall (fun kv => filepath kv.2 = kv.1) (unassigned deleted self)) as Hmoved.
  { apply Forall_forall. intros kv [_ Hkv]%list_elem_of_filter. by apply Hpaths. }
  split_and!.
  - rewrite length_app, length_fmap. lia.
  - eapply sublist_NoDup; [exact Hkeys|]. apply fmap_sublist, sublist_filter.
  - apply set_eq. intros k.
    rewrite elem_of_dom, lookup_foldl_delete, elem_of_list_to_set.
    unfold dict_keys at 1. rewrite elem_of_kept_keys.
    case_decide as Hm; rewrite elem_of_unassigned_keys in Hm.
    + split; [by intros [? ?] | intros [_ ?]; destruct Hm; congruence].
    + rewrite <- elem_of_dom, Hdom, elem_of_list_to_set.
      destruct (owner_deleted deleted self k); naive_solver.
  - apply Forall_forall. intros kv [_ Hkv]%list_elem_of_filter. by apply Hpaths.
  - rewrite fmap_app, filepaths_of_values by done.
    apply NoDup_app. split_and!; [done | |].
    + intros k (w & -> & Hw)%list_elem_of_fmap [Hin _]%elem_of_unassigned_keys.
      by apply (Hdisj w Hw).
    + eapply sublist_NoDup; [exact Hkeys|]. apply fmap_sublist, sublist_filter.
  - apply Forall_app. split; apply Forall_forall.
    + intros w Hw [Hin _]%elem_of_kept_keys. by apply (Hdisj w Hw).
    + intros w (kv & -> & [Hdel Hkv]%list_elem_of_filter)%list_elem_of_fmap
        [_ Hkept]%elem_of_kept_keys.
      rewrite (Hpaths kv Hkv) in Hkept. congruence.
Qed.

(** C1. In a state that meets the invariants of the data model, a hot
    swap whose configuration loads and whose diff yields
    [deleted_managers] returns, and every work item that was in
    [_in_progress] is afterwards either still there under the same owner,
    whose endpoint is not in [deleted_managers], and not in the queue, or
    in the queue and in neither dictionary. What was queued stays queued,
    the invariants hold again, and so no queued item is in [_in_progress]. *)
Theorem hotswap_preserves_membership valid config_data self deleted_managers new_em_objs :
  accounting_wf self →
  _stop_requested self = false →
  outcome (hotswap_diff valid config_data self) = Returns (deleted_managers, new_em_objs) →
  let r := hotswap_endpoint_managers valid (Some config_data) self in
  outcome r = Returns tt
  ∧ (∀ filepath work,
       dict_get filepath (_in_progress self) = Some work →
       (dict_get filepath (_in_progress (final r)) = Some work
        ∧ (∃ owner, _in_progress_owner (final r) !! filepath = Some owner
                    ∧ _in_progress_owner self !! filepath = Some owner
                    ∧ deleted_managers !! endpoint_name owner = None)
        ∧ work ∉ _file_queue (final r))
       ∨ (work ∈ _file_queue (final r)
          ∧ dict_get filepath (_in_progress (final r)) = None
          ∧ _in_progress_owner (final r) !! filepath = None))
  ∧ (∀ work, work ∈ _file_queue self → work ∈ _file_queue (final r))
  ∧ accounting_wf (final r)
  ∧ (∀ work, work ∈ _file_queue (final r) →
       dict_get (filepath work) (_in_progress (final r)) = None).
Proof.
  intros Hwf Hstop Hdiff r. subst r.
  pose proof (swapped_wf deleted_managers new_em_objs self Hwf) as Hwf'.
  pose proof Hwf as (Hsize & Hkeys & Hdom & Hpaths & Hqueue & Hdisj).
  rewrite Forall_forall in Hdisj. rewrite Forall_forall in Hpaths.
  rewrite hotswap_endpoint_managers_run by (done || by apply accounting_wf_owners).
  rewrite Hstop, Hdiff. fields. split_and!; [done | | | done |].
  - intros fp work Hget. pose proof (dict_get_Some_elem _ _ _ Hget) as Hin.
    pose proof (Hpaths _ Hin) as Hpath. cbn [fst snd] in Hpath.
    assert (fp ∈ dict_keys (_in_progress self)) as Hfp.
    { apply list_elem_of_fmap. by exists (fp, work). }
    unfold swapped. fields. rewrite lookup_foldl_delete.
    destruct (owner_deleted deleted_managers self fp) eqn:Hdel.
    + right. split_and!.
      * apply elem_of_app. right. apply list_elem_of_fmap. exists (fp, work).
        split; [done|]. by apply list_elem_of_filter.
      * apply dict_get_None. unfold dict_keys. rewrite elem_of_kept_keys.
        intros [_ ?]. congruence.
      * rewrite decide_True; [done|]. by apply elem_of_unassigned_keys.
    + left. split_and!.
      * apply dict_elem_get; [|by apply list_elem_of_filter].
        eapply sublist_NoDup; [exact Hkeys|]. apply fmap_sublist, sublist_filter.
      * destruct (proj2 (accounting_wf_owner self fp Hwf) Hfp) as [owner Howner].
        exists owner. rewrite decide_False
          by (rewrite elem_of_unassigned_keys; intros [_ ?]; congruence).
        split_and!; [done | done |].
        unfold owner_deleted in Hdel. rewrite Howner in Hdel.
        apply bool_decide_eq_false_1 in Hdel. by apply eq_None_not_Some.
      * rewrite elem_of_app. intros [Hq | Hmoved].
        -- apply (Hdisj work Hq). by rewrite Hpath.
        -- apply list_elem_of_fmap in Hmoved
             as (kv & -> & [Hkv Hkvin]%list_elem_of_filter).
           rewrite <- (Hpaths kv Hkvin), Hpath in Hkv. congruence.
  - intros work Hq. unfold swapped. fields. apply elem_of_app. by left.
  - destruct Hwf' as (_ & _ & _ & _ & _ & Hdisj').
    rewrite Forall_forall in Hdisj'.
    intros work Hq. apply dict_get_None. by apply Hdisj'.
Qed.

(** ** Invariants along a run *)

Lemma preserves_bind {A B} I (c : M A) (k : A → M B) :
  preserves I c → (∀ a, preserves I (k a)) → preserves I (bind c k).
Proof.
  intros Hc Hk self HI. unfold bind. specialize (Hc self HI).
  destruct (c self) as [s1 e1 [a| | |]]; try done.
  specialize (Hk a s1 Hc). by destruct (k a s1).
Qed.

Lemma preserves_get_self {B} (I : Orchestrator → Prop) (k : Orchestrator → M B) self :
  I (final (k self self)) → I (final (bind get_self k self)).
Proof. unfold bind, get_self. by destruct (k self self). Qed.

Lemma preserves_ret {A} I (a : A) : preserves I (ret a).
Proof. by intros self. Qed.

Lemma preserves_signal I x : preserves I (signal x).
Proof. by intros self. Qed.

Lemma preserves_raise {A} I e : preserves I (raise (A := A) e).
Proof. by intros self. Qed.

Lemma preserves_assign (I : Orchestrator → Prop) f :
  (∀ self, I self → I (f self)) → preserves I (assign f).
Proof. intros Hf self. apply Hf. Qed.

(** The invariants of the data model only read the queue, its size and
    the two dictionaries. *)
Lemma accounting_wf_ext a b :
  _file_queue b = _file_queue a →
  _file_queue_size b = _file_queue_size a →
  _in_progress b = _in_progress a →
  _in_progress_owner b = _in_progress_owner a →
  accounting_wf a → accounting_wf b.
Proof. unfold accounting_wf. by intros -> -> -> ->. Qed.


Lemma dict_set_fresh {V} (d : dict V) k v :
  k ∉ dict_keys d → dict_set k v d = d ++ [(k, v)].
Proof.
  unfold dict_keys. induction d as [|[k' v'] d IH]; cbn; [done|].
  intros [Hne Hk]%not_elem_of_cons. rewrite decide_False by done. by rewrite IH.
Qed.

Lemma accounting_wf_init submission_queue path notifier pid :
  accounting_wf (Orchestrator_init submission_queue path notifier pid).
Proof.
  unfold accounting_wf, Orchestrator_init. fields. cbn [length fmap list_fmap dict_keys].
  split_and!; try done; apply NoDup_nil_2.
Qed.

Lemma handed_out_wf manager work rest self :
  accounting_wf self → _file_queue self = work :: rest →
  accounting_wf (handed_out manager work rest self).
Proof.
  intros (Hsize & Hkeys & Hdom & Hpaths & Hqueue & Hdisj) Hq.
  rewrite Hq in *. cbn [length fmap list_fmap] in *.
  apply NoDup_cons in Hqueue as [Hwork Hqueue].
  apply Forall_cons in Hdisj as [Hfresh Hdisj].
  unfold accounting_wf, handed_out. fields.
  rewrite dict_set_fresh by done. unfold dict_keys in *. rewrite fmap_app.
  cbn [fmap list_fmap fst].
  split_and!.
  - lia.
  - apply NoDup_app. split_and!; [done | | apply NoDup_singleton].
    intros k Hk ->%list_elem_of_singleton. done.
  - rewrite dom_insert_L, Hdom, list_to_set_app_L. cbn. set_solver.
  - apply Forall_app. split; [done|]. by apply Forall_singleton.
  - done.
  - rewrite Forall_forall in Hdisj. apply Forall_forall. intros w Hw.
    rewrite elem_of_app, list_elem_of_singleton. intros [Hin | Heq].
    + by apply (Hdisj w).
    + apply Hwork. rewrite <- Heq. by apply list_elem_of_fmap_2.
Qed.

Lemma steal_work_wf manager self :
  accounting_wf self → accounting_wf (final (steal_work manager self)).
Proof.
  intros Hwf. rewrite steal_work_run.
  destruct (dropped manager self); [done|].
  case_bool_decide; [|done].
  destruct (_file_queue self) as [|work rest] eqn:Hq; [done|]. cbn zeta.
  assert (accounting_wf (set_file_queue_size (_file_queue_size self - 1)
                           (set_file_queue rest self))) as Hrest.
  { destruct Hwf as (Hsize & Hkeys & Hdom & Hpaths & Hqueue & Hdisj).
    rewrite Hq in *. cbn [length fmap list_fmap] in *.
    apply NoDup_cons in Hqueue as [Hwork Hqueue].
    apply Forall_cons in Hdisj as [Hfresh Hdisj].
    unfold accounting_wf. fields. split_and!; try done. lia. }
  assert (accounting_wf (set_file_queue (rest ++ [work]) self)) as Hrot.
  { destruct Hwf as (Hsize & Hkeys & Hdom & Hpaths & Hqueue & Hdisj).
    rewrite Hq in *. unfold accounting_wf. fields. split_and!; try done.
    - rewrite Hsize, length_app. cbn. lia.
    - by rewrite <- Permutation_cons_append.
    - by rewrite <- Permutation_cons_append. }
  destruct (truthy (language work)); [|by apply handed_out_wf].
  destruct (endpoint_config manager !! "language"); [|done].
  case_bool_decide; [done | by apply handed_out_wf].
Qed.

Lemma no_longer_in_progress_wf filepath self :
  accounting_wf self → accounting_wf (no_longer_in_progress filepath self).
Proof.
  intros (Hsize & Hkeys & Hdom & Hpaths & Hqueue & Hdisj).
  unfold accounting_wf, no_longer_in_progress. fields.
  rewrite Forall_forall in Hdisj. rewrite Forall_forall in Hpaths.
  split_and!; try done.
  - by apply dict_wf_del.
  - apply set_eq. intros k.
    rewrite dom_delete_L, elem_of_difference, Hdom, !elem_of_list_to_set,
      dict_keys_del, elem_of_singleton by done. done.
  - apply Forall_forall. intros kv Hkv. apply Hpaths.
    by apply (sublist_subseteq _ _ (dict_del_sublist _ filepath)).
  - apply Forall_forall. intros w Hw [Hin _]%dict_keys_del; [|done].
    by apply (Hdisj w).
Qed.

Lemma requeued_wf filepath work self :
  accounting_wf self →
  dict_get filepath (_in_progress self) = Some work →
  accounting_wf (no_longer_in_progress filepath (requeued work self)).
Proof.
  intros (Hsize & Hkeys & Hdom & Hpaths & Hqueue & Hdisj) Hget.
  pose proof (dict_get_Some_elem _ _ _ Hget) as Hin.
  rewrite Forall_forall in Hdisj. rewrite Forall_forall in Hpaths.
  pose proof (Hpaths _ Hin) as Hpath. cbn [fst snd] in Hpath.
  assert (filepath ∈ dict_keys (_in_progress self)) as Hkey.
  { apply list_elem_of_fmap. by exists (filepath, work). }
  unfold accounting_wf, no_longer_in_progress, requeued. fields.
  split_and!.
  - rewrite length_app. cbn. lia.
  - by apply dict_wf_del.
  - apply set_eq. intros k.
    rewrite dom_delete_L, elem_of_difference, Hdom, !elem_of_list_to_set,
      dict_keys_del, elem_of_singleton by done. done.
  - apply Forall_forall. intros kv Hkv. apply Hpaths.
    by apply (sublist_subseteq _ _ (dict_del_sublist _ filepath)).
  - rewrite fmap_app. apply NoDup_app. split_and!; [done | | apply NoDup_singleton].
    intros k (w & -> & Hw)%list_elem_of_fmap Heq%list_elem_of_singleton.
    apply (Hdisj w Hw). by rewrite Heq, Hpath.
  - apply Forall_forall. intros w [Hw | ->%list_elem_of_singleton]%elem_of_app.
    + intros [Hk _]%dict_keys_del; [|done]. by apply (Hdisj w).
    + rewrite Hpath. intros [_ Hne]%dict_keys_del; done.
Qed.

Lemma check_completion_wf self :
  accounting_wf self → accounting_wf (check_completion self).
Proof. unfold check_completion. by destruct (batch_finished self). Qed.

Lemma notify_work_success_wf filepath manager result self :
  accounting_wf self →
  accounting_wf (final (notify_work_success filepath manager result self)).
Proof.
  intros Hwf. rewrite notify_work_success_run. cbn zeta.
  destruct (dropped manager self); [by eapply accounting_wf_ext|].
  destruct (dict_get filepath (_in_progress self)) as [work|] eqn:Hget;
    [|by eapply accounting_wf_ext].
  destruct (_in_progress_owner self !! filepath) as [owner|] eqn:Hown.
  - fields. apply check_completion_wf.
    by eapply accounting_wf_ext; [..|apply (no_longer_in_progress_wf filepath self Hwf)].
  - exfalso. apply eq_None_not_Some in Hown. apply Hown.
    apply accounting_wf_owner; [done|]. apply dict_get_is_Some. by rewrite Hget.
Qed.

Lemma notify_work_failure_wf MAX filepath manager result self :
  accounting_wf self →
  accounting_wf (final (notify_work_failure MAX filepath manager result self)).
Proof.
  intros Hwf. rewrite notify_work_failure_run. cbn zeta.
  destruct (dropped manager self); [by eapply accounting_wf_ext|].
  destruct (dict_get filepath (_in_progress self)) as [work|] eqn:Hget;
    [|by eapply accounting_wf_ext].
  destruct (_in_progress_owner self !! filepath) as [owner|] eqn:Hown.
  - fields. apply check_completion_wf.
    destruct (retry_granted MAX filepath result self).
    + by eapply accounting_wf_ext; [..|apply (requeued_wf filepath work self Hwf Hget)].
    + by eapply accounting_wf_ext; [..|apply (no_longer_in_progress_wf filepath self Hwf)].
  - exfalso. apply eq_None_not_Some in Hown. apply Hown.
    apply accounting_wf_owner; [done|]. apply dict_get_is_Some. by rewrite Hget.
Qed.

(** ** Starting a batch *)

Lemma enqueue_work_items_run works self :
  enqueue_work_items works self = mkRun (enqueued works self) [] (Returns tt).
Proof.
  revert self. induction works as [|work works IH]; intros self.
  - cbn. unfold ret, enqueued. f_equal. cbn [foldl length].
    same_fields; [by rewrite app_nil_r | lia].
  - cbn [enqueue_work_items]. unfold_run. rewrite IH. f_equal.
    unfold enqueued. fields. cbn [foldl length].
    same_fields; [by rewrite <- app_assoc | lia].
Qed.

Lemma start_batch_run writers request self :
  start_batch writers request self
  = if _stop_requested self then mkRun self [] (Returns false)
    else
      match request with
      | None => mkRun (batch_reset self) [] (Raises AttributeError)
      | Some request =>
          if bool_decide (length (_in_progress self) = 0%nat)
             && bool_decide (_file_queue_size self = 0)
          then
            mkRun (enqueued (make_work_items request) (batch_opened request self))
              [log_info "Orchestrator: Starting batch"; notify_all] (Returns true)
          else
            mkRun (batch_opened request self)
              [log_info "Orchestrator: Starting batch"] (Raises AssertionError)
      end.
Proof.
  unfold start_batch. unfold bind at 1. unfold get_self at 1.
  destruct (_stop_requested self) eqn:Hstop.
  { unfold _master_finalize. unfold bind at 1. unfold bind at 1. unfold get_self at 1.
    destruct (truthy (_singleton_run_summary_path self)); [|reflexivity].
    by rewrite write_summary_information_run. }
  unfold bind at 1.
  assert ((if bool_decide (_singleton_run_summary_path self = None)
           then assign (set_work_results ∅) else ret tt) self
          = mkRun (batch_reset self) [] (Returns tt)) as ->.
  { unfold batch_reset. by case_bool_decide. }
  destruct request as [request|]; [|reflexivity].
  assert (_in_progress (batch_reset self) = _in_progress self
          ∧ _file_queue_size (batch_reset self) = _file_queue_size self) as [Hip Hsz].
  { unfold batch_reset. by case_bool_decide. }
  unfold assert. unfold_run. rewrite Hip, Hsz.
  case_bool_decide; [|reflexivity].
  case_bool_decide; [|reflexivity].
  cbn [andb]. unfold bind. rewrite enqueue_work_items_run. reflexivity.
Qed.

Lemma hotswap_endpoint_managers_wf valid load_configuration :
  preserves accounting_wf (hotswap_endpoint_managers valid load_configuration).
Proof.
  intros self Hwf.
  rewrite hotswap_endpoint_managers_run
    by (by apply accounting_wf_owners || by destruct Hwf as (_ & ? & _)).
  destruct load_configuration as [config_data|]; [|done].
  destruct (_stop_requested self); [done|].
  destruct (outcome (hotswap_diff valid config_data self)) as [[d n]| | |];
    solve [by apply swapped_wf | by eapply accounting_wf_ext].
Qed.

Lemma cleared_wf self :
  _file_queue self = [] → _file_queue_size self = 0 →
  _in_progress self = [] → _in_progress_owner self = ∅ →
  accounting_wf self.
Proof.
  unfold accounting_wf, dict_keys. intros -> -> -> ->.
  cbn [length fmap list_fmap]. split_and!; try done; apply NoDup_nil_2.
Qed.

Lemma cancel_running_batch_wf batch_id :
  preserves accounting_wf (cancel_running_batch batch_id).
Proof.
  intros self Hwf. rewrite cancel_running_batch_run by apply Hwf.
  case_bool_decide; [done|]. by apply cleared_wf.
Qed.

Lemma request_stop_wf pid : preserves accounting_wf (request_stop pid).
Proof.
  intros self Hwf. rewrite request_stop_run.
  case_bool_decide; [done|].
  destruct (config_notifier_stop_escapes self); [done|].
  destruct Hwf as (Hsize & Hkeys & Hdom & Hpaths & Hqueue & Hdisj).
  case_decide; [|lia].
  unfold accounting_wf, stopped. fields.
  rewrite Hsize, Nat2Z.id, drop_all. cbn [length fmap list_fmap].
  split_and!; try done; [lia | apply NoDup_nil_2].
Qed.

Lemma batch_opened_wf request self :
  accounting_wf self → accounting_wf (batch_opened request self).
Proof.
  intros Hwf. assert (accounting_wf (batch_reset self)) as Hreset.
  { unfold batch_reset. case_bool_decide; [by eapply accounting_wf_ext | done]. }
  by eapply accounting_wf_ext.
Qed.

Lemma start_batch_wf writers request self :
  accounting_wf self →
  match request with
  | Some request => NoDup (filepath <$> make_work_items request)
  | None => True
  end →
  accounting_wf (final (start_batch writers request self)).
Proof.
  intros Hwf Hunique. rewrite start_batch_run.
  destruct (_stop_requested self); [done|].
  destruct request as [request|].
  2:{ unfold batch_reset. case_bool_decide; [by eapply accounting_wf_ext | done]. }
  pose proof (batch_opened_wf request self Hwf) as Hopened.
  destruct (bool_decide (length (_in_progress self) = 0%nat)) eqn:Hip; [|done].
  destruct (bool_decide (_file_queue_size self = 0)) eqn:Hsz; [|done].
  apply bool_decide_eq_true_1 in Hip, Hsz. cbn [andb]. fields.
  destruct Hwf as (Hsize & Hkeys & Hdom & Hpaths & Hqueue & Hdisj).
  apply nil_length_inv in Hip.
  assert (_file_queue self = []) as Hq by (apply nil_length_inv; lia).
  assert (_in_progress (batch_opened request self) = []
          ∧ _file_queue (batch_opened request self) = []
          ∧ _file_queue_size (batch_opened request self) = 0
          ∧ _in_progress_owner (batch_opened request self) = _in_progress_owner self)
    as (Hip' & Hq' & Hsz' & Hown').
  { unfold batch_opened, batch_reset. by case_bool_decide. }
  unfold accounting_wf, enqueued. fields.
  rewrite Hip', Hq', Hsz', Hown', Hdom, Hip. cbn [app dict_keys fmap list_fmap].
  split_and!; try done; [apply NoDup_nil_2|].
  apply Forall_forall. intros w _. apply not_elem_of_nil.
Qed.

Section SystemInvariants.

Variable MAX : Z.
Variable writers : SummaryWriters.
Variable valid : gmap string string -> bool.

Lemma _master_thread_loop_begin_wf d1 load d2 self :
  accounting_wf self →
  unique_filepaths self (MasterThreadLoopBegin d1 load d2) →
  accounting_wf (final (_master_thread_loop_begin writers valid d1 load d2 self)).
Proof.
  intros Hwf Hunique. unfold _master_thread_loop_begin.
  apply (preserves_get_self accounting_wf).
  cbn [unique_filepaths] in Hunique.
  destruct (_submission_que self) as [|request rest]; [done|].
  revert self Hwf. apply preserves_bind.
  { apply preserves_assign. intros self. by apply accounting_wf_ext. }
  intros _. apply preserves_bind.
  { apply preserves_assign. intros self. by apply accounting_wf_ext. }
  intros _. destruct (bool_decide (is_Some request) && d1).
  { apply preserves_bind; [apply preserves_signal | intros; apply preserves_ret]. }
  apply preserves_bind; [apply hotswap_endpoint_managers_wf|].
  intros _. apply preserves_bind.
  { intros self Hwf. apply start_batch_wf; [done|]. by destruct request. }
  intros started. destruct started, request as [request|]; try apply preserves_ret.
  apply preserves_bind; [|intros; apply preserves_ret].
  destruct d2; [|apply preserves_signal].
  apply preserves_bind; [apply cancel_running_batch_wf | intros; apply preserves_ret].
Qed.

Lemma _run_summary_loop_final self : final (_run_summary_loop writers self) = self.
Proof.
  unfold _run_summary_loop. unfold bind at 1. unfold get_self at 1.
  destruct (_stop_requested self); [done|].
  destruct (_ && _); [|done].
  unfold try_except. rewrite write_summary_information_run. cbn zeta.
  by destruct (summary_write_failure _ _ _ _).
Qed.

(** Every call keeps the invariants of the data model, provided the
    batches that the master loop starts have unique filepaths. *)
Lemma perform_wf c self :
  accounting_wf self → unique_filepaths self c →
  accounting_wf (final (perform MAX writers valid c self)).
Proof.
  intros Hwf Hunique.
  destruct c as [manager | path manager result | path manager result | load | id
                | pid | request | d1 load d2 | request d1 d2 | ];
    cbn [perform].
  - apply (preserves_bind accounting_wf); [|intros; apply preserves_ret|done].
    intros s. apply steal_work_wf.
  - by apply notify_work_success_wf.
  - by apply notify_work_failure_wf.
  - by apply hotswap_endpoint_managers_wf.
  - apply (preserves_bind accounting_wf); [|intros; apply preserves_ret|done].
    apply cancel_running_batch_wf.
  - by apply request_stop_wf.
  - by eapply accounting_wf_ext.
  - unfold bind.
    pose proof (_master_thread_loop_begin_wf d1 load d2 self Hwf Hunique) as H.
    by destruct (_master_thread_loop_begin _ _ _ _ _ _) as [s1 e1 [a| | |]].
  - rewrite _master_thread_loop_end_run. by eapply accounting_wf_ext.
  - by rewrite _run_summary_loop_final.
Qed.

Theorem reachable_wf self :
  reachable MAX writers valid unique_filepaths self → accounting_wf self.
Proof.
  induction 1 as [|self c _ IH Hguard]; [apply accounting_wf_init|].
  by apply perform_wf.
Qed.

End SystemInvariants.

(** ** The retry budget along a run *)

Lemma dict_keys_set_elem {V} (d : dict V) k v k' :
  k' ∈ dict_keys (dict_set k v d) ↔ k' = k ∨ k' ∈ dict_keys d.
Proof.
  rewrite <- !dict_get_is_Some, dict_get_set.
  case_decide; [|naive_solver]. split; [by left | by eexists].
Qed.













Lemma lookup_placeholders (results : gmap string (option WorkItemResult))
    (works : list WorkItemRequest) fp :
  foldl (fun results work => <[filepath work := None]> results) results works !! fp
  = if decide (fp ∈ filepath <$> works) then Some None else results !! fp.
Proof.
  revert results. induction works as [|work works IH]; intros results;
    cbn [foldl fmap list_fmap].
  - rewrite decide_False; [done | apply not_elem_of_nil].
  - rewrite IH. destruct (decide (fp ∈ filepath <$> works)) as [Hin|Hnin].
    + rewrite decide_True; [done | by right].
    + destruct (decide (fp = filepath work)) as [->|Hne].
      * rewrite decide_True by left. apply lookup_insert_eq.
      * rewrite decide_False by (rewrite elem_of_cons; naive_solver).
        by apply lookup_insert_ne.
Qed.



Section RetryBound.

Variable MAX : Z.
Variable writers : SummaryWriters.
Variable valid : gmap string string -> bool.
Hypothesis MAX_nonneg : 0 ≤ MAX.





End RetryBound.




(** ** Completion *)

(** A callback that gets through while the completion event is clear
    sets the event exactly when it leaves nothing queued and nothing in
    progress. *)
Lemma callbacks_signal_completion MAX path manager result self :
  _batch_completion_evt self = false →
  dropped manager self = false →
  let ok := notify_work_success path manager result self in
  let ko := notify_work_failure MAX path manager result self in
  (outcome ok = Returns tt →
   (_batch_completion_evt (final ok) = true
    ↔ _file_queue_size (final ok) = 0 ∧ _in_progress (final ok) = []))
  ∧ (outcome ko = Returns tt →
     (_batch_completion_evt (final ko) = true
      ↔ _file_queue_size (final ko) = 0 ∧ _in_progress (final ko) = [])).
Proof.
  intros Hevt Hdropped ok ko. subst ok ko.
  assert (∀ s, _batch_completion_evt s = false →
               _batch_completion_evt (check_completion s) = true
               ↔ _file_queue_size (check_completion s) = 0
                 ∧ _in_progress (check_completion s) = []) as Hcheck.
  { intros s Hs. unfold check_completion, batch_finished.
    destruct (bool_decide (_file_queue_size s = 0)) eqn:Hsz;
      destruct (bool_decide (length (_in_progress s) = 0%nat)) eqn:Hip;
      cbn [andb]; fields; rewrite ?Hs;
      try apply bool_decide_eq_true_1 in Hsz; try apply bool_decide_eq_false_1 in Hsz;
      try apply bool_decide_eq_true_1 in Hip; try apply bool_decide_eq_false_1 in Hip.
    - apply nil_length_inv in Hip. done.
    - split; [done|]. intros [_ Hnil]. by rewrite Hnil in Hip.
    - split; [done|]. by intros [? _].
    - split; [done|]. by intros [? _]. }
  rewrite notify_work_success_run, notify_work_failure_run. cbn zeta.
  rewrite Hdropped.
  destruct (dict_get path (_in_progress self)) as [work|]; [|done].
  destruct (_in_progress_owner self !! path) as [owner|]; [|done].
  fields. split; intros _; apply Hcheck.
  - done.
  - by destruct (retry_granted MAX path result self).
Qed.

(** ** Completion along a run *)

(** The completion invariant reads the two flags, the size counter and
    [_in_progress]. *)
Lemma completion_inv_ext a b :
  _stop_requested b = _stop_requested a →
  _batch_completion_evt b = _batch_completion_evt a →
  _file_queue_size b = _file_queue_size a →
  _in_progress b = _in_progress a →
  completion_inv a → completion_inv b.
Proof. unfold completion_inv. by intros -> -> -> ->. Qed.

Lemma completion_inv_init submission_queue path notifier pid :
  completion_inv (Orchestrator_init submission_queue path notifier pid).
Proof. unfold completion_inv, Orchestrator_init. fields. done. Qed.

Lemma completion_inv_clear self :
  _batch_completion_evt self = false → completion_inv self.
Proof. intros Hevt _ ?. congruence. Qed.

Lemma check_completion_inv self :
  _batch_completion_evt self = false → completion_inv (check_completion self).
Proof.
  intros Hevt. unfold completion_inv, check_completion, batch_finished.
  destruct (bool_decide (_file_queue_size self = 0)) eqn:Hsz;
    destruct (bool_decide (length (_in_progress self) = 0%nat)) eqn:Hip;
    cbn [andb]; fields; try (intros _; congruence).
  apply bool_decide_eq_true_1 in Hsz, Hip. apply nil_length_inv in Hip. done.
Qed.

(** With the event set and no stop requested nothing is in progress, so a
    callback that is not dropped finds no binding for its filepath. *)
Lemma completion_inv_no_binding path manager self :
  completion_inv self → dropped manager self = false →
  _batch_completion_evt self = true →
  dict_get path (_in_progress self) = None.
Proof.
  intros Hinv Hdropped Hevt. unfold dropped in Hdropped.
  apply orb_false_iff in Hdropped as [_ Hstop].
  destruct (Hinv Hstop Hevt) as [_ ->]. reflexivity.
Qed.

Lemma steal_work_completion_inv manager self :
  completion_inv self → completion_inv (final (steal_work manager self)).
Proof.
  intros Hinv. rewrite steal_work_run.
  destruct (dropped manager self) eqn:Hdropped; [done|].
  case_bool_decide as Hsize; [|done].
  assert (_batch_completion_evt self = false) as Hevt.
  { destruct (_batch_completion_evt self) eqn:Hevt; [|done].
    unfold dropped in Hdropped. apply orb_false_iff in Hdropped as [_ Hstop].
    destruct (Hinv Hstop Hevt) as [Hzero _]. lia. }
  destruct (_file_queue self) as [|work rest]; [done|]. cbn zeta.
  destruct (truthy (language work)); [|by apply completion_inv_clear].
  destruct (endpoint_config manager !! "language"); [|by apply completion_inv_clear].
  case_bool_decide; by apply completion_inv_clear.
Qed.

Lemma notify_work_success_completion_inv path manager result self :
  completion_inv self →
  completion_inv (final (notify_work_success path manager result self)).
Proof.
  intros Hinv. rewrite notify_work_success_run. cbn zeta.
  destruct (dropped manager self) eqn:Hdropped; [by eapply completion_inv_ext|].
  destruct (_batch_completion_evt self) eqn:Hevt.
  { rewrite (completion_inv_no_binding path manager self) by done.
    by eapply completion_inv_ext. }
  destruct (dict_get path (_in_progress self)); [|by eapply completion_inv_ext].
  destruct (_in_progress_owner self !! path).
  - fields. by apply check_completion_inv.
  - fields. by apply completion_inv_clear.
Qed.

Lemma notify_work_failure_completion_inv MAX path manager result self :
  completion_inv self →
  completion_inv (final (notify_work_failure MAX path manager result self)).
Proof.
  intros Hinv. rewrite notify_work_failure_run. cbn zeta.
  destruct (dropped manager self) eqn:Hdropped; [by eapply completion_inv_ext|].
  destruct (_batch_completion_evt self) eqn:Hevt.
  { rewrite (completion_inv_no_binding path manager self) by done.
    by eapply completion_inv_ext. }
  destruct (dict_get path (_in_progress self)); [|by eapply completion_inv_ext].
  destruct (_in_progress_owner self !! path).
  - fields. apply check_completion_inv.
    by destruct (retry_granted MAX path result self).
  - apply completion_inv_clear.
    by destruct (retry_granted MAX path result self).
Qed.

Lemma hotswap_endpoint_managers_completion_inv valid load_configuration self :
  accounting_wf self → completion_inv self →
  completion_inv (final (hotswap_endpoint_managers valid load_configuration self)).
Proof.
  intros Hwf Hinv.
  rewrite hotswap_endpoint_managers_run
    by (by apply accounting_wf_owners || by destruct Hwf as (_ & ? & _)).
  destruct load_configuration as [config_data|]; [|done].
  destruct (_stop_requested self) eqn:Hstop; [done|].
  destruct (outcome (hotswap_diff valid config_data self)) as [[d n]| | |];
    try by eapply completion_inv_ext.
  intros _ Hevt. unfold swapped, kept_in_progress, unassigned in *. fields in Hevt. fields.
  destruct (Hinv Hstop Hevt) as [-> ->]. done.
Qed.

Lemma cancel_running_batch_completion_inv batch_id self :
  accounting_wf self → completion_inv self →
  completion_inv (final (cancel_running_batch batch_id self)).
Proof.
  intros Hwf Hinv. rewrite cancel_running_batch_run by apply Hwf.
  case_bool_decide; [done|]. by intros _ _.
Qed.

Lemma request_stop_completion_inv pid self :
  accounting_wf self → completion_inv self →
  completion_inv (final (request_stop pid self)).
Proof.
  intros Hwf Hinv. rewrite request_stop_run.
  case_bool_decide; [done|].
  destruct (config_notifier_stop_escapes self); [done|].
  case_decide; intros Hstop; fields in Hstop; done.
Qed.

Lemma start_batch_completion_inv writers request self :
  completion_inv self → completion_inv (final (start_batch writers request self)).
Proof.
  intros Hinv. rewrite start_batch_run.
  destruct (_stop_requested self); [done|].
  destruct request as [request|].
  2:{ unfold batch_reset. case_bool_decide; [by eapply completion_inv_ext | done]. }
  destruct (_ && _); intros _ Hevt; unfold enqueued, batch_opened in Hevt;
    fields in Hevt; done.
Qed.

Section Completion.

Variable MAX : Z.
Variable writers : SummaryWriters.
Variable valid : gmap string string -> bool.

(** The invariants of the data model together with the completion
    invariant. *)
Let settled (self : Orchestrator) : Prop := accounting_wf self ∧ completion_inv self.

Lemma _master_thread_loop_begin_settled d1 load d2 self :
  settled self →
  unique_filepaths self (MasterThreadLoopBegin d1 load d2) →
  settled (final (_master_thread_loop_begin writers valid d1 load d2 self)).
Proof.
  intros Hsettled Hunique. unfold _master_thread_loop_begin.
  apply (preserves_get_self settled).
  cbn [unique_filepaths] in Hunique.
  destruct (_submission_que self) as [|request rest]; [done|].
  revert self Hsettled. apply preserves_bind.
  { apply preserves_assign. intros self [? ?].
    split; [by eapply accounting_wf_ext | by eapply completion_inv_ext]. }
  intros _. apply preserves_bind.
  { apply preserves_assign. intros self [? ?].
    split; [by eapply accounting_wf_ext | by eapply completion_inv_ext]. }
  intros _. destruct (bool_decide (is_Some request) && d1).
  { apply preserves_bind; [apply preserves_signal | intros; apply preserves_ret]. }
  apply preserves_bind.
  { intros self [? ?]. split;
      [by apply hotswap_endpoint_managers_wf
      | by apply hotswap_endpoint_managers_completion_inv]. }
  intros _. apply preserves_bind.
  { intros self [? ?]. split; [|by apply start_batch_completion_inv].
    apply start_batch_wf; [done|]. by destruct request. }
  intros started. destruct started, request as [request|]; try apply preserves_ret.
  apply preserves_bind; [|intros; apply preserves_ret].
  destruct d2; [|apply preserves_signal].
  apply preserves_bind; [|intros; apply preserves_ret].
  intros self [? ?]. split;
    [by apply cancel_running_batch_wf | by apply cancel_running_batch_completion_inv].
Qed.

Lemma perform_completion_inv c self :
  settled self → unique_filepaths self c →
  completion_inv (final (perform MAX writers valid c self)).
Proof.
  intros [Hwf Hinv] Hunique.
  destruct c as [manager | path manager result | path manager result | load | id
                | pid | request | d1 load d2 | request d1 d2 | ];
    cbn [perform].
  - pose proof (steal_work_completion_inv manager self Hinv) as H.
    unfold bind. by destruct (steal_work manager self) as [s1 e1 [a| | |]].
  - by apply notify_work_success_completion_inv.
  - by apply notify_work_failure_completion_inv.
  - by apply hotswap_endpoint_managers_completion_inv.
  - pose proof (cancel_running_batch_completion_inv id self Hwf Hinv) as H.
    unfold bind. by destruct (cancel_running_batch id self) as [s1 e1 [a| | |]].
  - by apply request_stop_completion_inv.
  - by eapply completion_inv_ext.
  - pose proof (_master_thread_loop_begin_settled d1 load d2 self (conj Hwf Hinv) Hunique)
      as [_ H].
    unfold bind.
    by destruct (_master_thread_loop_begin _ _ _ _ _ _) as [s1 e1 [a| | |]].
  - rewrite _master_thread_loop_end_run. by eapply completion_inv_ext.
  - by rewrite _run_summary_loop_final.
Qed.

(** In every state that the calls lead to, as long as no stop was
    requested, a set completion event means that nothing is queued and
    nothing is in progress. *)
Lemma reachable_completion self :
  reachable MAX writers valid unique_filepaths self →
  _stop_requested self = false → _batch_completion_evt self = true →
  _file_queue_size self = 0 ∧ _in_progress self = [].
Proof.
  intros Hreach. enough (settled self) as [_ H] by exact H.
  induction Hreach as [|self c _ IH Hguard].
  - split; [apply accounting_wf_init | apply completion_inv_init].
  - split; [apply perform_wf; [apply IH | done] | by apply perform_completion_inv].
Qed.

(** Hence, along a run, after every callback that is not dropped and
    returns, the completion event is set exactly when nothing is queued
    and nothing is in progress. *)
Lemma callbacks_completion_iff_quiescence path manager result self :
  reachable MAX writers valid unique_filepaths self →
  dropped manager self = false →
  let ok := notify_work_success path manager result self in
  let ko := notify_work_failure MAX path manager result self in
  (outcome ok = Returns tt →
   (_batch_completion_evt (final ok) = true
    ↔ _file_queue_size (final ok) = 0 ∧ _in_progress (final ok) = []))
  ∧ (outcome ko = Returns tt →
     (_batch_completion_evt (final ko) = true
      ↔ _file_queue_size (final ko) = 0 ∧ _in_progress (final ko) = [])).
Proof.
  intros Hreach Hdropped.
  destruct (_batch_completion_evt self) eqn:Hevt;
    [|by apply callbacks_signal_completion].
  pose proof Hdropped as Hstop. unfold dropped in Hstop.
  apply orb_false_iff in Hstop as [_ Hstop].
  destruct (reachable_completion self Hreach Hstop Hevt) as [_ Hnone].
  cbn zeta. rewrite notify_work_success_run, notify_work_failure_run. cbn zeta.
  rewrite Hdropped, Hnone. cbn [dict_get]. split; intros; done.
Qed.

End Completion.

(** C4, where the code departs from it. In the example deployment the
    manager has taken the first file when the creator process requests a
    stop: [request_stop] returns with [_batch_completion_evt] set and the
    queue drained to size 0, while the file is still in [_in_progress]. *)
Theorem request_stop_completion_with_work_in_progress :
  let r := request_stop 1 example_running in
  _batch_completion_evt example_running = false
  ∧ outcome r = Returns tt
  ∧ _batch_completion_evt (final r) = true
  ∧ _file_queue (final r) = []
  ∧ _file_queue_size (final r) = 0
  ∧ _in_progress (final r) = [("a", work_a)]
  ∧ batch_finished (final r) = false.
Proof. vm_compute. done. Qed.

(** ** The properties at work on the example deployment *)

(** Deciding a closed proposition by evaluation. *)
Ltac by_evaluation := apply (bool_decide_unpack _); vm_compute; exact I.

Lemma example_running_reachable :
  reachable 2 example_writers example_valid example_guard example_running.
Proof.
  unfold example_running, example_started, example_submitted, example_configured,
    example_perform.
  repeat apply reachable_step; try apply reachable_init; split; vm_compute;
    try exact I.
  by_evaluation.
Qed.

Lemma example_failed_reachable :
  reachable 2 example_writers example_valid example_guard example_failed.
Proof.
  unfold example_failed, example_perform.
  apply reachable_step; [apply example_running_reachable|].
  split; vm_compute; [exact I | by split].
Qed.

Lemma hotswap_preserves_membership_witness :
  accounting_wf example_running
  ∧ _stop_requested example_running = false
  ∧ outcome (hotswap_diff example_valid french_config example_running)
    = Returns (example_deleted, example_new)
  ∧ outcome (hotswap_endpoint_managers example_valid (Some french_config) example_running)
    = Returns tt
  ∧ accounting_wf
      (final (hotswap_endpoint_managers example_valid (Some french_config)
                example_running)).
Proof.
  assert (accounting_wf example_running) as Hwf by by_evaluation.
  assert (_stop_requested example_running = false) as Hstop by reflexivity.
  assert (outcome (hotswap_diff example_valid french_config example_running)
          = Returns (example_deleted, example_new)) as Hdiff by reflexivity.
  split_and!; [done | done | done | |];
    apply (hotswap_preserves_membership example_valid french_config example_running
             example_deleted example_new Hwf Hstop Hdiff).
Defined.



Lemma retired_manager_callbacks_ignored_witness :
  retired example_manager example_canceled
  ∧ accounting (final (notify_work_success "a" example_manager example_result
                         example_canceled))
    = accounting example_canceled
  ∧ accounting (final (notify_work_failure 2 "a" example_manager example_result
                         example_canceled))
    = accounting example_canceled.
Proof.
  assert (retired example_manager example_canceled) as Hretired
    by (unfold retired; by_evaluation).
  destruct (retired_manager_callbacks_ignored 2 "a" example_manager example_result
              example_canceled Hretired) as [(_ & _ & Hok) (_ & _ & Hko)].
  exact (conj Hretired (conj Hok Hko)).
Defined.

Lemma steal_work_language_routing_witness :
  outcome (steal_work example_manager example_started) = Returns (Work work_a)
  ∧ ¬ (language_set work_a ∧ language_differs example_manager work_a)
  ∧ dropped french_manager example_started = false
  ∧ _file_queue_size example_started > 0
  ∧ _file_queue example_started = [work_a; work_b]
  ∧ language_set work_a
  ∧ language_differs french_manager work_a
  ∧ outcome (steal_work french_manager example_started) = Returns Sentinel
  ∧ _file_queue (final (steal_work french_manager example_started)) = [work_b; work_a].
Proof.
  assert (outcome (steal_work example_manager example_started) = Returns (Work work_a))
    as Hwork by (vm_compute; reflexivity).
  assert (dropped french_manager example_started = false) as Hdropped
    by (vm_compute; reflexivity).
  assert (_file_queue_size example_started > 0) as Hsize by (vm_compute; reflexivity).
  assert (_file_queue example_started = [work_a; work_b]) as Hqueue
    by (vm_compute; reflexivity).
  assert (language_set work_a) as Hset by reflexivity.
  assert (language_differs french_manager work_a) as Hdiffers.
  { exists "fr-FR". split; [reflexivity | vm_compute; discriminate]. }
  destruct (steal_work_language_routing example_manager example_started) as [Hnever _].
  destruct (steal_work_language_routing french_manager example_started) as [_ Hback].
  destruct (Hback work_a [work_b] Hdropped Hsize Hqueue Hset Hdiffers)
    as (Hout & _ & Hfinal & _).
  refine (conj Hwork (conj (Hnever work_a Hwork) (conj Hdropped (conj Hsize
            (conj Hqueue (conj Hset (conj Hdiffers (conj Hout _)))))))).
  rewrite Hfinal. reflexivity.
Defined.

Lemma cancel_running_batch_spec_witness :
  _on_batch_id example_running ≠ 8
  ∧ cancel_running_batch 8 example_running = mkRun example_running [] (Returns false)
  ∧ _on_batch_id example_running = 7
  ∧ _file_queue_size example_running
    = Z.of_nat (length (_file_queue example_running))
  ∧ outcome (cancel_running_batch 7 example_running) = Returns true
  ∧ _in_progress (final (cancel_running_batch 7 example_running)) = []
  ∧ _batch_completion_evt (final (cancel_running_batch 7 example_running)) = true.
Proof.
  assert (_on_batch_id example_running ≠ 8) as Hother by (vm_compute; discriminate).
  assert (_on_batch_id example_running = 7) as Hsame by reflexivity.
  assert (_file_queue_size example_running
          = Z.of_nat (length (_file_queue example_running))) as Hsize by reflexivity.
  destruct (cancel_running_batch_spec 8 example_running) as [Hno _].
  destruct (cancel_running_batch_spec 7 example_running) as [_ Hyes].
  destruct (Hyes Hsame Hsize) as (Hout & _ & _ & Hip & _ & _ & _ & _ & Hevt).
  exact (conj Hother (conj (Hno Hother) (conj Hsame (conj Hsize
           (conj Hout (conj Hip Hevt)))))).
Defined.

Lemma request_stop_repeated_witness :
  2 ≠ _creator_pid example_running
  ∧ request_stop 2 example_running = mkRun example_running [] (Returns tt)
  ∧ 1 = _creator_pid example_running
  ∧ outcome (request_stop 1 example_running) = Returns tt
  ∧ _submission_que (final (request_stop 1 (final (request_stop 1 example_running))))
    = _submission_que (final (request_stop 1 example_running)) ++ [None].
Proof.
  assert (2 ≠ _creator_pid example_running) as Hother by (vm_compute; discriminate).
  assert (1 = _creator_pid example_running) as Hcreator by reflexivity.
  assert (outcome (request_stop 1 example_running) = Returns tt) as Hfirst
    by (vm_compute; reflexivity).
  destruct (request_stop_repeated 2 example_running) as [Hnoop _].
  destruct (request_stop_repeated 1 example_running) as [_ Hagain].
  refine (conj Hother (conj (Hnoop Hother) (conj Hcreator (conj Hfirst _)))).
  rewrite (Hagain Hcreator Hfirst). reflexivity.
Defined.


Lemma steal_work_missing_language_key_witness :
  dropped plain_manager example_started = false
  ∧ _file_queue_size example_started > 0
  ∧ _file_queue example_started = [work_a; work_b]
  ∧ language_set work_a
  ∧ endpoint_config plain_manager !! "language" = None
  ∧ outcome (steal_work plain_manager example_started) = Raises (KeyError "language").
Proof.
  assert (dropped plain_manager example_started = false) as Hdropped
    by (vm_compute; reflexivity).
  assert (_file_queue_size example_started > 0) as Hsize by (vm_compute; reflexivity).
  assert (_file_queue example_started = [work_a; work_b]) as Hqueue
    by (vm_compute; reflexivity).
  assert (language_set work_a) as Hset by reflexivity.
  assert (endpoint_config plain_manager !! "language" = None) as Hnone by reflexivity.
  refine (conj Hdropped (conj Hsize (conj Hqueue (conj Hset (conj Hnone _))))).
  apply (steal_work_missing_language_key plain_manager example_started).
  refine (conj Hdropped (conj Hsize _)).
  exists work_a, [work_b]. exact (conj Hqueue (conj Hset Hnone)).
Defined.

(** C8 as stated fails: a second [request_stop] of the creator process
    puts a second stop sentinel on the submission queue. *)
Lemma request_stop_twice_differs :
  let first := request_stop 1 example_running in
  let second := request_stop 1 (final first) in
  outcome first = Returns tt
  ∧ outcome second = Returns tt
  ∧ _submission_que (final first) = [None]
  ∧ _submission_que (final second) = [None; None]
  ∧ final second ≠ final first.
Proof.
  cbn zeta. split_and!; try (vm_compute; reflexivity).
  intros Heq. apply (f_equal _submission_que) in Heq. vm_compute in Heq. discriminate.
Qed.



(** Why the bound over runs asks that reports concern work the
    orchestrator accounts for: a failure report on a filepath that is not
    in progress is merged before the callback raises [KeyError], so four
    such reports leave four attempts stored under a budget of two. *)
Lemma stray_failure_report_is_merged :
  let stray := NotifyWorkFailure "z" example_manager (mkWorkItemResult 1 false "") in
  let once := example_perform stray example_running in
  let four :=
    final (example_perform stray (final (example_perform stray
      (final (example_perform stray (final once)))))) in
  outcome once = Raises (KeyError "z")
  ∧ stored_attempts "z" (final once) = 1
  ∧ stored_attempts "z" four = 4.
Proof. vm_compute. done. Qed.

(** * Further properties of the methods *)

(** ** Handing out work and taking reports *)

Lemma dict_del_set_fresh {V} (d : dict V) k v :
  k ∉ dict_keys d → dict_del k (dict_set k v d) = d.
Proof.
  unfold dict_keys. induction d as [|[k' v'] d IH]; cbn.
  - intros _. by rewrite decide_True.
  - intros [Hne Hk]%not_elem_of_cons. rewrite decide_False by done. cbn.
    rewrite decide_False by done. by rewrite IH.
Qed.

(** X3. [steal_work] answers a retired manager, and everyone once a stop
    is requested, with the sentinel and touches nothing; it parks the
    caller when nothing is queued; and it never hands out anything but the
    head of the queue. When the head names no language, or the language
    the manager is configured for, the manager gets it: the item leaves
    the queue, the size counter goes down by one, the item is recorded in
    [_in_progress] under its filepath with the manager as its owner, no
    signal is sent, and the results and the completion event stay. *)
Theorem steal_work_hands_out_head manager self :
  let r := steal_work manager self in
  (dropped manager self = true → r = mkRun self [] (Returns Sentinel))
  ∧ (dropped manager self = false → _file_queue_size self ≤ 0 →
     r = mkRun self [] Waits)
  ∧ (∀ work, outcome r = Returns (Work work) →
       ∃ rest, _file_queue self = work :: rest ∧ _file_queue (final r) = rest)
  ∧ (∀ work rest,
       dropped manager self = false → _file_queue_size self > 0 →
       _file_queue self = work :: rest →
       (language_set work →
        ∃ l, endpoint_config manager !! "language" = Some l
             ∧ lower l = lower (default "" (language work))) →
       outcome r = Returns (Work work)
       ∧ emitted r = []
       ∧ _file_queue (final r) = rest
       ∧ _file_queue_size (final r) = _file_queue_size self - 1
       ∧ (∀ fp, dict_get fp (_in_progress (final r))
                = if decide (fp = filepath work) then Some work
                  else dict_get fp (_in_progress self))
       ∧ (∀ fp, _in_progress_owner (final r) !! fp
                = if decide (fp = filepath work) then Some manager
                  else _in_progress_owner self !! fp)
       ∧ _work_results (final r) = _work_results self
       ∧ _batch_completion_evt (final r) = _batch_completion_evt self).
Proof.
  intros r. subst r. rewrite steal_work_run. split_and!.
  - by intros ->.
  - intros -> Hsize. by rewrite bool_decide_eq_false_2 by lia.
  - intros work. destruct (dropped manager self); [done|].
    case_bool_decide; [|done].
    destruct (_file_queue self) as [|work' rest]; [done|]. cbn zeta.
    destruct (truthy (language work')).
    + destruct (endpoint_config manager !! "language"); [|done].
      case_bool_decide; [done|]. intros [= <-]. by exists rest.
    + intros [= <-]. by exists rest.
  - intros work rest -> Hsize -> Hlang. rewrite bool_decide_eq_true_2 by done.
    cbn zeta.
    assert ((if truthy (language work)
             then match endpoint_config manager !! "language" with
                  | Some l =>
                      if bool_decide (lower l ≠ lower (default "" (language work)))
                      then mkRun (set_file_queue (rest ++ [work]) self) [notify]
                             (Returns Sentinel)
                      else mkRun (handed_out manager work rest self) []
                             (Returns (Work work))
                  | None =>
                      mkRun (set_file_queue_size (_file_queue_size self - 1)
                               (set_file_queue rest self)) []
                        (Raises (KeyError "language"))
                  end
             else mkRun (handed_out manager work rest self) [] (Returns (Work work)))
            = mkRun (handed_out manager work rest self) [] (Returns (Work work))) as ->.
    { destruct (truthy (language work)) eqn:Ht; [|done].
      destruct (Hlang Ht) as (l & -> & Hl). by rewrite bool_decide_eq_false_2 by naive_solver. }
    unfold handed_out. fields. split_and!; try done.
    + intros fp. apply dict_get_set.
    + intros fp. case_decide as Hfp.
      * subst fp. apply lookup_insert_eq.
      * by apply lookup_insert_ne.
Qed.

(** X4. A report on a filepath that is not in progress, from a manager
    that is not dropped, makes both callbacks raise [KeyError] for that
    filepath. The success callback has then changed nothing of the
    accounting. The failure callback has already merged the reported
    result: its attempts are added to the stored ones, while the queue,
    its size, both dictionaries and the completion event stay. *)
Theorem callbacks_on_unknown_filepath MAX path manager result self :
  dropped manager self = false →
  dict_get path (_in_progress self) = None →
  let ok := notify_work_success path manager result self in
  let ko := notify_work_failure MAX path manager result self in
  outcome ok = Raises (KeyError path)
  ∧ accounting (final ok) = accounting self
  ∧ outcome ko = Raises (KeyError path)
  ∧ stored_attempts path (final ko) = attempts result + stored_attempts path self
  ∧ (∀ fp, fp ≠ path → _work_results (final ko) !! fp = _work_results self !! fp)
  ∧ _file_queue (final ko) = _file_queue self
  ∧ _file_queue_size (final ko) = _file_queue_size self
  ∧ _in_progress (final ko) = _in_progress self
  ∧ _in_progress_owner (final ko) = _in_progress_owner self
  ∧ _batch_completion_evt (final ko) = _batch_completion_evt self.
Proof.
  intros Hdropped Hget ok ko. subst ok ko.
  rewrite notify_work_success_run, notify_work_failure_run. cbn zeta.
  rewrite Hdropped, Hget. unfold accounting, failure_merged, stored_attempts. fields.
  rewrite lookup_insert_eq. split_and!; try done.
  - unfold merged. destruct (_work_results self !! path) as [[prev|]|]; cbn [attempts]; lia.
  - intros fp Hfp. by rewrite lookup_insert_ne.
Qed.

(** X5. A success report on a filepath that is in progress, from a
    manager that is not dropped, returns without a signal: the filepath
    leaves both dictionaries, every other binding stays, the result is
    stored with the attempts stored before added to its own, and the queue
    is not touched, so that nothing is ever queued again by a success.
    The completion event, never cleared here, is set afterwards exactly
    when it was set before or nothing is queued and nothing is left in
    progress. *)
Theorem notify_work_success_records path manager result work owner self :
  dropped manager self = false →
  dict_wf (_in_progress self) →
  dict_get path (_in_progress self) = Some work →
  _in_progress_owner self !! path = Some owner →
  let r := notify_work_success path manager result self in
  outcome r = Returns tt
  ∧ emitted r = []
  ∧ (∀ fp, dict_get fp (_in_progress (final r))
           = if decide (fp = path) then None else dict_get fp (_in_progress self))
  ∧ (∀ fp, _in_progress_owner (final r) !! fp
           = if decide (fp = path) then None else _in_progress_owner self !! fp)
  ∧ _work_results (final r)
    = <[path := Some (mkWorkItemResult (attempts result + stored_attempts path self)
                        (can_retry result) (result_payload result))]>
        (_work_results self)
  ∧ _file_queue (final r) = _file_queue self
  ∧ _file_queue_size (final r) = _file_queue_size self
  ∧ (_batch_completion_evt (final r) = true
     ↔ _batch_completion_evt self = true
       ∨ (_file_queue_size self = 0 ∧ _in_progress (final r) = [])).
Proof.
  intros Hdropped Hwf Hget Hown r. subst r.
  rewrite notify_work_success_run. cbn zeta. rewrite Hdropped, Hget, Hown.
  assert (∀ s, _work_results (check_completion s) = _work_results s
               ∧ _in_progress (check_completion s) = _in_progress s
               ∧ _in_progress_owner (check_completion s) = _in_progress_owner s
               ∧ _file_queue (check_completion s) = _file_queue s
               ∧ _file_queue_size (check_completion s) = _file_queue_size s
               ∧ (_batch_completion_evt (check_completion s) = true
                  ↔ _batch_completion_evt s = true
                    ∨ (_file_queue_size s = 0 ∧ _in_progress s = []))) as Hcheck.
  { intros s. unfold check_completion, batch_finished.
    destruct (bool_decide (_file_queue_size s = 0)) eqn:Hsz;
      destruct (bool_decide (length (_in_progress s) = 0%nat)) eqn:Hip;
      cbn [andb]; fields; split_and!; try done;
      try apply bool_decide_eq_true_1 in Hsz; try apply bool_decide_eq_false_1 in Hsz;
      try apply bool_decide_eq_true_1 in Hip; try apply bool_decide_eq_false_1 in Hip.
    - apply nil_length_inv in Hip. naive_solver.
    - split; [by left|]. intros [? | [_ Hnil]]; [done|]. by rewrite Hnil in Hip.
    - naive_solver.
    - naive_solver. }
  fields. destruct (Hcheck (success_recorded path result self))
    as (-> & -> & -> & -> & -> & ->).
  unfold success_recorded. fields. split_and!; try done.
  - intros fp. by apply dict_get_del.
  - intros fp. case_decide as Hfp.
    + subst fp. apply lookup_delete_eq.
    + by apply lookup_delete_ne.
  - do 2 f_equal. unfold merged, stored_attempts.
    destruct (_work_results self !! path) as [[prev|]|]; [done | |];
      destruct result as [a c p]; cbn [attempts can_retry result_payload]; f_equal; lia.
Qed.

(** X6. Stealing the head of the queue and then reporting a failure that
    can be retried within the budget is a rotation of the queue: the item
    is back at the end of the queue, the size counter, both dictionaries
    and the completion event are as before the steal, one [notify] wakes a
    waiter, and only the stored result of the filepath has changed. *)
Theorem steal_then_retry_rotates MAX manager result work rest self :
  accounting_wf self →
  dropped manager self = false →
  _file_queue self = work :: rest →
  (language_set work →
   ∃ l, endpoint_config manager !! "language" = Some l
        ∧ lower l = lower (default "" (language work))) →
  can_retry result = true →
  attempts result + stored_attempts (filepath work) self - 1 < MAX →
  let stolen := final (steal_work manager self) in
  let r := notify_work_failure MAX (filepath work) manager result stolen in
  outcome r = Returns tt
  ∧ notify ∈ emitted r
  ∧ _file_queue (final r) = rest ++ [work]
  ∧ _file_queue_size (final r) = _file_queue_size self
  ∧ _in_progress (final r) = _in_progress self
  ∧ _in_progress_owner (final r) = _in_progress_owner self
  ∧ _batch_completion_evt (final r) = _batch_completion_evt self
  ∧ stored_attempts (filepath work) (final r)
    = attempts result + stored_attempts (filepath work) self.
Proof.
  intros Hwf Hdropped Hq Hlang Hretry Hbudget stolen r.
  pose proof Hwf as (Hsize & Hkeys & Hdom & Hpaths & Hqueue & Hdisj).
  rewrite Hq in Hsize, Hdisj. apply Forall_cons in Hdisj as [Hfresh _].
  assert (_file_queue_size self > 0) as Hpos by (cbn [length] in Hsize; lia).
  assert (_in_progress_owner self !! filepath work = None) as Hnone.
  { apply not_elem_of_dom. rewrite Hdom. by rewrite elem_of_list_to_set. }
  assert (stolen = handed_out manager work rest self) as ->.
  { subst stolen. rewrite steal_work_run, Hdropped, bool_decide_eq_true_2, Hq by done.
    cbn zeta. destruct (truthy (language work)) eqn:Ht; [|done].
    destruct (Hlang Ht) as (l & -> & Hl). by rewrite bool_decide_eq_false_2 by naive_solver. }
  assert (dropped manager (handed_out manager work rest self) = false) as Hdropped'.
  { by unfold dropped, handed_out in *. }
  assert (retry_granted MAX (filepath work) result (handed_out manager work rest self)
          = true) as Hgranted.
  { unfold retry_granted, handed_out. fields. rewrite Hretry. cbn [andb].
    apply bool_decide_eq_true_2. unfold merged, stored_attempts in *.
    destruct (_work_results self !! filepath work) as [[prev|]|]; cbn [attempts]; lia. }
  assert (notify_work_failure MAX (filepath work) manager result
            (handed_out manager work rest self)
          = mkRun (check_completion
                     (no_longer_in_progress (filepath work)
                        (requeued work
                           (failure_merged (filepath work) result
                              (handed_out manager work rest self)))))
              [log_debug "Placed work item back into queue since retriable."; notify]
              (Returns tt)) as Hrun.
  { rewrite notify_work_failure_run. cbn zeta. rewrite Hdropped', Hgranted.
    unfold handed_out at 1 2. fields.
    rewrite dict_get_set, decide_True, lookup_insert_eq by done. reflexivity. }
  subst r. rewrite Hrun. clear Hrun.
  unfold check_completion, batch_finished, no_longer_in_progress, requeued,
    failure_merged, handed_out. fields.
  rewrite (bool_decide_eq_false_2 (_file_queue_size self - 1 + 1 = 0)) by lia.
  cbn [andb]. fields. unfold stored_attempts. fields. rewrite lookup_insert_eq.
  split_and!; try done.
  - apply list_elem_of_further, list_elem_of_here.
  - lia.
  - by apply dict_del_set_fresh.
  - by rewrite delete_insert_id.
  - unfold merged. destruct (_work_results self !! filepath work) as [[prev|]|];
      cbn [attempts]; lia.
Qed.

(** ** Cancellation and stop, in full *)

(** X8. After the running batch is canceled, every endpoint manager that
    was current is silenced: [steal_work] answers it with the sentinel
    and its success and failure reports return without a signal and
    without touching the accounting, whatever they report. No caller at
    all is handed work from the canceled state. *)
Theorem cancel_silences_current_managers MAX batch_id manager path result self :
  _on_batch_id self = batch_id →
  _file_queue_size self = Z.of_nat (length (_file_queue self)) →
  manager ∈ _endpoint_managers self →
  let canceled := final (cancel_running_batch batch_id self) in
  let ok := notify_work_success path manager result canceled in
  let ko := notify_work_failure MAX path manager result canceled in
  steal_work manager canceled = mkRun canceled [] (Returns Sentinel)
  ∧ (outcome ok = Returns tt ∧ emitted ok = [] ∧ accounting (final ok) = accounting canceled)
  ∧ (outcome ko = Returns tt ∧ emitted ko = [] ∧ accounting (final ko) = accounting canceled)
  ∧ (∀ m work, outcome (steal_work m canceled) ≠ Returns (Work work)).
Proof.
  intros Hid Hsize Hin canceled ok ko.
  assert (dropped manager canceled = true ∧ _file_queue_size canceled = 0)
    as [Hdropped Hzero].
  { subst canceled. rewrite cancel_running_batch_run by done.
    rewrite bool_decide_eq_false_2 by (intros ?; done). fields. split; [|done].
    apply retired_dropped. unfold retired. fields.
    apply elem_of_union_r, elem_of_list_to_set. by apply list_elem_of_fmap_2. }
  subst ok ko. rewrite notify_work_success_run, notify_work_failure_run, !steal_work_run.
  cbn zeta. rewrite Hdropped. unfold accounting. fields. split_and!; try done.
  intros m work. rewrite steal_work_run. destruct (dropped m canceled); [done|].
  by rewrite bool_decide_eq_false_2 by lia.
Qed.

(** X9. A [request_stop] of the creator process whose configuration
    watcher stops, or is found stopped already, returns after one
    broadcast on the queue condition: the stop flag is up, the queue is
    drained to size 0, one stop sentinel is appended to the submission
    queue, the completion event and the gate of the summary thread are
    set, and every endpoint manager is asked to stop. The managers are
    not retired, and [_in_progress], [_in_progress_owner] and the results
    are left as they were. *)
Theorem request_stop_from_creator self :
  _file_queue_size self = Z.of_nat (length (_file_queue self)) →
  (∀ notifier errno, _config_notifier self = Some notifier →
                     stop_errno notifier = Some errno → errno = EBADF) →
  let r := request_stop (_creator_pid self) self in
  outcome r = Returns tt
  ∧ emitted r = [notify_all]
  ∧ _stop_requested (final r) = true
  ∧ _file_queue (final r) = []
  ∧ _file_queue_size (final r) = 0
  ∧ _submission_que (final r) = _submission_que self ++ [None]
  ∧ _batch_completion_evt (final r) = true
  ∧ _run_summary_thread_gate (final r) = true
  ∧ _endpoint_managers (final r) = em_request_stop <$> _endpoint_managers self
  ∧ Forall (fun m => em_stop_requested m = true) (_endpoint_managers (final r))
  ∧ _old_managers (final r) = _old_managers self
  ∧ _in_progress (final r) = _in_progress self
  ∧ _in_progress_owner (final r) = _in_progress_owner self
  ∧ _work_results (final r) = _work_results self.
Proof.
  intros Hsize Hnotifier r. subst r. rewrite request_stop_run.
  rewrite bool_decide_eq_false_2 by (intros ?; done).
  assert (config_notifier_stop_escapes self = None) as ->.
  { unfold config_notifier_stop_escapes.
    destruct (_config_notifier self) as [notifier|] eqn:Hn; [|done].
    destruct (stop_errno notifier) as [errno|] eqn:He; [|done].
    rewrite (Hnotifier notifier errno eq_refl He). by rewrite bool_decide_eq_false_2 by naive_solver. }
  rewrite decide_True by lia. unfold stopped. fields.
  rewrite Hsize, Nat2Z.id, drop_all. split_and!; try done; [lia|].
  apply Forall_fmap, Forall_forall. by intros m _.
Qed.

(** X10. When the configuration watcher fails to stop with an [OSError]
    other than [EBADF], [request_stop] of the creator process raises that
    error and nothing is stopped: the object is left exactly as it was.
    With [EBADF], the errno of a watcher that is stopped already, the
    stop goes through and the watcher stays recorded. *)
Theorem request_stop_notifier_failure notifier errno self :
  _config_notifier self = Some notifier →
  stop_errno notifier = Some errno →
  let r := request_stop (_creator_pid self) self in
  (errno ≠ EBADF → r = mkRun self [] (Raises (OSError errno)))
  ∧ (errno = EBADF →
     _file_queue_size self = Z.of_nat (length (_file_queue self)) →
     outcome r = Returns tt
     ∧ _stop_requested (final r) = true
     ∧ _config_notifier (final r) = Some notifier).
Proof.
  intros Hn He r. subst r. rewrite request_stop_run.
  rewrite bool_decide_eq_false_2 by (intros ?; done).
  unfold config_notifier_stop_escapes. rewrite Hn, He. split.
  - intros Hne. by rewrite bool_decide_eq_true_2.
  - intros -> Hsize. rewrite bool_decide_eq_false_2 by naive_solver.
    rewrite decide_True by lia. unfold stopped, config_notifier_after_stop. fields.
    by rewrite Hn, He.
Qed.

(** ** Summaries and the end of a batch *)

Lemma write_summary_information_emits writers write_run_summary write_retries
    log_conclusion_msg allow_fail self x :
  x ∈ emitted (write_summary_information writers write_run_summary write_retries
                 log_conclusion_msg allow_fail self) →
  ∃ msg, x = log_debug msg ∨ x = log_warning msg.
Proof.
  rewrite write_summary_information_run. destruct write_run_summary; cbn zeta.
  - destruct (summary_write_failure _ _ _ _); fields;
      destruct (truthy (_singleton_run_summary_path self)); cbn [app];
      rewrite ?elem_of_cons, ?elem_of_nil; naive_solver.
  - fields. by intros ?%elem_of_nil.
Qed.

(** X13. [write_summary_information] never changes the orchestrator.
    Asked not to write, it returns without calling a writer and without
    a log entry of its own. A [BatchNotFoundException] of the status provider is benign: the
    call returns without a warning even when failures are not allowed.
    The same exception out of the singleton file writer is a failure
    like any other: it is logged, and raised unless failures are
    allowed. *)
Theorem write_summary_information_benign writers write_run_summary write_retries
    log_conclusion_msg allow_fail self :
  let write := write_summary_information writers in
  final (write write_run_summary write_retries log_conclusion_msg allow_fail self) = self
  ∧ write false write_retries log_conclusion_msg allow_fail self
    = mkRun self [] (Returns tt)
  ∧ (truthy (_singleton_run_summary_path self) = false →
     set_run_summary writers (_on_batch_id self) (summary_json log_conclusion_msg self)
     = Some BatchNotFoundException →
     write true write_retries log_conclusion_msg allow_fail self
     = mkRun self [] (Returns tt))
  ∧ (∀ path, _singleton_run_summary_path self = Some path → path ≠ "" →
     write_json_file_atomic writers (summary_json log_conclusion_msg self) path
       write_retries
     = Some BatchNotFoundException →
     write true write_retries log_conclusion_msg allow_fail self
     = mkRun self
         [log_debug "Updating singleton run_summary";
          log_warning "Failed to write run_summary"]
         (if allow_fail then Returns tt else Raises BatchNotFoundException)).
Proof.
  intros write. subst write. rewrite !write_summary_information_run. cbn zeta.
  split_and!.
  - destruct write_run_summary; [|done]. by destruct (summary_write_failure _ _ _ _).
  - done.
  - intros Hpath Hanswer. unfold summary_write_failure. by rewrite Hpath, Hanswer.
  - intros path Hpath Hne Hanswer. unfold summary_write_failure.
    assert (truthy (_singleton_run_summary_path self) = true) as ->.
    { rewrite Hpath. cbn. apply negb_true_iff, String.eqb_neq. done. }
    rewrite Hpath. simpl default. by rewrite Hanswer.
Qed.

(** X15. The end of a batch in the master loop always returns and only
    lowers the gate of the summary thread. The batch is deleted exactly
    when it is found deleted at the end and marked done exactly when it
    is not; the results are concatenated exactly when the batch was not
    canceled and asks for combined results; and the deletion or the
    status change is issued after everything else, so that no status
    signal precedes the concatenation. *)
Theorem master_loop_end_reports writers request is_deleted_on_wake is_deleted_at_end self :
  let r := _master_thread_loop_end writers request is_deleted_on_wake is_deleted_at_end
             self in
  let id := batch_id request in
  outcome r = Returns tt
  ∧ final r = set_run_summary_thread_gate false self
  ∧ (delete_batch id ∈ emitted r ↔ is_deleted_at_end = true)
  ∧ (change_status_enum id done ∈ emitted r ↔ is_deleted_at_end = false)
  ∧ (write_single_output_json id ∈ emitted r
     ↔ is_deleted_on_wake = false ∧ combine_results request = true)
  ∧ ∃ before,
      emitted r
      = before ++ (if is_deleted_at_end then [delete_batch id]
                   else [change_status_enum id done;
                         log_info "Orchestrator: Updated batch status to Done"])
      ∧ ∀ x, x ∈ before →
             (∀ i, x ≠ delete_batch i) ∧ (∀ i status, x ≠ change_status_enum i status).
Proof.
  intros r id. subst r id. rewrite _master_thread_loop_end_run. fields.
  set (summary := emitted (write_summary_information writers true 10
                             (final_summary_logs_conclusion self) true self)).
  assert (∀ x, x ∈ summary → ∃ msg, x = log_debug msg ∨ x = log_warning msg) as Hlogs.
  { intros x. apply write_summary_information_emits. }
  set (concat := if negb is_deleted_on_wake && combine_results request
                 then [log_info "Orchestrator: Concatenating batch results to single file";
                       write_single_output_json (batch_id request)]
                 else []).
  assert (∀ x, x ∈ log_info (if is_deleted_on_wake
                              then "Orchestrator: Canceled processing batch"
                              else "Orchestrator: Completed batch") :: summary ++ concat →
               (∀ i, x ≠ delete_batch i) ∧ (∀ i status, x ≠ change_status_enum i status)
               ∧ (x = write_single_output_json (batch_id request)
                  → is_deleted_on_wake = false ∧ combine_results request = true))
    as Hbefore.
  { intros x. rewrite elem_of_cons, elem_of_app. intros [-> | [Hx | Hx]].
    - done.
    - destruct (Hlogs x Hx) as [msg [-> | ->]]; done.
    - subst concat. destruct is_deleted_on_wake, (combine_results request);
        cbn [negb andb] in Hx; rewrite ?elem_of_cons, ?elem_of_nil in Hx;
        naive_solver. }
  split_and!; try done.
  - rewrite elem_of_cons, !elem_of_app. split.
    + intros [? | [Hx | [Hx | Hx]]]; [done | | |].
      * destruct (Hbefore _ (list_elem_of_further _ _ _ (proj2 (elem_of_app _ _ _) (or_introl Hx))))
          as [Hno _]. by destruct (Hno (batch_id request)).
      * destruct (Hbefore _ (list_elem_of_further _ _ _ (proj2 (elem_of_app _ _ _) (or_intror Hx))))
          as [Hno _]. by destruct (Hno (batch_id request)).
      * destruct is_deleted_at_end; [done|].
        rewrite !elem_of_cons, elem_of_nil in Hx. naive_solver.
    + intros ->. right. right. right. apply list_elem_of_here.
  - rewrite elem_of_cons, !elem_of_app. split.
    + intros [? | [Hx | [Hx | Hx]]]; [done | | |].
      * destruct (Hbefore _ (list_elem_of_further _ _ _ (proj2 (elem_of_app _ _ _) (or_introl Hx))))
          as (_ & Hno & _). by destruct (Hno (batch_id request) done).
      * destruct (Hbefore _ (list_elem_of_further _ _ _ (proj2 (elem_of_app _ _ _) (or_intror Hx))))
          as (_ & Hno & _). by destruct (Hno (batch_id request) done).
      * destruct is_deleted_at_end; [|done].
        rewrite !elem_of_cons, elem_of_nil in Hx. naive_solver.
    + intros ->. right. right. right. apply list_elem_of_here.
  - rewrite elem_of_cons, !elem_of_app. split.
    + intros [? | [Hx | [Hx | Hx]]]; [done | | |].
      * destruct (Hlogs _ Hx) as [msg [? | ?]]; done.
      * eapply Hbefore; [|done]. apply list_elem_of_further, elem_of_app. by right.
      * destruct is_deleted_at_end; rewrite !elem_of_cons, elem_of_nil in Hx; naive_solver.
    + intros [-> Hcombine]. right. right. left. subst concat. rewrite Hcombine.
      cbn [negb andb]. apply list_elem_of_further, list_elem_of_here.
  - exists (log_info (if is_deleted_on_wake
                      then "Orchestrator: Canceled processing batch"
                      else "Orchestrator: Completed batch") :: summary ++ concat).
    split; [cbn [app]; by rewrite <- app_assoc|].
    intros x Hx. destruct (Hbefore x Hx) as (? & ? & _). done.
Qed.

(** ** The further properties at work on the example deployment *)

Lemma steal_work_hands_out_head_witness :
  dropped example_manager example_started = false
  ∧ _file_queue_size example_started > 0
  ∧ _file_queue example_started = [work_a; work_b]
  ∧ outcome (steal_work example_manager example_started) = Returns (Work work_a)
  ∧ _file_queue (final (steal_work example_manager example_started)) = [work_b].
Proof.
  assert (dropped example_manager example_started = false) as Hdropped
    by (vm_compute; reflexivity).
  assert (_file_queue_size example_started > 0) as Hsize by (vm_compute; reflexivity).
  assert (_file_queue example_started = [work_a; work_b]) as Hqueue
    by (vm_compute; reflexivity).
  assert (language_set work_a →
          ∃ l, endpoint_config example_manager !! "language" = Some l
               ∧ lower l = lower (default "" (language work_a))) as Hlang.
  { intros _. exists "en-US". split; vm_compute; reflexivity. }
  destruct (steal_work_hands_out_head example_manager example_started)
    as (_ & _ & _ & Hhead).
  destruct (Hhead work_a [work_b] Hdropped Hsize Hqueue Hlang) as (Hout & _ & Hq & _).
  exact (conj Hdropped (conj Hsize (conj Hqueue (conj Hout Hq)))).
Defined.

Lemma callbacks_on_unknown_filepath_witness :
  dropped example_manager example_running = false
  ∧ dict_get "z" (_in_progress example_running) = None
  ∧ outcome (notify_work_success "z" example_manager example_result example_running)
    = Raises (KeyError "z")
  ∧ outcome (notify_work_failure 2 "z" example_manager example_result example_running)
    = Raises (KeyError "z")
  ∧ stored_attempts "z"
      (final (notify_work_failure 2 "z" example_manager example_result example_running))
    = 1.
Proof.
  assert (dropped example_manager example_running = false) as Hdropped
    by (vm_compute; reflexivity).
  assert (dict_get "z" (_in_progress example_running) = None) as Hget
    by (vm_compute; reflexivity).
  destruct (callbacks_on_unknown_filepath 2 "z" example_manager example_result
              example_running Hdropped Hget) as (Hok & _ & Hko & Hstored & _).
  refine (conj Hdropped (conj Hget (conj Hok (conj Hko _)))).
  rewrite Hstored. vm_compute. reflexivity.
Defined.

Lemma notify_work_success_records_witness :
  dropped example_manager example_running = false
  ∧ dict_wf (_in_progress example_running)
  ∧ dict_get "a" (_in_progress example_running) = Some work_a
  ∧ _in_progress_owner example_running !! "a" = Some example_manager
  ∧ outcome (notify_work_success "a" example_manager example_result example_running)
    = Returns tt
  ∧ _file_queue (final (notify_work_success "a" example_manager example_result
                          example_running))
    = _file_queue example_running.
Proof.
  assert (dropped example_manager example_running = false) as Hdropped
    by (vm_compute; reflexivity).
  assert (dict_wf (_in_progress example_running)) as Hwf.
  { unfold dict_wf. by_evaluation. }
  assert (dict_get "a" (_in_progress example_running) = Some work_a) as Hget
    by (vm_compute; reflexivity).
  assert (_in_progress_owner example_running !! "a" = Some example_manager) as Hown
    by (vm_compute; reflexivity).
  destruct (notify_work_success_records "a" example_manager example_result work_a
              example_manager example_running Hdropped Hwf Hget Hown)
    as (Hout & _ & _ & _ & _ & Hq & _).
  exact (conj Hdropped (conj Hwf (conj Hget (conj Hown (conj Hout Hq))))).
Defined.

Lemma steal_then_retry_rotates_witness :
  accounting_wf example_started
  ∧ dropped example_manager example_started = false
  ∧ _file_queue example_started = [work_a; work_b]
  ∧ can_retry example_result = true
  ∧ attempts example_result + stored_attempts "a" example_started - 1 < 2
  ∧ _file_queue
      (final (notify_work_failure 2 "a" example_manager example_result
                (final (steal_work example_manager example_started))))
    = [work_b; work_a].
Proof.
  assert (accounting_wf example_started) as Hwf by by_evaluation.
  assert (dropped example_manager example_started = false) as Hdropped
    by (vm_compute; reflexivity).
  assert (_file_queue example_started = [work_a; work_b]) as Hqueue
    by (vm_compute; reflexivity).
  assert (language_set work_a →
          ∃ l, endpoint_config example_manager !! "language" = Some l
               ∧ lower l = lower (default "" (language work_a))) as Hlang.
  { intros _. exists "en-US". split; vm_compute; reflexivity. }
  assert (can_retry example_result = true) as Hretry by reflexivity.
  assert (attempts example_result + stored_attempts (filepath work_a) example_started - 1
          < 2) as Hbudget by (vm_compute; reflexivity).
  destruct (steal_then_retry_rotates 2 example_manager example_result work_a [work_b]
              example_started Hwf Hdropped Hqueue Hlang Hretry Hbudget)
    as (_ & _ & Hq & _).
  exact (conj Hwf (conj Hdropped (conj Hqueue (conj Hretry (conj Hbudget Hq))))).
Defined.

Lemma cancel_silences_current_managers_witness :
  _on_batch_id example_running = 7
  ∧ _file_queue_size example_running = Z.of_nat (length (_file_queue example_running))
  ∧ example_manager ∈ _endpoint_managers example_running
  ∧ outcome (steal_work example_manager example_canceled) = Returns Sentinel
  ∧ accounting (final (notify_work_success "a" example_manager example_result
                         example_canceled))
    = accounting example_canceled.
Proof.
  assert (_on_batch_id example_running = 7) as Hid by reflexivity.
  assert (_file_queue_size example_running
          = Z.of_nat (length (_file_queue example_running))) as Hsize by reflexivity.
  assert (example_manager ∈ _endpoint_managers example_running) as Hin.
  { vm_compute. apply list_elem_of_here. }
  destruct (cancel_silences_current_managers 2 7 example_manager "a" example_result
              example_running Hid Hsize Hin) as (Hsteal & (_ & _ & Hok) & _).
  refine (conj Hid (conj Hsize (conj Hin (conj _ Hok)))).
  unfold example_canceled, example_perform. cbn [perform].
  change (final ((cancel_running_batch 7 ;; ret tt) example_running))
    with (final (cancel_running_batch 7 example_running)) in *.
  by rewrite Hsteal.
Defined.

Lemma request_stop_from_creator_witness :
  _file_queue_size example_running = Z.of_nat (length (_file_queue example_running))
  ∧ _creator_pid example_running = 1
  ∧ outcome (request_stop 1 example_running) = Returns tt
  ∧ _in_progress (final (request_stop 1 example_running)) = _in_progress example_running
  ∧ _old_managers (final (request_stop 1 example_running)) = _old_managers example_running.
Proof.
  assert (_file_queue_size example_running
          = Z.of_nat (length (_file_queue example_running))) as Hsize by reflexivity.
  assert (∀ notifier errno, _config_notifier example_running = Some notifier →
                            stop_errno notifier = Some errno → errno = EBADF) as Hnotifier.
  { intros notifier errno Hn. vm_compute in Hn. discriminate. }
  destruct (request_stop_from_creator example_running Hsize Hnotifier)
    as (Hout & _ & _ & _ & _ & _ & _ & _ & _ & _ & Hold & Hip & _).
  exact (conj Hsize (conj eq_refl (conj Hout (conj Hip Hold)))).
Defined.

(** A watcher whose [stop] fails with a permission error, and one that is
    stopped already. *)
Lemma request_stop_notifier_failure_witness :
  let broken := set_config_notifier (Some (mkThreadedNotifier (Some 13))) example_running in
  let stale := set_config_notifier (Some (mkThreadedNotifier (Some EBADF))) example_running in
  13 ≠ EBADF
  ∧ request_stop 1 broken = mkRun broken [] (Raises (OSError 13))
  ∧ outcome (request_stop 1 stale) = Returns tt
  ∧ _stop_requested (final (request_stop 1 stale)) = true.
Proof.
  cbn zeta.
  assert (13 ≠ EBADF) as Hne by (vm_compute; discriminate).
  destruct (request_stop_notifier_failure (mkThreadedNotifier (Some 13)) 13
              (set_config_notifier (Some (mkThreadedNotifier (Some 13))) example_running)
              eq_refl eq_refl) as [Hraise _].
  destruct (request_stop_notifier_failure (mkThreadedNotifier (Some EBADF)) EBADF
              (set_config_notifier (Some (mkThreadedNotifier (Some EBADF))) example_running)
              eq_refl eq_refl) as [_ Hpass].
  destruct (Hpass eq_refl eq_refl) as (Hout & Hstop & _).
  exact (conj Hne (conj (Hraise Hne) (conj Hout Hstop))).
Defined.

Lemma write_summary_information_benign_witness :
  let gone := mkSummaryWriters (fun _ _ _ => None)
                (fun _ _ => Some BatchNotFoundException) in
  truthy (_singleton_run_summary_path example_running) = false
  ∧ write_summary_information gone true 5 false false example_running
    = mkRun example_running [] (Returns tt).
Proof.
  cbn zeta.
  assert (truthy (_singleton_run_summary_path example_running) = false) as Hpath
    by reflexivity.
  refine (conj Hpath _).
  apply (write_summary_information_benign
           (mkSummaryWriters (fun _ _ _ => None) (fun _ _ => Some BatchNotFoundException))
           true 5 false false example_running); [exact Hpath | reflexivity].
Defined.

(** ** What no call takes back *)

Lemma never_undone_refl self : never_undone self self.
Proof. unfold never_undone. split_and!; done. Qed.

Lemma never_undone_trans a b c : never_undone a b → never_undone b c → never_undone a c.
Proof.
  unfold never_undone. intros (? & ? & ? & ? & ?) (? & ? & ? & ? & ?).
  split_and!; [set_solver | auto | congruence | congruence | lia].
Qed.

Lemma increasing_bind {A B} (c : M A) (k : A → M B) :
  increasing c → (∀ a, increasing (k a)) → increasing (bind c k).
Proof.
  intros Hc Hk self. unfold bind. specialize (Hc self).
  destruct (c self) as [s1 e1 [a| | |]]; try done.
  specialize (Hk a s1). destruct (k a s1) as [s2 e2 o2].
  by eapply never_undone_trans.
Qed.

Lemma increasing_try_except {A} (c : M A) (h : Exception → M A) :
  increasing c → (∀ e, increasing (h e)) → increasing (try_except c h).
Proof.
  intros Hc Hh self. unfold try_except. specialize (Hc self).
  destruct (c self) as [s1 e1 [a|e| |]]; try done.
  specialize (Hh e s1). destruct (h e s1) as [s2 e2 o2].
  by eapply never_undone_trans.
Qed.

Lemma increasing_get_self {B} (k : Orchestrator → M B) :
  (∀ self, never_undone self (final (k self self))) → increasing (bind get_self k).
Proof. intros Hk self. unfold bind, get_self. specialize (Hk self). by destruct (k self self). Qed.

Lemma never_undone_bind {A B} (c : M A) (k : A → M B) self :
  never_undone self (final (c self)) → (∀ a, increasing (k a)) →
  never_undone self (final (bind c k self)).
Proof.
  intros Hc Hk. unfold bind.
  destruct (c self) as [s1 e1 [a| | |]]; try done.
  specialize (Hk a s1). destruct (k a s1) as [s2 e2 o2].
  by eapply never_undone_trans.
Qed.

Lemma increasing_ret {A} (a : A) : increasing (ret a).
Proof. intros self. apply never_undone_refl. Qed.

Lemma increasing_raise {A} e : increasing (raise (A := A) e).
Proof. intros self. apply never_undone_refl. Qed.

Lemma increasing_signal x : increasing (signal x).
Proof. intros self. apply never_undone_refl. Qed.

Lemma increasing_wait {A} : increasing (wait (A := A)).
Proof. intros self. apply never_undone_refl. Qed.

Lemma increasing_block {A} : increasing (block (A := A)).
Proof. intros self. apply never_undone_refl. Qed.

Lemma increasing_the_self : increasing get_self.
Proof. intros self. apply never_undone_refl. Qed.

Lemma increasing_assign f :
  (∀ self, never_undone self (f self)) → increasing (assign f).
Proof. intros Hf self. apply Hf. Qed.

Create HintDb increasing.

#[local] Hint Resolve increasing_ret increasing_raise increasing_signal increasing_wait
  increasing_block increasing_the_self : increasing.

(** An assignment to a field that [never_undone] does not read, or that
    only adds to the retired set. *)
Ltac untouched :=
  intros ?; unfold never_undone; fields;
  split_and!; solve [done | set_solver | lia].

(** One step through the body of a method. *)
Ltac increasing_step :=
  lazymatch goal with
  | |- increasing (bind _ _) => apply increasing_bind; [|intros ?]
  | |- increasing (try_except _ _) => apply increasing_try_except; [|intros ?]
  | |- increasing (assign _) => apply increasing_assign; untouched
  | |- increasing (if ?b then _ else _) => destruct b
  | |- increasing (match ?x with _ => _ end) => destruct x
  | |- increasing _ => solve [auto with increasing]
  end.

Ltac increasing_body := cbn zeta; repeat (increasing_step; cbn zeta).

Lemma increasing_file_queue_put work : increasing (file_queue_put work).
Proof. unfold file_queue_put. increasing_body. Qed.

Lemma increasing_file_queue_get : increasing file_queue_get.
Proof. unfold file_queue_get. increasing_body. Qed.

#[local] Hint Resolve increasing_file_queue_put increasing_file_queue_get : increasing.

Lemma increasing_drain_file_queue n : increasing (drain_file_queue n).
Proof. induction n as [|n IH]; cbn [drain_file_queue]; increasing_body. Qed.

Lemma increasing_del_in_progress path : increasing (del_in_progress path).
Proof. unfold del_in_progress. increasing_body. Qed.

Lemma increasing_del_in_progress_owner path : increasing (del_in_progress_owner path).
Proof. unfold del_in_progress_owner. increasing_body. Qed.

Lemma increasing_batch_completion_evt_set : increasing batch_completion_evt_set.
Proof. unfold batch_completion_evt_set. increasing_body. Qed.

Lemma increasing_merge_results path result : increasing (_merge_results path result).
Proof. unfold _merge_results. increasing_body. Qed.

#[local] Hint Resolve increasing_drain_file_queue increasing_del_in_progress
  increasing_del_in_progress_owner increasing_batch_completion_evt_set
  increasing_merge_results : increasing.

Lemma increasing_notify_work_success path manager result :
  increasing (notify_work_success path manager result).
Proof. unfold notify_work_success. increasing_body. Qed.

Lemma increasing_notify_work_failure MAX path manager result :
  increasing (notify_work_failure MAX path manager result).
Proof. unfold notify_work_failure. increasing_body. Qed.

Lemma increasing_steal_work manager : increasing (steal_work manager).
Proof. unfold steal_work. increasing_body. Qed.

Lemma increasing_cancel_running_batch batch_id : increasing (cancel_running_batch batch_id).
Proof. unfold cancel_running_batch, stop_and_retire_all. increasing_body. Qed.

Lemma increasing_request_stop pid : increasing (request_stop pid).
Proof. unfold request_stop, config_notifier_stop. increasing_body. Qed.

Lemma increasing_write_summary_information writers write_run_summary write_retries
    log_conclusion_msg allow_fail :
  increasing (write_summary_information writers write_run_summary write_retries
                log_conclusion_msg allow_fail).
Proof. unfold write_summary_information, call. increasing_body. Qed.

#[local] Hint Resolve increasing_write_summary_information
  increasing_cancel_running_batch : increasing.

Lemma increasing_run_summary_loop writers : increasing (_run_summary_loop writers).
Proof. unfold _run_summary_loop. increasing_body. Qed.

Lemma increasing_diff_configuration valid gen checker processor config deleted new :
  increasing (diff_configuration valid gen checker processor config deleted new).
Proof.
  revert deleted new. induction config as [|[ep_name ep_config] config IH];
    intros deleted new; cbn [diff_configuration]; [increasing_body|].
  unfold new_EndpointManager. cbn zeta.
  destruct (match deleted !! ep_name with Some _ => _ | None => _ end); [apply IH|].
  apply increasing_bind; [increasing_body | intros em; apply IH].
Qed.

Lemma increasing_unassign_deleted deleted items wip wipo :
  increasing (unassign_deleted deleted items wip wipo).
Proof.
  revert wip wipo. induction items as [|[path work] items IH]; intros wip wipo;
    cbn [unassign_deleted]; [increasing_body|].
  apply increasing_bind; [increasing_body | intros s].
  destruct (_in_progress_owner s !! path) as [owner|]; [|increasing_body].
  cbn zeta. case_bool_decide; [|apply IH].
  apply increasing_bind; [increasing_body | intros _].
  apply increasing_bind; [increasing_body | intros _]. apply IH.
Qed.

#[local] Hint Resolve increasing_diff_configuration increasing_unassign_deleted
  : increasing.

Lemma increasing_hotswap_endpoint_managers valid load_configuration :
  increasing (hotswap_endpoint_managers valid load_configuration).
Proof.
  unfold hotswap_endpoint_managers.
  destruct load_configuration as [config_data|]; [|increasing_body].
  apply increasing_get_self. intros self.
  destruct (_stop_requested self); [apply never_undone_refl|]. cbn zeta.
  apply never_undone_bind.
  { unfold assign, never_undone. fields. split_and!; try done. lia. }
  intros _. unfold stop_deleted. increasing_body.
Qed.

Lemma increasing_enqueue_work_items works : increasing (enqueue_work_items works).
Proof. induction works as [|work works IH]; cbn [enqueue_work_items]; increasing_body. Qed.

#[local] Hint Resolve increasing_hotswap_endpoint_managers increasing_enqueue_work_items
  : increasing.

Lemma increasing_start_batch writers request : increasing (start_batch writers request).
Proof. unfold start_batch, _master_finalize, assert. increasing_body. Qed.

#[local] Hint Resolve increasing_start_batch : increasing.

Lemma increasing_master_thread_loop_begin writers valid d1 load d2 :
  increasing (_master_thread_loop_begin writers valid d1 load d2).
Proof. unfold _master_thread_loop_begin. increasing_body. Qed.

Lemma increasing_master_thread_loop_end writers request d1 d2 :
  increasing (_master_thread_loop_end writers request d1 d2).
Proof. unfold _master_thread_loop_end. increasing_body. Qed.

(** X7. No call ever takes a manager out of the retired set or takes a
    requested stop back, whatever the state it runs in and however it
    ends; the creator process and the singleton summary path never
    change and the generation counter never goes down. Hence a manager
    whose callbacks are dropped stays dropped. *)
Theorem dropped_is_permanent MAX writers valid c self :
  let after := final (perform MAX writers valid c self) in
  never_undone self after
  ∧ ∀ manager, dropped manager self = true → dropped manager after = true.
Proof.
  intros after.
  assert (never_undone self after) as Hafter.
  { subst after. revert self.
    change (increasing (perform MAX writers valid c)).
    destruct c; cbn [perform]; try increasing_body;
      first [ apply increasing_notify_work_success
            | apply increasing_notify_work_failure
            | apply increasing_request_stop
            | apply increasing_master_thread_loop_end
            | apply increasing_run_summary_loop
            | apply increasing_steal_work
            | apply increasing_master_thread_loop_begin ]. }
  split; [done|]. intros manager. destruct Hafter as (Hold & Hstop & _).
  unfold dropped. intros [Hin | Hs]%orb_true_iff.
  - apply bool_decide_eq_true_1 in Hin. rewrite bool_decide_eq_true_2; [done|]. by apply Hold.
  - rewrite (Hstop Hs). apply orb_true_r.
Qed.

(** ** The diff of a hot swap *)

Lemma filter_ext_elem {A} (P Q : A → Prop) `{!∀ x, Decision (P x)}
    `{!∀ x, Decision (Q x)} (l : list A) :
  (∀ x, x ∈ l → (P x ↔ Q x)) → filter P l = filter Q l.
Proof.
  induction l as [|x l IH]; intros Hext; [done|].
  rewrite !filter_cons. rewrite IH by (intros y Hy; apply Hext; by right).
  destruct (decide (P x)) as [HP|HP], (decide (Q x)) as [HQ|HQ]; try done;
    exfalso; [apply HQ | apply HP]; by apply (Hext x); [left|].
Qed.

Lemma endpoint_preserved_delete processor by_name e entry :
  entry.1 ≠ e →
  endpoint_preserved processor (delete e by_name) entry
  = endpoint_preserved processor by_name entry.
Proof. intros Hne. unfold endpoint_preserved. by rewrite lookup_delete_ne by done. Qed.

Lemma endpoints_delete processor by_name e config :
  e ∉ config.*1 →
  preserved_endpoints processor (delete e by_name) config
  = preserved_endpoints processor by_name config
  ∧ replaced_endpoints processor (delete e by_name) config
    = replaced_endpoints processor by_name config.
Proof.
  intros He.
  assert (∀ entry, entry ∈ config → entry.1 ≠ e) as Hne.
  { intros entry Hin Heq. apply He. rewrite <- Heq. by apply list_elem_of_fmap_2. }
  unfold preserved_endpoints, replaced_endpoints.
  split; apply filter_ext_elem; intros entry Hin; cbn beta;
    by rewrite (endpoint_preserved_delete processor by_name e entry (Hne entry Hin)).
Qed.

(** The loop over the configuration neither reads nor changes the
    object; it fails when an entry that needs a new manager is refused by
    the constructor, and otherwise takes the kept endpoints out of
    [deleted_managers] and makes one manager for every other entry, in
    the order of the configuration. *)
Lemma diff_configuration_closed valid gen checker processor config deleted new self :
  NoDup config.*1 →
  diff_configuration valid gen checker processor config deleted new self
  = mkRun self []
      (if forallb (fun entry => valid entry.2) (replaced_endpoints processor deleted config)
       then Returns
              (foldl (fun d entry => delete entry.1 d) deleted
                 (preserved_endpoints processor deleted config),
               new ++ (manager_of_generation gen checker processor
                         <$> replaced_endpoints processor deleted config))
       else Raises (OtherException "EndpointManager")).
Proof.
  revert deleted new. induction config as [|[e cfg] config IH]; intros deleted new Hnodup.
  - cbn. unfold ret. by rewrite app_nil_r.
  - cbn [fmap list_fmap fst] in Hnodup. apply NoDup_cons in Hnodup as [He Hnodup].
    cbn [diff_configuration].
    unfold preserved_endpoints, replaced_endpoints. rewrite !filter_cons.
    change (match deleted !! e with
            | Some em =>
                bool_decide (cfg = endpoint_config em)
                && bool_decide (work_item_processor em = processor)
                && negb (em_stop_requested em)
            | None => false
            end) with (endpoint_preserved processor deleted (e, cfg)).
    destruct (endpoint_preserved processor deleted (e, cfg)) eqn:Hp.
    + rewrite (decide_True (P := true = true)), (decide_False (P := true = false)) by done.
      cbn [foldl fst].
      rewrite IH by done.
      destruct (endpoints_delete processor deleted e config He) as [-> ->]. done.
    + rewrite (decide_False (P := false = true)), (decide_True (P := false = false)) by done.
      cbn [forallb fmap list_fmap snd].
      unfold new_EndpointManager. destruct (valid cfg); cbn [andb].
      * unfold bind at 1. unfold ret at 1. rewrite IH by done. fields.
        destruct (forallb _ _); [|done]. cbn [fmap list_fmap].
        by rewrite <- app_assoc.
      * reflexivity.
Qed.

Lemma hotswap_diff_closed valid config self :
  NoDup config.*1 →
  let by_name := managers_by_endpoint_name (_endpoint_managers self) in
  let processor := work_item_processor_for self in
  outcome (hotswap_diff valid config self)
  = if forallb (fun entry => valid entry.2) (replaced_endpoints processor by_name config)
    then Returns
           (foldl (fun d entry => delete entry.1 d) by_name
              (preserved_endpoints processor by_name config),
            manager_of_generation (_endpoint_generation self) (ep_status_checker_for self)
              processor <$> replaced_endpoints processor by_name config)
    else Raises (OtherException "EndpointManager").
Proof.
  intros Hnodup by_name processor. unfold hotswap_diff.
  rewrite diff_configuration_closed by done. fields. done.
Qed.

(** ** Hot swap, in full *)

Lemma managers_by_endpoint_name_snoc ems em :
  managers_by_endpoint_name (ems ++ [em])
  = <[endpoint_name em := em]> (managers_by_endpoint_name ems).
Proof. unfold managers_by_endpoint_name. by rewrite foldl_app. Qed.

Lemma managers_by_endpoint_name_Some ems e em :
  managers_by_endpoint_name ems !! e = Some em → em ∈ ems ∧ endpoint_name em = e.
Proof.
  induction ems as [|m ems IH] using rev_ind.
  - unfold managers_by_endpoint_name. cbn. by rewrite lookup_empty.
  - rewrite managers_by_endpoint_name_snoc.
    destruct (decide (endpoint_name m = e)) as [<-|Hne].
    + rewrite lookup_insert_eq. intros [= <-]. split; [|done].
      apply elem_of_app. right. apply list_elem_of_here.
    + rewrite lookup_insert_ne by done. intros [Hin He]%IH. split; [|done].
      apply elem_of_app. by left.
Qed.

Lemma managers_by_endpoint_name_is_Some ems m :
  m ∈ ems → is_Some (managers_by_endpoint_name ems !! endpoint_name m).
Proof.
  induction ems as [|m' ems IH] using rev_ind; [by intros ?%elem_of_nil|].
  rewrite managers_by_endpoint_name_snoc, elem_of_app, list_elem_of_singleton.
  destruct (decide (endpoint_name m' = endpoint_name m)) as [Heq|Hne].
  - intros _. rewrite Heq, lookup_insert_eq. by eexists.
  - rewrite lookup_insert_ne by done. intros [Hin | ->]; [by apply IH | done].
Qed.

(** X11. In a state that meets the invariants of the data model a hot
    swap never raises. When the configuration does not load it logs the
    error and changes nothing; once a stop is requested it does nothing
    at all; and when the constructor refuses an entry that needs a new
    manager it logs the error and only burns a generation number: no
    manager is stopped or retired, and the queue and the work in progress
    stay as they are. *)
Theorem hotswap_never_raises valid load_configuration self :
  accounting_wf self →
  let r := hotswap_endpoint_managers valid load_configuration self in
  outcome r = Returns tt
  ∧ (load_configuration = None →
     r = mkRun self [log_error "Invalid endpoint configuration file"] (Returns tt))
  ∧ (∀ config_data, load_configuration = Some config_data →
       _stop_requested self = true → r = mkRun self [] (Returns tt))
  ∧ (∀ config_data entry,
       load_configuration = Some config_data →
       _stop_requested self = false →
       NoDup config_data.*1 →
       entry ∈ replaced_endpoints (work_item_processor_for self)
                 (managers_by_endpoint_name (_endpoint_managers self)) config_data →
       valid entry.2 = false →
       r = mkRun (set_endpoint_generation (_endpoint_generation self + 1) self)
             [log_error "Caught Exception reading config"] (Returns tt)).
Proof.
  intros Hwf r. subst r.
  rewrite hotswap_endpoint_managers_run
    by (by apply accounting_wf_owners || by destruct Hwf as (_ & ? & _)).
  split_and!.
  - destruct load_configuration as [config_data|]; [|done].
    destruct (_stop_requested self); [done|].
    by destruct (outcome (hotswap_diff valid config_data self)) as [[d n]| | |].
  - by intros ->.
  - by intros config_data -> ->.
  - intros config_data entry -> -> Hnodup Hentry Hinvalid.
    rewrite hotswap_diff_closed by done. cbn zeta.
    assert (forallb (fun entry => valid entry.2)
              (replaced_endpoints (work_item_processor_for self)
                 (managers_by_endpoint_name (_endpoint_managers self)) config_data)
            = false) as ->; [|done].
    apply not_true_iff_false. intros Hall%Is_true_true_2%forallb_True.
    rewrite Forall_forall in Hall. specialize (Hall entry Hentry).
    rewrite Hinvalid in Hall. done.
Qed.

(** X12. A hot swap with a configuration that loads, names no endpoint
    twice and is accepted by the constructor leaves every configured
    endpoint served: a manager with that endpoint name and exactly that
    configuration, with the work item processor of the batch type at
    hand, that was not asked to stop. A manager whose endpoint is
    configured as before, with the same processor type and not stopped,
    is kept as it is; every other manager is retired, and whoever serves
    its endpoint afterwards is a manager of the new generation; every
    entry that is not served by a kept manager gets a new, started manager
    named after the generation; and all managers left serve a configured
    endpoint and carry the status checker of the batch type at hand. *)
Theorem hotswap_serves_configuration valid config_data self :
  accounting_wf self →
  _stop_requested self = false →
  NoDup config_data.*1 →
  (∀ entry, entry ∈ config_data → valid entry.2 = true) →
  let r := hotswap_endpoint_managers valid (Some config_data) self in
  let checker := ep_status_checker_for self in
  let processor := work_item_processor_for self in
  let by_name := managers_by_endpoint_name (_endpoint_managers self) in
  let kept := (preserved_endpoints processor by_name config_data).*1 in
  outcome r = Returns tt
  ∧ _endpoint_generation (final r) = _endpoint_generation self + 1
  ∧ (∀ entry, entry ∈ config_data →
       ∃ m, m ∈ _endpoint_managers (final r)
            ∧ endpoint_name m = entry.1 ∧ endpoint_config m = entry.2
            ∧ work_item_processor m = processor ∧ em_stop_requested m = false)
  ∧ (∀ m, m ∈ _endpoint_managers (final r) →
       endpoint_name m ∈ config_data.*1 ∧ endpoint_status_checker m = checker)
  ∧ (∀ m, m ∈ _endpoint_managers self → endpoint_name m ∈ kept →
       em_set_endpoint_status_checker checker m ∈ _endpoint_managers (final r))
  ∧ (∀ m, m ∈ _endpoint_managers self → endpoint_name m ∉ kept →
       name m ∈ _old_managers (final r)
       ∧ ∀ m', m' ∈ _endpoint_managers (final r) →
               endpoint_name m' = endpoint_name m →
               name m' = "HotswapGen" +:+ pretty (_endpoint_generation self) +:+ "_"
                         +:+ endpoint_name m)
  ∧ (∀ entry, entry ∈ replaced_endpoints processor by_name config_data →
       em_set_endpoint_status_checker checker
         (em_start (manager_of_generation (_endpoint_generation self) checker processor
                      entry))
       ∈ _endpoint_managers (final r))
  ∧ _old_managers self ⊆ _old_managers (final r).
Proof.
  intros Hwf Hstop Hnodup Hvalid r checker processor by_name kept. subst r.
  rewrite hotswap_endpoint_managers_run
    by (by apply accounting_wf_owners || by destruct Hwf as (_ & ? & _)).
  rewrite Hstop, hotswap_diff_closed by done. cbn zeta.
  fold processor by_name checker.
  assert (forallb (fun entry => valid entry.2)
            (replaced_endpoints processor by_name config_data) = true) as ->.
  { apply Is_true_true_1, forallb_True, Forall_forall. intros entry Hin.
    apply Is_true_true_2, Hvalid.
    by apply list_elem_of_filter in Hin as [_ Hin]. }
  set (deleted := foldl (fun d entry => delete entry.1 d) by_name
                    (preserved_endpoints processor by_name config_data)).
  set (new := manager_of_generation (_endpoint_generation self) checker processor
                <$> replaced_endpoints processor by_name config_data).
  assert (∀ e, deleted !! e = if decide (e ∈ kept) then None else by_name !! e)
    as Hdeleted.
  { intros e. subst deleted kept. apply lookup_foldl_delete. }
  assert (∀ m, m ∈ _endpoint_managers self →
               is_Some (deleted !! endpoint_name m) ↔ endpoint_name m ∉ kept)
    as Hgone.
  { intros m Hm. rewrite Hdeleted. case_decide.
    - split; [by intros [? ?] | done].
    - split; [done|]. intros _. by apply managers_by_endpoint_name_is_Some. }
  assert (∀ m, m ∈ _endpoint_managers (swapped deleted new self) ↔
               (∃ m0, m0 ∈ _endpoint_managers self ∧ endpoint_name m0 ∈ kept
                      ∧ m = em_set_endpoint_status_checker checker m0)
               ∨ (∃ entry, entry ∈ replaced_endpoints processor by_name config_data
                           ∧ m = em_set_endpoint_status_checker checker
                                   (em_start (manager_of_generation
                                                (_endpoint_generation self) checker
                                                processor entry))))
    as Hmanagers.
  { intros m. unfold swapped. fields. fold checker. split.
    - intros (m1 & -> & Hm1)%list_elem_of_fmap.
      apply elem_of_app in Hm1 as [Hm1 | Hm1].
      + apply list_elem_of_filter in Hm1 as [Hkeep Hm1].
        apply list_elem_of_fmap in Hm1 as (m0 & -> & Hm0).
        left. exists m0. destruct (decide (endpoint_name m0 ∈ kept)) as [Hk|Hk].
        * rewrite bool_decide_eq_false_2 by (rewrite Hgone by done; naive_solver).
          done.
        * exfalso. apply Hkeep. rewrite bool_decide_eq_true_2 by (by apply Hgone).
          cbn [endpoint_name em_request_stop]. by apply Hgone.
      + apply list_elem_of_fmap in Hm1 as (m2 & -> & Hm2). subst new.
        apply list_elem_of_fmap in Hm2 as (entry & -> & Hentry).
        right. by exists entry.
    - intros [(m0 & Hm0 & Hk & ->) | (entry & Hentry & ->)].
      + assert (¬ is_Some (deleted !! endpoint_name m0)) as Hkeep
          by (rewrite Hgone by done; naive_solver).
        apply list_elem_of_fmap_2, elem_of_app. left.
        apply list_elem_of_filter. split; [done|].
        apply list_elem_of_fmap. exists m0. by rewrite bool_decide_eq_false_2.
      + apply list_elem_of_fmap_2, elem_of_app. right.
        apply list_elem_of_fmap_2. subst new. by apply list_elem_of_fmap_2. }
  fields. split_and!.
  - done.
  - unfold swapped. by fields.
  - intros entry Hentry.
    destruct (endpoint_preserved processor by_name entry) eqn:Hp.
    + pose proof Hp as Hp'. unfold endpoint_preserved in Hp'.
      destruct (by_name !! entry.1) as [em|] eqn:Hem; [|done].
      apply andb_prop in Hp' as [[Hcfg Hproc]%andb_prop Hlive].
      apply bool_decide_eq_true_1 in Hcfg, Hproc. apply negb_true_iff in Hlive.
      apply managers_by_endpoint_name_Some in Hem as [Hin Hname].
      exists (em_set_endpoint_status_checker checker em). split_and!; try done.
      apply Hmanagers. left. exists em. split_and!; [done| |done].
      rewrite Hname. subst kept. apply list_elem_of_fmap_2.
      by apply list_elem_of_filter.
    + eexists. split.
      { apply Hmanagers. right. exists entry. split; [|done].
        by apply list_elem_of_filter. }
      done.
  - intros m [(m0 & Hm0 & Hk & ->) | (entry & Hentry & ->)]%Hmanagers.
    + split; [|done]. cbn [endpoint_name em_set_endpoint_status_checker].
      subst kept. apply list_elem_of_fmap in Hk as (entry & -> & Hentry).
      apply list_elem_of_filter in Hentry as [_ Hentry]. by apply list_elem_of_fmap_2.
    + split; [|done]. cbn [endpoint_name em_set_endpoint_status_checker em_start
                            manager_of_generation].
      apply list_elem_of_filter in Hentry as [_ Hentry]. by apply list_elem_of_fmap_2.
  - intros m Hm Hk. apply Hmanagers. left. by exists m.
  - intros m Hm Hk. split.
    + unfold swapped. fields. apply elem_of_union_r, elem_of_list_to_set.
      apply list_elem_of_fmap_2, list_elem_of_filter. split; [by apply Hgone | done].
    + intros m' [(m0 & Hm0 & Hk0 & ->) | (entry & Hentry & ->)]%Hmanagers.
      * cbn [endpoint_name em_set_endpoint_status_checker]. intros Heq.
        rewrite Heq in Hk0. done.
      * cbn [endpoint_name name em_set_endpoint_status_checker em_start
             manager_of_generation]. by intros ->.
  - intros entry Hentry. apply Hmanagers. right. by exists entry.
  - unfold swapped. fields. set_solver.
Qed.

Lemma dropped_is_permanent_witness :
  dropped example_manager example_canceled = true
  ∧ dropped example_manager
      (final (example_perform (HotswapEndpointManagers (Some example_config))
                example_canceled))
    = true.
Proof.
  assert (dropped example_manager example_canceled = true) as Hdropped
    by (vm_compute; reflexivity).
  refine (conj Hdropped _).
  apply (dropped_is_permanent 2 example_writers example_valid
           (HotswapEndpointManagers (Some example_config)) example_canceled).
  exact Hdropped.
Defined.

Lemma hotswap_never_raises_witness :
  accounting_wf example_running
  ∧ _stop_requested example_running = false
  ∧ strict_valid ∅ = false
  ∧ hotswap_endpoint_managers strict_valid (Some broken_config) example_running
    = mkRun (set_endpoint_generation 3 example_running)
        [log_error "Caught Exception reading config"] (Returns tt).
Proof.
  assert (accounting_wf example_running) as Hwf by by_evaluation.
  assert (_stop_requested example_running = false) as Hstop by reflexivity.
  assert (strict_valid ∅ = false) as Hinvalid by (vm_compute; reflexivity).
  assert (NoDup broken_config.*1) as Hnodup by by_evaluation.
  assert (("E9", ∅) ∈ replaced_endpoints (work_item_processor_for example_running)
            (managers_by_endpoint_name (_endpoint_managers example_running))
            broken_config) as Hentry.
  { apply list_elem_of_filter. split; [vm_compute; reflexivity|].
    apply list_elem_of_further, list_elem_of_here. }
  destruct (hotswap_never_raises strict_valid (Some broken_config) example_running Hwf)
    as (_ & _ & _ & Hrefused).
  refine (conj Hwf (conj Hstop (conj Hinvalid _))).
  exact (Hrefused broken_config ("E9", ∅) eq_refl Hstop Hnodup Hentry Hinvalid).
Defined.

Lemma hotswap_serves_configuration_witness :
  accounting_wf example_running
  ∧ _stop_requested example_running = false
  ∧ NoDup french_config.*1
  ∧ example_manager ∈ _endpoint_managers example_running
  ∧ outcome (hotswap_endpoint_managers example_valid (Some french_config) example_running)
    = Returns tt
  ∧ name example_manager
    ∈ _old_managers
        (final (hotswap_endpoint_managers example_valid (Some french_config)
                  example_running)).
Proof.
  assert (accounting_wf example_running) as Hwf by by_evaluation.
  assert (_stop_requested example_running = false) as Hstop by reflexivity.
  assert (NoDup french_config.*1) as Hnodup by by_evaluation.
  assert (∀ entry, entry ∈ french_config → example_valid entry.2 = true) as Hvalid
    by (intros entry _; reflexivity).
  assert (example_manager ∈ _endpoint_managers example_running) as Hin.
  { vm_compute. apply list_elem_of_here. }
  assert (endpoint_name example_manager
          ∉ (preserved_endpoints (work_item_processor_for example_running)
               (managers_by_endpoint_name (_endpoint_managers example_running))
               french_config).*1) as Hgone.
  { vm_compute. apply not_elem_of_nil. }
  destruct (hotswap_serves_configuration example_valid french_config example_running
              Hwf Hstop Hnodup Hvalid) as (Hout & _ & _ & _ & _ & Hretired & _).
  destruct (Hretired example_manager Hin Hgone) as [Hold _].
  exact (conj Hwf (conj Hstop (conj Hnodup (conj Hin (conj Hout Hold))))).
Defined.

(** ** The master thread among the other threads *)

Lemma final_then_ret {A} (c : M A) self : final ((c ;; ret tt) self) = final (c self).
Proof. unfold bind, ret. by destruct (c self) as [s e [a| | |]]. Qed.

Lemma preserves_bind_at {A B} (I : Orchestrator → Prop) (c : M A) (k : A → M B) self :
  I (final (c self)) → (∀ a, preserves I (k a)) → I (final (bind c k self)).
Proof.
  intros Hc Hk. unfold bind.
  destruct (c self) as [s1 e1 [a| | |]]; try done.
  specialize (Hk a s1 Hc). by destruct (k a s1).
Qed.

Lemma sentinel_inv_ext a b :
  _submission_que b = _submission_que a → _stop_requested b = _stop_requested a →
  sentinel_inv a → sentinel_inv b.
Proof. unfold sentinel_inv. by intros -> ->. Qed.

Lemma sentinel_inv_stopped self : _stop_requested self = true → sentinel_inv self.
Proof. by intros Hstop _. Qed.

Lemma quiescent_ext a b :
  _stop_requested b = _stop_requested a → _file_queue_size b = _file_queue_size a →
  _in_progress b = _in_progress a → quiescent a → quiescent b.
Proof. unfold quiescent. by intros -> -> ->. Qed.

Lemma quiescent_stopped self : _stop_requested self = true → quiescent self.
Proof. intros Hstop ?. congruence. Qed.

(** What a hot swap leaves alone, and that it moves nothing when nothing
    is in progress. *)
Lemma hotswap_endpoint_managers_frame valid load_configuration self :
  accounting_wf self →
  let r := hotswap_endpoint_managers valid load_configuration self in
  outcome r = Returns tt
  ∧ _submission_que (final r) = _submission_que self
  ∧ _stop_requested (final r) = _stop_requested self
  ∧ _work_results (final r) = _work_results self
  ∧ _on_batch_type (final r) = _on_batch_type self
  ∧ _singleton_run_summary_path (final r) = _singleton_run_summary_path self
  ∧ (_in_progress self = [] →
     _in_progress (final r) = [] ∧ _file_queue (final r) = _file_queue self
     ∧ _file_queue_size (final r) = _file_queue_size self).
Proof.
  intros Hwf r. subst r.
  rewrite hotswap_endpoint_managers_run
    by (by apply accounting_wf_owners || by destruct Hwf as (_ & ? & _)).
  destruct load_configuration as [config_data|]; [|done].
  destruct (_stop_requested self) eqn:Hstop; [done|].
  destruct (outcome (hotswap_diff valid config_data self)) as [[d n]| | |]; try done.
  unfold swapped, unassigned, kept_in_progress. fields. split_and!; try done.
  intros ->. cbn. rewrite app_nil_r. split_and!; [done | done | lia].
Qed.

Section ThreadInvariants.

Variable MAX : Z.
Variable writers : SummaryWriters.
Variable valid : gmap string string -> bool.

Lemma start_batch_sentinel_inv request self :
  sentinel_inv self → sentinel_inv (final (start_batch writers request self)).
Proof.
  intros Hinv. rewrite start_batch_run.
  destruct (_stop_requested self) eqn:Hstop; [done|].
  destruct request as [request|].
  2:{ unfold batch_reset. case_bool_decide; [by eapply sentinel_inv_ext | done]. }
  destruct (_ && _); (eapply sentinel_inv_ext; [..|exact Hinv]);
    unfold enqueued, batch_opened, batch_reset; case_bool_decide; by fields.
Qed.

Lemma cancel_running_batch_sentinel_inv batch_id self :
  accounting_wf self → sentinel_inv self →
  sentinel_inv (final (cancel_running_batch batch_id self)).
Proof.
  intros Hwf Hinv. rewrite cancel_running_batch_run by apply Hwf.
  case_bool_decide; [done | by eapply sentinel_inv_ext].
Qed.

Lemma hotswap_endpoint_managers_sentinel_inv load_configuration self :
  accounting_wf self → sentinel_inv self →
  sentinel_inv (final (hotswap_endpoint_managers valid load_configuration self)).
Proof.
  intros Hwf Hinv.
  destruct (hotswap_endpoint_managers_frame valid load_configuration self Hwf)
    as (_ & Hq & Hstop & _).
  by eapply sentinel_inv_ext.
Qed.

(** The data-model invariants together with the sentinel invariant. *)
Let guarded (self : Orchestrator) : Prop := accounting_wf self ∧ sentinel_inv self.

Lemma _master_thread_loop_begin_guarded d1 load d2 self :
  guarded self →
  unique_filepaths self (MasterThreadLoopBegin d1 load d2) →
  guarded (final (_master_thread_loop_begin writers valid d1 load d2 self)).
Proof.
  intros Hguarded Hunique. unfold _master_thread_loop_begin.
  apply (preserves_get_self guarded).
  cbn [unique_filepaths] in Hunique.
  destruct (_submission_que self) as [|request rest] eqn:Hq; [done|].
  apply preserves_bind_at.
  { destruct Hguarded as [Hwf Hinv]. unfold assign. fields.
    split; [by eapply accounting_wf_ext|].
    intros Hnone. fields in Hnone. apply Hinv. rewrite Hq. by right. }
  intros _. clear self Hguarded Hq.
  apply preserves_bind.
  { apply preserves_assign. intros s [? ?].
    split; [by eapply accounting_wf_ext | by eapply sentinel_inv_ext]. }
  intros _. destruct (bool_decide (is_Some request) && d1).
  { apply preserves_bind; [apply preserves_signal | intros; apply preserves_ret]. }
  apply preserves_bind.
  { intros s [? ?]. split;
      [by apply hotswap_endpoint_managers_wf
      | by apply hotswap_endpoint_managers_sentinel_inv]. }
  intros _. apply preserves_bind.
  { intros s [? ?]. split; [|by apply start_batch_sentinel_inv].
    apply start_batch_wf; [done|]. by destruct request. }
  intros started. destruct started, request as [request|]; try apply preserves_ret.
  apply preserves_bind; [|intros; apply preserves_ret].
  destruct d2; [|apply preserves_signal].
  apply preserves_bind; [|intros; apply preserves_ret].
  intros s [? ?]. split;
    [by apply cancel_running_batch_wf | by apply cancel_running_batch_sentinel_inv].
Qed.

Lemma perform_sentinel_inv c self :
  guarded self → unique_filepaths self c →
  sentinel_inv (final (perform MAX writers valid c self)).
Proof.
  intros [Hwf Hinv] Hunique.
  destruct c as [manager | path manager result | path manager result | load | id
                | pid | request | d1 load d2 | request d1 d2 | ];
    cbn [perform].
  - rewrite final_then_ret, steal_work_run.
    destruct (dropped manager self); [done|].
    case_bool_decide; [|done].
    destruct (_file_queue self) as [|work rest]; [done|]. cbn zeta.
    destruct (truthy (language work)); [|by eapply sentinel_inv_ext].
    destruct (endpoint_config manager !! "language"); [|by eapply sentinel_inv_ext].
    case_bool_decide; by eapply sentinel_inv_ext.
  - rewrite notify_work_success_run. cbn zeta.
    destruct (dropped manager self); [by eapply sentinel_inv_ext|].
    destruct (dict_get path (_in_progress self)); [|by eapply sentinel_inv_ext].
    destruct (_in_progress_owner self !! path); [|by eapply sentinel_inv_ext].
    fields. unfold check_completion.
    destruct (batch_finished _); by eapply sentinel_inv_ext.
  - rewrite notify_work_failure_run. cbn zeta.
    destruct (dropped manager self); [by eapply sentinel_inv_ext|].
    destruct (dict_get path (_in_progress self)); [|by eapply sentinel_inv_ext].
    destruct (_in_progress_owner self !! path), (retry_granted MAX path result self);
      fields; unfold check_completion; try destruct (batch_finished _);
      by eapply sentinel_inv_ext.
  - by apply hotswap_endpoint_managers_sentinel_inv.
  - rewrite final_then_ret. by apply cancel_running_batch_sentinel_inv.
  - rewrite request_stop_run. case_bool_decide; [done|].
    destruct (config_notifier_stop_escapes self); [done|].
    case_decide; by apply sentinel_inv_stopped.
  - intros Hnone. fields in Hnone. fields. apply Hinv.
    apply elem_of_app in Hnone as [? | Hnone]; [done|].
    by apply list_elem_of_singleton in Hnone.
  - rewrite final_then_ret.
    by apply _master_thread_loop_begin_guarded.
  - rewrite _master_thread_loop_end_run. by eapply sentinel_inv_ext.
  - by rewrite _run_summary_loop_final.
Qed.

(** From a quiescent state no call of another thread leads out of
    quiescence: nothing is there to steal or to report on. *)
Lemma external_quiescent c self :
  accounting_wf self → external c → quiescent self →
  quiescent (final (perform MAX writers valid c self)).
Proof.
  intros Hwf Hext Hq.
  assert (∀ manager, dropped manager self = false →
                     _file_queue_size self = 0 ∧ _in_progress self = []) as Hidle.
  { intros manager [_ Hstop]%orb_false_iff. by apply Hq. }
  destruct c as [manager | path manager result | path manager result | load | id
                | pid | request | d1 load d2 | request d1 d2 | ];
    cbn [perform]; try done.
  - rewrite final_then_ret, steal_work_run.
    destruct (dropped manager self) eqn:Hdropped; [done|].
    destruct (Hidle manager Hdropped) as [Hzero _].
    by rewrite bool_decide_eq_false_2 by lia.
  - rewrite notify_work_success_run. cbn zeta.
    destruct (dropped manager self) eqn:Hdropped; [by eapply quiescent_ext|].
    destruct (Hidle manager Hdropped) as [_ ->]. cbn [dict_get].
    by eapply quiescent_ext.
  - rewrite notify_work_failure_run. cbn zeta.
    destruct (dropped manager self) eqn:Hdropped; [by eapply quiescent_ext|].
    destruct (Hidle manager Hdropped) as [_ Hnil]. rewrite Hnil. cbn [dict_get].
    eapply quiescent_ext; [..|exact Hq]; by fields.
  - destruct (hotswap_endpoint_managers_frame valid load self Hwf)
      as (_ & _ & Hstop & _ & _ & _ & Hidle').
    intros Hrun. rewrite Hstop in Hrun. destruct (Hq Hrun) as [Hzero Hnil].
    destruct (Hidle' Hnil) as (-> & _ & ->). done.
  - rewrite final_then_ret, cancel_running_batch_run by apply Hwf.
    case_bool_decide; [done|]. by intros _.
  - rewrite request_stop_run. case_bool_decide; [done|].
    destruct (config_notifier_stop_escapes self); [done|].
    case_decide; by apply quiescent_stopped.
  - by rewrite _run_summary_loop_final.
Qed.

(** What holds of the orchestrator wherever the master thread stands. *)
Let steady (master : MasterThread) (self : Orchestrator) : Prop :=
  accounting_wf self ∧ completion_inv self ∧ sentinel_inv self
  ∧ (master = TakingRequest → quiescent self).

Lemma reaches_steady master self :
  reaches MAX writers valid unique_filepaths master self → steady master self.
Proof.
  induction 1 as [queue path notifier pid Hqueue
                 | master self c _ (Hwf & Hdone & Hsent & Hidle) Hext Hguard
                 | self d1 load d2 _ (Hwf & Hdone & Hsent & Hidle) Hne Hguard
                 | request self d1 d2 _ (Hwf & Hdone & Hsent & Hidle) Hevt].
  - split_and!.
    + apply accounting_wf_init.
    + apply completion_inv_init.
    + intros Hnone. unfold Orchestrator_init in Hnone. fields in Hnone.
      rewrite Forall_forall in Hqueue. by destruct (Hqueue None Hnone).
    + intros _ _. unfold Orchestrator_init. by fields.
  - split_and!.
    + by apply perform_wf.
    + by apply perform_completion_inv.
    + by apply perform_sentinel_inv.
    + intros Hmaster. apply external_quiescent; auto.
  - pose proof (_master_thread_loop_begin_settled writers valid d1 load d2 self
                  (conj Hwf Hdone) Hguard) as [Hwf' Hdone'].
    pose proof (_master_thread_loop_begin_guarded d1 load d2 self
                  (conj Hwf Hsent) Hguard) as [_ Hsent'].
    split_and!; try done.
    (* the loop is back at the top only after a skipped batch *)
    unfold _master_thread_loop_begin, bind, get_self, assign, signal, ret.
    destruct (_submission_que self) as [|request rest]; [done|]. fields.
    destruct (bool_decide (is_Some request) && d1).
    { fields. intros _. eapply quiescent_ext; [..|by apply Hidle]; by fields. }
    destruct (hotswap_endpoint_managers valid load _) as [s2 e2 [[]| | |]]; try done.
    destruct (start_batch writers request s2) as [s3 e3 [started| | |]]; try done.
    destruct started, request as [request|]; try done.
    destruct d2; [|done].
    by destruct (cancel_running_batch (batch_id request) s3) as [s4 e4 [?| | |]].
  - split_and!.
    + rewrite _master_thread_loop_end_run. by eapply accounting_wf_ext.
    + rewrite _master_thread_loop_end_run. by eapply completion_inv_ext.
    + rewrite _master_thread_loop_end_run. by eapply sentinel_inv_ext.
    + intros _ Hrun. rewrite _master_thread_loop_end_run in *. fields. fields in Hrun.
      by apply Hdone.
Qed.

End ThreadInvariants.

(** ** The loop body of the master thread, case by case *)

Section MasterLoopCases.

Variable writers : SummaryWriters.
Variable valid : gmap string string -> bool.

(** The object once the request is taken off the submission queue. *)
Let popped (request : option BatchRequest) (rest : list (option BatchRequest))
    (self : Orchestrator) : Orchestrator :=
  set_on_batch_type (batch_type <$> request) (set_submission_que rest self).

Lemma _master_thread_loop_begin_skipped request rest d2 load self :
  _submission_que self = Some request :: rest →
  _master_thread_loop_begin writers valid true load d2 self
  = mkRun (popped (Some request) rest self)
      [log_info "Orchestrator: Skipping batch because it was marked deleted."]
      (Returns Continue).
Proof.
  intros Hq. unfold _master_thread_loop_begin, bind, get_self, assign, signal, ret.
  rewrite Hq. by fields.
Qed.

Lemma _master_thread_loop_begin_stopped request rest d1 d2 load self :
  accounting_wf self →
  _submission_que self = request :: rest →
  bool_decide (is_Some request) && d1 = false →
  _stop_requested self = true →
  outcome (_master_thread_loop_begin writers valid d1 load d2 self) = Returns Return
  ∧ final (_master_thread_loop_begin writers valid d1 load d2 self)
    = popped request rest self.
Proof.
  intros Hwf Hq Hd1 Hstop.
  assert (accounting_wf (popped request rest self)) as Hwf'
    by (by eapply accounting_wf_ext).
  pose proof (hotswap_endpoint_managers_run valid load (popped request rest self)
                (proj1 (proj2 Hwf')) (accounting_wf_owners _ Hwf')) as Hswap.
  assert (_stop_requested (popped request rest self) = true) as Hstop' by done.
  rewrite Hstop' in Hswap.
  unfold _master_thread_loop_begin, bind, get_self, assign, signal, ret.
  rewrite Hq. fields. rewrite Hd1. fold (popped request rest self).
  assert (∃ e, hotswap_endpoint_managers valid load (popped request rest self)
               = mkRun (popped request rest self) e (Returns tt)) as [e ->].
  { rewrite Hswap. destruct load; by eexists. }
  rewrite start_batch_run, Hstop'. done.
Qed.

Lemma _master_thread_loop_begin_started request rest d2 load self :
  accounting_wf self →
  quiescent self →
  _submission_que self = Some request :: rest →
  _stop_requested self = false →
  let swapped := hotswap_endpoint_managers valid load (popped (Some request) rest self) in
  let opened := enqueued (make_work_items request) (batch_opened request (final swapped)) in
  _master_thread_loop_begin writers valid false load d2 self
  = mkRun (if d2 then
             set_batch_completion_evt true
               (set_old_managers
                  (_old_managers opened ∪ list_to_set (name <$> _endpoint_managers opened))
                  (set_endpoint_managers (em_request_stop <$> _endpoint_managers opened)
                     (set_in_progress_owner ∅
                        (set_in_progress []
                           (set_file_queue_size 0 (set_file_queue [] opened))))))
           else opened)
      (emitted swapped
       ++ [log_info "Orchestrator: Starting batch"; notify_all]
       ++ (if d2 then [notify_all]
           else [change_status_enum (batch_id request) running]))
      (Returns (AwaitCompletion request))
  ∧ _file_queue opened = make_work_items request
  ∧ _file_queue_size opened = Z.of_nat (length (make_work_items request))
  ∧ _in_progress opened = [].
Proof.
  intros Hwf Hidle Hq Hstop swapped opened.
  destruct (Hidle Hstop) as [Hzero Hnil].
  assert (accounting_wf (popped (Some request) rest self)) as Hwf'
    by (by eapply accounting_wf_ext).
  destruct (hotswap_endpoint_managers_frame valid load _ Hwf')
    as (Hout & _ & Hstop' & _ & _ & _ & Hidle').
  destruct (Hidle' Hnil) as (Hnil' & Hqueue' & Hsize').
  pose proof (hotswap_endpoint_managers_wf valid load _ Hwf') as Hwf''.
  fold swapped in Hout, Hstop', Hnil', Hqueue', Hsize', Hwf''.
  assert (_file_queue (final swapped) = []) as Hempty.
  { destruct Hwf'' as (Hlen & _). apply nil_length_inv.
    rewrite Hsize' in Hlen. unfold popped in Hlen. fields in Hlen. lia. }
  assert (_file_queue opened = make_work_items request
          ∧ _file_queue_size opened = Z.of_nat (length (make_work_items request))
          ∧ _in_progress opened = []
          ∧ _on_batch_id opened = batch_id request) as (Hoq & Hosize & Hoip & Hoid).
  { subst opened. unfold enqueued, batch_opened, batch_reset.
    case_bool_decide; fields; rewrite Hempty, Hsize', Hnil'; unfold popped; fields;
      rewrite Hzero; split_and!; done. }
  split; [|done].
  unfold _master_thread_loop_begin, bind, get_self, assign, signal, ret.
  rewrite Hq. fields. cbn [andb bool_decide]. rewrite andb_false_r.
  fold (popped (Some request) rest self). fold swapped.
  destruct swapped as [s2 e2 o2] eqn:Hswapped. fields in Hout. subst o2.
  fields in Hstop'. fields in Hnil'. fields in Hsize'. fields in opened. fields.
  rewrite start_batch_run, Hstop'. unfold popped. fields. rewrite Hstop.
  rewrite Hnil', Hsize'. unfold popped. fields. rewrite Hzero.
  cbn [length]. rewrite !bool_decide_eq_true_2 by done. cbn [andb]. fold opened.
  destruct d2.
  - rewrite cancel_running_batch_run by (by rewrite Hoq, Hosize).
    rewrite bool_decide_eq_false_2 by (intros ?; done). fields.
    f_equal; by rewrite <- ?app_assoc.
  - fields. f_equal; by rewrite <- ?app_assoc.
Qed.

End MasterLoopCases.

Lemma hotswap_endpoint_managers_emits valid load_configuration self x :
  accounting_wf self →
  x ∈ emitted (hotswap_endpoint_managers valid load_configuration self) →
  x = notify_all ∨ ∃ msg, x = log_info msg ∨ x = log_error msg.
Proof.
  intros Hwf.
  rewrite hotswap_endpoint_managers_run
    by (by apply accounting_wf_owners || by destruct Hwf as (_ & ? & _)).
  destruct load_configuration as [config_data|].
  2:{ fields. rewrite list_elem_of_singleton. naive_solver. }
  destruct (_stop_requested self); [by intros ?%elem_of_nil|].
  destruct (outcome (hotswap_diff valid config_data self)) as [[d n]| | |]; fields;
    rewrite ?elem_of_cons, ?elem_of_nil; naive_solver.
Qed.

(** X14. The loop body of the master thread up to its wait, in a state
    that meets the invariants of the data model with nothing queued and
    nothing in progress. On an empty submission queue it blocks and
    changes nothing. A request found deleted on arrival is skipped: it is
    taken off the queue and its type recorded, and nothing else happens.
    Once a stop is requested the loop returns with the accounting
    untouched. A [None] on the queue without a requested stop raises
    [AttributeError]. Otherwise the batch starts after a hot swap: the
    batch id, the summarizer and the gate are set, the results hold the
    [None] placeholder for every work item, next to the results of
    earlier batches only with a singleton run summary, and nothing is in
    progress. Then either the work items are queued in order with the
    event clear and the status set to running; or, the batch being found
    deleted by then, it is canceled at once: the queue is empty, the
    event is set, every manager is retired, and no status is set. *)
Theorem master_loop_begin_spec writers valid d1 load d2 self :
  accounting_wf self → quiescent self →
  let r := _master_thread_loop_begin writers valid d1 load d2 self in
  (_submission_que self = [] → r = mkRun self [] Blocks)
  ∧ (∀ request rest,
       _submission_que self = Some request :: rest → d1 = true →
       r = mkRun (set_on_batch_type (Some (batch_type request))
                    (set_submission_que rest self))
             [log_info "Orchestrator: Skipping batch because it was marked deleted."]
             (Returns Continue))
  ∧ (∀ request rest,
       _submission_que self = request :: rest →
       (is_Some request → d1 = false) →
       _stop_requested self = true →
       outcome r = Returns Return
       ∧ final r = set_on_batch_type (batch_type <$> request) (set_submission_que rest self))
  ∧ (∀ rest,
       _submission_que self = None :: rest → _stop_requested self = false →
       outcome r = Raises AttributeError)
  ∧ (∀ request rest,
       _submission_que self = Some request :: rest → d1 = false →
       _stop_requested self = false →
       let works := make_work_items request in
       outcome r = Returns (AwaitCompletion request)
       ∧ _submission_que (final r) = rest
       ∧ _on_batch_type (final r) = Some (batch_type request)
       ∧ _on_batch_id (final r) = batch_id request
       ∧ _summarizer (final r) = Some (get_batch_run_summarizer request)
       ∧ _run_summary_thread_gate (final r) = true
       ∧ (∀ fp, _work_results (final r) !! fp
                = if decide (fp ∈ filepath <$> works) then Some None
                  else if bool_decide (_singleton_run_summary_path self = None) then None
                  else _work_results self !! fp)
       ∧ _in_progress (final r) = []
       ∧ if d2 then
           _file_queue (final r) = [] ∧ _file_queue_size (final r) = 0
           ∧ _batch_completion_evt (final r) = true
           ∧ Forall (fun m => name m ∈ _old_managers (final r)
                              ∧ em_stop_requested m = true)
               (_endpoint_managers (final r))
           ∧ ∀ id status, change_status_enum id status ∉ emitted r
         else
           _file_queue (final r) = works
           ∧ _file_queue_size (final r) = Z.of_nat (length works)
           ∧ _batch_completion_evt (final r) = false
           ∧ change_status_enum (batch_id request) running ∈ emitted r).
Proof.
  intros Hwf Hidle r. subst r. split_and!.
  - intros Hq. unfold _master_thread_loop_begin, bind, get_self, block. by rewrite Hq.
  - intros request rest Hq ->. by apply _master_thread_loop_begin_skipped.
  - intros request rest Hq Hd1 Hstop.
    apply _master_thread_loop_begin_stopped; [done | done | | done].
    destruct request as [request|]; [|done]. rewrite Hd1 by done. apply andb_false_r.
  - intros rest Hq Hstop.
    assert (accounting_wf (set_on_batch_type None (set_submission_que rest self)))
      as Hwf' by (by eapply accounting_wf_ext).
    destruct (hotswap_endpoint_managers_frame valid load _ Hwf')
      as (Hout & _ & Hstop' & _).
    unfold _master_thread_loop_begin, bind, get_self, assign, signal, ret.
    rewrite Hq. fields. cbn [fmap option_fmap option_map andb bool_decide].
    rewrite (bool_decide_eq_false_2 (is_Some None)) by (by intros [? ?]).
    cbn [andb].
    destruct (hotswap_endpoint_managers valid load _) as [s2 e2 o2].
    fields in Hout. fields in Hstop'. subst o2.
    rewrite start_batch_run, Hstop', Hstop. by fields.
  - intros request rest Hq -> Hstop works.
    destruct (_master_thread_loop_begin_started writers valid request rest d2 load self
                Hwf Hidle Hq Hstop) as (-> & Hoq & Hosize & Hoip).
    assert (accounting_wf (set_on_batch_type (batch_type <$> Some request)
                             (set_submission_que rest self))) as Hwf'
      by (by eapply accounting_wf_ext).
    destruct (hotswap_endpoint_managers_frame valid load _ Hwf')
      as (_ & Hsubq & _ & Hresults & Htype & Hpath & _).
    set (popped := set_on_batch_type (batch_type <$> Some request)
                     (set_submission_que rest self)) in *.
    pose proof (fun Hw x => hotswap_endpoint_managers_emits valid load popped x Hw)
      as Hemits.
    set (swapped := hotswap_endpoint_managers valid load popped) in *.
    set (opened := enqueued (make_work_items request)
                     (batch_opened request (final swapped))) in *.
    assert (_submission_que opened = rest
            ∧ _on_batch_type opened = Some (batch_type request)
            ∧ _on_batch_id opened = batch_id request
            ∧ _summarizer opened = Some (get_batch_run_summarizer request)
            ∧ _run_summary_thread_gate opened = true
            ∧ _batch_completion_evt opened = false
            ∧ _work_results opened
              = foldl (fun results work => <[filepath work := None]> results)
                  (if bool_decide (_singleton_run_summary_path self = None) then ∅
                   else _work_results self) works)
      as (Hosubq & Hotype & Hoid & Hosum & Hogate & Hoevt & Hores).
    { subst opened. unfold enqueued, batch_opened, batch_reset. rewrite Hpath.
      subst popped. fields.
      destruct (bool_decide (_singleton_run_summary_path self = None)); fields;
        rewrite ?Hsubq, ?Htype, ?Hresults; by fields. }
    assert (∀ fp, _work_results opened !! fp
                  = if decide (fp ∈ filepath <$> works) then Some None
                    else if bool_decide (_singleton_run_summary_path self = None)
                         then None else _work_results self !! fp) as Hlookup.
    { intros fp. rewrite Hores, lookup_placeholders. case_decide; [done|].
      case_bool_decide; [apply lookup_empty | done]. }
    specialize (Hemits ltac:(done)).
    clearbody opened. clearbody swapped. clear Hsubq Hresults Htype Hpath Hores.
    destruct d2; fields.
    + split_and!; try done.
      * apply Forall_fmap, Forall_forall. intros m Hm. split; [|done].
        cbn. apply elem_of_union_r, elem_of_list_to_set. by apply list_elem_of_fmap_2.
      * intros id status. rewrite elem_of_app, !elem_of_cons, elem_of_nil.
        intros [Hx | Hx]; [|naive_solver].
        destruct (Hemits _ Hx) as [? | [msg [? | ?]]]; done.
    + split_and!; try done.
      rewrite elem_of_app, !elem_of_cons. naive_solver.
Qed.

(** X16. Along every run of the orchestrator and its master thread in
    which batches have unique filepaths, whenever the master thread is
    about to take a request nothing is queued and nothing is in progress
    unless a stop is requested, so that the two assertions of the loop
    hold when it starts a batch; the stop sentinel is on the submission
    queue only after a stop was requested; and the loop body up to the
    wait never raises: it blocks exactly on an empty submission queue,
    returns for good once a stop is requested, unless it skips a deleted
    batch, and otherwise goes on to await the completion of the batch it
    took. *)
Theorem master_loop_never_raises MAX writers valid d1 load d2 self :
  reaches MAX writers valid unique_filepaths TakingRequest self →
  let r := _master_thread_loop_begin writers valid d1 load d2 self in
  (_stop_requested self = false → _file_queue_size self = 0 ∧ _in_progress self = [])
  ∧ (None ∈ _submission_que self → _stop_requested self = true)
  ∧ (∀ e, outcome r ≠ Raises e)
  ∧ outcome r ≠ Waits
  ∧ (outcome r = Blocks ↔ _submission_que self = [])
  ∧ (∀ request rest, _submission_que self = request :: rest →
       outcome r
       = if bool_decide (is_Some request) && d1 then Returns Continue
         else if _stop_requested self then Returns Return
         else match request with
              | Some request => Returns (AwaitCompletion request)
              | None => Returns Return
              end).
Proof.
  intros (Hwf & _ & Hsent & Hidle)%reaches_steady r.
  specialize (Hidle eq_refl).
  assert (∀ request rest, _submission_que self = request :: rest →
            outcome r
            = if bool_decide (is_Some request) && d1 then Returns Continue
              else if _stop_requested self then Returns Return
              else match request with
                   | Some request => Returns (AwaitCompletion request)
                   | None => Returns Return
                   end) as Hcases.
  { intros request rest Hq. subst r.
    destruct (bool_decide (is_Some request) && d1) eqn:Hd1.
    - apply andb_prop in Hd1 as [[request' ->]%bool_decide_eq_true_1 ->].
      by rewrite (_master_thread_loop_begin_skipped writers valid request' rest d2 load self).
    - destruct (_stop_requested self) eqn:Hstop.
      + by apply (_master_thread_loop_begin_stopped writers valid request rest).
      + destruct request as [request|].
        * cbn [bool_decide andb] in Hd1.
          assert (d1 = false) as ->.
          { destruct d1; [|done]. rewrite bool_decide_eq_true_2 in Hd1 by (by eexists).
            done. }
          destruct (_master_thread_loop_begin_started writers valid request rest d2 load
                      self Hwf Hidle Hq Hstop) as [-> _]. done.
        * assert (_stop_requested self = true); [|congruence].
          apply Hsent. rewrite Hq. left. }
  split_and!; try done.
  - intros e He. destruct (_submission_que self) as [|request rest] eqn:Hq.
    + subst r. unfold _master_thread_loop_begin, bind, get_self, block in He.
      by rewrite Hq in He.
    + rewrite (Hcases request rest eq_refl) in He.
      destruct (_ && _), (_stop_requested self), request; done.
  - intros He. destruct (_submission_que self) as [|request rest] eqn:Hq.
    + subst r. unfold _master_thread_loop_begin, bind, get_self, block in He.
      by rewrite Hq in He.
    + rewrite (Hcases request rest eq_refl) in He.
      destruct (_ && _), (_stop_requested self), request; done.
  - split.
    + intros He. destruct (_submission_que self) as [|request rest] eqn:Hq; [done|].
      rewrite (Hcases request rest eq_refl) in He.
      destruct (_ && _), (_stop_requested self), request; done.
    + intros Hq. subst r. unfold _master_thread_loop_begin, bind, get_self, block.
      by rewrite Hq.
Qed.

(** ** Work that is still pending *)

Lemma pending_inv_ext a b :
  _stop_requested b = _stop_requested a →
  _work_results b = _work_results a →
  _file_queue b = _file_queue a →
  _in_progress b = _in_progress a →
  pending_inv a → pending_inv b.
Proof. unfold pending_inv. by intros -> -> -> ->. Qed.

Lemma pending_inv_stopped self : _stop_requested self = true → pending_inv self.
Proof. intros Hstop ?. congruence. Qed.

(** Moving work between the queue and [_in_progress] keeps it pending. *)
Lemma pending_inv_moved a b :
  _stop_requested b = _stop_requested a →
  _work_results b = _work_results a →
  (∀ fp, fp ∈ filepath <$> _file_queue a ∨ fp ∈ dict_keys (_in_progress a) →
         fp ∈ filepath <$> _file_queue b ∨ fp ∈ dict_keys (_in_progress b)) →
  pending_inv a → pending_inv b.
Proof.
  unfold pending_inv. intros -> -> Hmoved Hinv Hstop fp Hfp. by apply Hmoved, Hinv.
Qed.

(** A result stored for a filepath that leaves [_in_progress], be it
    queued again or not. *)
Lemma pending_inv_reported path stored a b :
  dict_wf (_in_progress a) →
  _stop_requested b = _stop_requested a →
  _work_results b = <[path := Some stored]> (_work_results a) →
  (∀ fp, fp ∈ filepath <$> _file_queue a → fp ∈ filepath <$> _file_queue b) →
  (∀ fp, fp ≠ path → fp ∈ dict_keys (_in_progress a) → fp ∈ dict_keys (_in_progress b)) →
  pending_inv a → pending_inv b.
Proof.
  unfold pending_inv. intros Hwf -> -> Hq Hip Hinv Hstop fp Hfp.
  destruct (decide (fp = path)) as [->|Hne].
  { by rewrite lookup_insert_eq in Hfp. }
  rewrite lookup_insert_ne in Hfp by done.
  destruct (Hinv Hstop fp Hfp) as [? | ?]; [left; auto | right; auto].
Qed.

Lemma steal_work_pending_inv manager self :
  (∀ e, outcome (steal_work manager self) ≠ Raises e) →
  pending_inv self → pending_inv (final (steal_work manager self)).
Proof.
  intros Hsafe Hinv. rewrite steal_work_run in *.
  destruct (dropped manager self); [done|].
  case_bool_decide; [|done].
  destruct (_file_queue self) as [|work rest] eqn:Hq; [done|]. cbn zeta in *.
  assert (pending_inv (handed_out manager work rest self)) as Htaken.
  { eapply pending_inv_moved; [..|exact Hinv]; unfold handed_out; fields; [done | done |].
    intros fp. rewrite Hq. cbn [fmap list_fmap]. rewrite elem_of_cons, dict_keys_set_elem.
    naive_solver. }
  destruct (truthy (language work)); [|done].
  destruct (endpoint_config manager !! "language").
  - case_bool_decide; [|done].
    eapply pending_inv_moved; [..|exact Hinv]; fields; [done | done |].
    intros fp. rewrite Hq, fmap_app. cbn [fmap list_fmap].
    rewrite elem_of_cons, elem_of_app, list_elem_of_singleton. naive_solver.
  - fields in Hsafe. by destruct (Hsafe (KeyError "language")).
Qed.

Lemma notify_work_success_pending_inv path manager result self :
  accounting_wf self → pending_inv self →
  pending_inv (final (notify_work_success path manager result self)).
Proof.
  intros Hwf Hinv. rewrite notify_work_success_run. cbn zeta.
  destruct (dropped manager self); [by eapply pending_inv_ext|].
  destruct (dict_get path (_in_progress self)) as [work|] eqn:Hget;
    [|by eapply pending_inv_ext].
  destruct (_in_progress_owner self !! path) as [owner|] eqn:Hown.
  - fields. pose proof Hwf as (_ & Hkeys & _).
    eapply (pending_inv_reported path (merged (_work_results self !! path) result) self);
      [done | .. | exact Hinv];
      unfold check_completion, success_recorded; destruct (batch_finished _); fields;
      try done; intros fp Hne Hfp; by apply dict_keys_del.
  - exfalso. apply eq_None_not_Some in Hown. apply Hown.
    apply accounting_wf_owner; [done|]. apply dict_get_is_Some. by rewrite Hget.
Qed.

Lemma notify_work_failure_pending_inv MAX path manager result self :
  accounting_wf self → pending_inv self →
  pending_inv (final (notify_work_failure MAX path manager result self)).
Proof.
  intros Hwf Hinv. rewrite notify_work_failure_run. cbn zeta.
  destruct (dropped manager self); [by eapply pending_inv_ext|].
  pose proof Hwf as (_ & Hkeys & _).
  destruct (dict_get path (_in_progress self)) as [work|] eqn:Hget.
  2:{ eapply (pending_inv_reported path (merged (_work_results self !! path) result) self);
        [done | .. | exact Hinv]; unfold failure_merged; by fields. }
  destruct (_in_progress_owner self !! path) as [owner|] eqn:Hown.
  - fields.
    eapply (pending_inv_reported path (merged (_work_results self !! path) result) self);
      [done | .. | exact Hinv];
      unfold check_completion, no_longer_in_progress, requeued, failure_merged;
      destruct (retry_granted MAX path result self); destruct (batch_finished _); fields;
      try done;
      try (intros fp Hne Hfp; by apply dict_keys_del);
      intros fp Hfp; rewrite fmap_app, elem_of_app; by left.
  - exfalso. apply eq_None_not_Some in Hown. apply Hown.
    apply accounting_wf_owner; [done|]. apply dict_get_is_Some. by rewrite Hget.
Qed.

Lemma hotswap_endpoint_managers_pending_inv valid load_configuration self :
  accounting_wf self → pending_inv self →
  pending_inv (final (hotswap_endpoint_managers valid load_configuration self)).
Proof.
  intros Hwf Hinv.
  rewrite hotswap_endpoint_managers_run
    by (by apply accounting_wf_owners || by destruct Hwf as (_ & ? & _)).
  destruct load_configuration as [config_data|]; [|done].
  destruct (_stop_requested self); [done|].
  destruct (outcome (hotswap_diff valid config_data self)) as [[d n]| | |];
    try by eapply pending_inv_ext.
  destruct Hwf as (_ & _ & _ & Hpaths & _). rewrite Forall_forall in Hpaths.
  eapply pending_inv_moved; [..|exact Hinv]; unfold swapped; fields; [done | done |].
  intros fp [Hfp | Hfp].
  - left. rewrite fmap_app, elem_of_app. by left.
  - destruct (owner_deleted d self fp) eqn:Hdel.
    + left. rewrite fmap_app, elem_of_app. right.
      assert (fp ∈ (unassigned d self).*1) as Hmoved by (by apply elem_of_unassigned_keys).
      apply list_elem_of_fmap in Hmoved as (kv & -> & Hkv).
      apply list_elem_of_fmap. exists kv.2. split.
      * apply list_elem_of_filter in Hkv as [_ Hkv]. by rewrite (Hpaths kv Hkv).
      * by apply list_elem_of_fmap_2.
    + right. by apply elem_of_kept_keys.
Qed.

Lemma start_batch_pending_inv writers request self :
  accounting_wf self → pending_inv self →
  pending_inv (final (start_batch writers request self)).
Proof.
  intros Hwf Hinv. rewrite start_batch_run.
  destruct (_stop_requested self) eqn:Hstop; [done|].
  assert (pending_inv (batch_reset self)) as Hreset.
  { unfold batch_reset. case_bool_decide; [|done].
    intros _ fp Hfp. fields in Hfp. by rewrite lookup_empty in Hfp. }
  destruct request as [request|]; [|done].
  assert (pending_inv (batch_opened request self)) as Hopened.
  { eapply pending_inv_ext; [..|exact Hreset]; unfold batch_opened; by fields. }
  destruct (bool_decide (length (_in_progress self) = 0%nat)) eqn:Hip; [|done].
  destruct (bool_decide (_file_queue_size self = 0)) eqn:Hsz; [|done].
  apply bool_decide_eq_true_1 in Hip, Hsz. cbn [andb]. fields.
  apply nil_length_inv in Hip.
  assert (_file_queue self = []) as Hq.
  { destruct Hwf as (Hsize & _). apply nil_length_inv. lia. }
  intros _ fp Hfp. left. unfold enqueued in *. fields in Hfp. fields.
  rewrite lookup_placeholders in Hfp. rewrite fmap_app, elem_of_app.
  case_decide as Hin; [by right|]. exfalso.
  assert (_stop_requested (batch_opened request self) = false) as Hstop'.
  { unfold batch_opened, batch_reset. case_bool_decide; by fields. }
  destruct (Hopened Hstop' fp Hfp) as [Hfp' | Hfp'];
    unfold batch_opened, batch_reset in Hfp'; case_bool_decide; fields in Hfp';
    rewrite ?Hq, ?Hip in Hfp'; by apply elem_of_nil in Hfp'.
Qed.

Section Pending.

Variable MAX : Z.
Variable writers : SummaryWriters.
Variable valid : gmap string string -> bool.

(** The data-model invariants together with the pending invariant. *)
Let tracked (self : Orchestrator) : Prop := accounting_wf self ∧ pending_inv self.

Lemma _master_thread_loop_begin_tracked d1 load self :
  tracked self →
  unique_filepaths self (MasterThreadLoopBegin d1 load false) →
  tracked (final (_master_thread_loop_begin writers valid d1 load false self)).
Proof.
  intros Htracked Hunique. unfold _master_thread_loop_begin.
  apply (preserves_get_self tracked).
  cbn [unique_filepaths] in Hunique.
  destruct (_submission_que self) as [|request rest]; [done|].
  revert self Htracked. apply preserves_bind.
  { apply preserves_assign. intros self [? ?].
    split; [by eapply accounting_wf_ext | by eapply pending_inv_ext]. }
  intros _. apply preserves_bind.
  { apply preserves_assign. intros self [? ?].
    split; [by eapply accounting_wf_ext | by eapply pending_inv_ext]. }
  intros _. destruct (bool_decide (is_Some request) && d1).
  { apply preserves_bind; [apply preserves_signal | intros; apply preserves_ret]. }
  apply preserves_bind.
  { intros self [? ?]. split;
      [by apply hotswap_endpoint_managers_wf
      | by apply hotswap_endpoint_managers_pending_inv]. }
  intros _. apply preserves_bind.
  { intros self [? ?]. split; [|by apply start_batch_pending_inv].
    apply start_batch_wf; [done|]. by destruct request. }
  intros started. destruct started, request as [request|]; try apply preserves_ret.
  apply preserves_bind; [apply preserves_signal | intros; apply preserves_ret].
Qed.

Lemma perform_pending_inv c self :
  tracked self → orderly self c →
  pending_inv (final (perform MAX writers valid c self)).
Proof.
  intros [Hwf Hinv] [Hunique Horderly].
  destruct c as [manager | path manager result | path manager result | load | id
                | pid | request | d1 load d2 | request d1 d2 | ];
    cbn [perform].
  - rewrite final_then_ret. by apply steal_work_pending_inv.
  - by apply notify_work_success_pending_inv.
  - by apply notify_work_failure_pending_inv.
  - by apply hotswap_endpoint_managers_pending_inv.
  - rewrite final_then_ret. unfold cancel_running_batch, bind, get_self, ret.
    by rewrite bool_decide_eq_true_2 by done.
  - rewrite request_stop_run. case_bool_decide; [done|].
    destruct (config_notifier_stop_escapes self); [done|].
    case_decide; by apply pending_inv_stopped.
  - by eapply pending_inv_ext.
  - rewrite final_then_ret. subst d2.
    by apply _master_thread_loop_begin_tracked.
  - rewrite _master_thread_loop_end_run. by eapply pending_inv_ext.
  - by rewrite _run_summary_loop_final.
Qed.

Lemma reachable_tracked self :
  reachable MAX writers valid orderly self →
  accounting_wf self ∧ completion_inv self ∧ pending_inv self.
Proof.
  induction 1 as [|self c _ (Hwf & Hdone & Hpending) [Hunique Horderly]].
  - split_and!; [apply accounting_wf_init | apply completion_inv_init|].
    intros _ fp Hfp. unfold Orchestrator_init in Hfp. fields in Hfp.
    by rewrite lookup_empty in Hfp.
  - split_and!.
    + by apply perform_wf.
    + by apply perform_completion_inv.
    + by apply perform_pending_inv.
Qed.

End Pending.

(** X17. Along every run in which no batch is canceled and [steal_work]
    does not raise, when the completion event is set and no stop is
    requested, no result is the [None] placeholder any more: every work
    item that the batch queued has a result stored. *)
Theorem completed_batch_has_all_results MAX writers valid self :
  reachable MAX writers valid orderly self →
  _stop_requested self = false →
  _batch_completion_evt self = true →
  _file_queue self = [] ∧ _in_progress self = []
  ∧ ∀ fp stored, _work_results self !! fp = Some stored → is_Some stored.
Proof.
  intros (Hwf & Hdone & Hpending)%reachable_tracked Hstop Hevt.
  destruct (Hdone Hstop Hevt) as [Hzero Hnil].
  assert (_file_queue self = []) as Hq.
  { destruct Hwf as (Hsize & _). apply nil_length_inv. lia. }
  split_and!; [done | done |].
  intros fp [stored|] Hfp; [by eexists|].
  destruct (Hpending Hstop fp Hfp) as [Hin | Hin]; rewrite ?Hq, ?Hnil in Hin;
    by apply elem_of_nil in Hin.
Qed.

(** ** More of the properties at work on the example deployment *)

Lemma master_loop_begin_spec_witness :
  accounting_wf example_submitted
  ∧ quiescent example_submitted
  ∧ _submission_que example_submitted = [Some example_request]
  ∧ _stop_requested example_submitted = false
  ∧ outcome (_master_thread_loop_begin example_writers example_valid false
               (Some example_config) false example_submitted)
    = Returns (AwaitCompletion example_request)
  ∧ _file_queue (final (_master_thread_loop_begin example_writers example_valid false
                          (Some example_config) false example_submitted))
    = make_work_items example_request
  ∧ _batch_completion_evt
      (final (_master_thread_loop_begin example_writers example_valid false
                (Some example_config) false example_submitted))
    = false.
Proof.
  assert (accounting_wf example_submitted) as Hwf by by_evaluation.
  assert (quiescent example_submitted) as Hidle by (intros _; by vm_compute).
  assert (_submission_que example_submitted = [Some example_request]) as Hq
    by reflexivity.
  assert (_stop_requested example_submitted = false) as Hstop by reflexivity.
  destruct (master_loop_begin_spec example_writers example_valid false
              (Some example_config) false example_submitted Hwf Hidle)
    as (_ & _ & _ & _ & Hstart).
  destruct (Hstart example_request [] Hq eq_refl Hstop)
    as (Hout & _ & _ & _ & _ & _ & _ & _ & Hqueue & _ & Hevt & _).
  exact (conj Hwf (conj Hidle (conj Hq (conj Hstop (conj Hout (conj Hqueue Hevt)))))).
Defined.

Lemma example_submitted_reaches :
  reaches 2 example_writers example_valid unique_filepaths TakingRequest
    example_submitted.
Proof.
  unfold example_submitted, example_configured, example_perform.
  repeat (apply reaches_call; [| exact I | exact I]).
  apply reaches_init. constructor.
Qed.

Lemma master_loop_never_raises_witness :
  reaches 2 example_writers example_valid unique_filepaths TakingRequest
    example_submitted
  ∧ (∀ e, outcome (_master_thread_loop_begin example_writers example_valid false
                     (Some example_config) false example_submitted) ≠ Raises e)
  ∧ outcome (_master_thread_loop_begin example_writers example_valid false
               (Some example_config) false example_submitted)
    = Returns (AwaitCompletion example_request).
Proof.
  pose proof example_submitted_reaches as Hreach.
  destruct (master_loop_never_raises 2 example_writers example_valid false
              (Some example_config) false example_submitted Hreach)
    as (_ & _ & Hsafe & _ & _ & Hcases).
  exact (conj Hreach (conj Hsafe (Hcases (Some example_request) [] eq_refl))).
Defined.

Lemma example_completed_orderly :
  reachable 2 example_writers example_valid orderly example_completed.
Proof.
  unfold example_completed, example_running, example_started, example_submitted,
    example_configured, example_perform.
  repeat apply reachable_step; try apply reachable_init; split;
    try exact I; try reflexivity; try (by_evaluation);
    try (intros e; vm_compute; discriminate).
Qed.

Lemma completed_batch_has_all_results_witness :
  reachable 2 example_writers example_valid orderly example_completed
  ∧ _stop_requested example_completed = false
  ∧ _batch_completion_evt example_completed = true
  ∧ _work_results example_completed !! "a" = Some (Some example_result)
  ∧ ∀ fp stored, _work_results example_completed !! fp = Some stored → is_Some stored.
Proof.
  pose proof example_completed_orderly as Hreach.
  assert (_stop_requested example_completed = false) as Hstop by reflexivity.
  assert (_batch_completion_evt example_completed = true) as Hevt by reflexivity.
  destruct (completed_batch_has_all_results 2 example_writers example_valid
              example_completed Hreach Hstop Hevt) as (_ & _ & Hall).
  refine (conj Hreach (conj Hstop (conj Hevt (conj _ Hall)))).
  by vm_compute.
Defined.

(** ** The invariants along a run, in the terms of the fields *)

(** A run under a guard is a run under every weaker guard. *)
Lemma reachable_mono MAX writers valid (guard guard' : Orchestrator → Call → Prop) self :
  (∀ s c, guard s c → guard' s c) →
  reachable MAX writers valid guard self → reachable MAX writers valid guard' self.
Proof.
  intros Hweaker. induction 1 as [|s c _ IH Hguard]; [apply reachable_init|].
  apply reachable_step; [exact IH | by apply Hweaker].
Qed.

(** X1. Along every run in which batches have unique filepaths, whatever
    the calls and however they end, every work item is accounted for
    once: the size counter is the length of the queue, no filepath is
    queued twice, a queued filepath is neither in progress nor owned, a
    filepath is in progress exactly when it has an owner, and an
    in-progress work item is stored under its own filepath. *)
Theorem work_is_accounted_once MAX writers valid self :
  reachable MAX writers valid unique_filepaths self →
  _file_queue_size self = Z.of_nat (length (_file_queue self))
  ∧ NoDup (filepath <$> _file_queue self)
  ∧ NoDup (dict_keys (_in_progress self))
  ∧ (∀ work, work ∈ _file_queue self →
             dict_get (filepath work) (_in_progress self) = None
             ∧ _in_progress_owner self !! filepath work = None)
  ∧ (∀ path, is_Some (dict_get path (_in_progress self))
             ↔ is_Some (_in_progress_owner self !! path))
  ∧ (∀ path work, dict_get path (_in_progress self) = Some work → filepath work = path).
Proof.
  intros Hreach.
  assert (accounting_wf self) as Hwf.
  { induction Hreach as [|s c _ IH Hguard]; [apply accounting_wf_init|].
    by apply perform_wf. }
  pose proof Hwf as (Hsize & Hkeys & Hdom & Hpaths & Hqueue & Hapart).
  split_and!; try done.
  - intros work Hwork. rewrite Forall_forall in Hapart.
    assert (dict_get (filepath work) (_in_progress self) = None) as Hnone
      by (by apply dict_get_None, Hapart).
    split; [done|]. apply eq_None_not_Some.
    rewrite accounting_wf_owner, <- dict_get_is_Some, Hnone by done. by intros [? ?].
  - intros path. by rewrite accounting_wf_owner, dict_get_is_Some.
  - intros path work Hget%dict_get_Some_elem. rewrite Forall_forall in Hpaths.
    exact (Hpaths _ Hget).
Qed.

(** X2. Along every run in which batches have unique filepaths,
    cancellations and hot swaps included, as long as no stop is
    requested a set completion event means that the batch is over:
    nothing is queued, the size counter is 0, nothing is in progress and
    no filepath has an owner. *)
Theorem completion_means_quiescence MAX writers valid self :
  reachable MAX writers valid unique_filepaths self →
  _stop_requested self = false →
  _batch_completion_evt self = true →
  _file_queue self = [] ∧ _file_queue_size self = 0
  ∧ _in_progress self = [] ∧ _in_progress_owner self = ∅.
Proof.
  intros Hreach Hstop Hevt.
  assert (accounting_wf self ∧ completion_inv self) as [Hwf Hdone].
  { clear Hstop Hevt. induction Hreach as [|s c _ [IHwf IHdone] Hguard].
    - split; [apply accounting_wf_init | apply completion_inv_init].
    - split; [by apply perform_wf | by apply perform_completion_inv]. }
  destruct (Hdone Hstop Hevt) as [Hzero Hnil].
  destruct Hwf as (Hsize & _ & Hdom & _).
  split_and!; try done.
  - apply nil_length_inv. lia.
  - apply dom_empty_inv_L. rewrite Hdom, Hnil. done.
Qed.

Lemma work_is_accounted_once_witness :
  reachable 2 example_writers example_valid unique_filepaths example_running
  ∧ _file_queue example_running = [work_b]
  ∧ _file_queue_size example_running = 1
  ∧ dict_get "a" (_in_progress example_running) = Some work_a
  ∧ is_Some (_in_progress_owner example_running !! "a")
  ∧ _in_progress_owner example_running !! "b" = None.
Proof.
  assert (reachable 2 example_writers example_valid unique_filepaths example_running)
    as Hreach.
  { eapply reachable_mono; [|apply example_running_reachable]. by intros s c [? _]. }
  destruct (work_is_accounted_once 2 example_writers example_valid example_running Hreach)
    as (Hsize & _ & _ & Hqueued & Howned & _).
  assert (_file_queue example_running = [work_b]) as Hq by reflexivity.
  assert (dict_get "a" (_in_progress example_running) = Some work_a) as Hget
    by reflexivity.
  refine (conj Hreach (conj Hq (conj _ (conj Hget (conj _ _))))).
  - by rewrite Hsize, Hq.
  - apply Howned. by rewrite Hget.
  - apply (Hqueued work_b). rewrite Hq. left.
Defined.

Lemma completion_means_quiescence_witness :
  reachable 2 example_writers example_valid unique_filepaths example_completed
  ∧ _stop_requested example_completed = false
  ∧ _batch_completion_evt example_completed = true
  ∧ _file_queue example_completed = [] ∧ _file_queue_size example_completed = 0
  ∧ _in_progress example_completed = [] ∧ _in_progress_owner example_completed = ∅.
Proof.
  assert (reachable 2 example_writers example_valid unique_filepaths example_completed)
    as Hreach.
  { eapply reachable_mono; [|apply example_completed_orderly]. by intros s c [? _]. }
  assert (_stop_requested example_completed = false) as Hstop by reflexivity.
  assert (_batch_completion_evt example_completed = true) as Hevt by reflexivity.
  exact (conj Hreach (conj Hstop (conj Hevt
           (completion_means_quiescence 2 example_writers example_valid
              example_completed Hreach Hstop Hevt)))).
Defined.

(** ** A batch that is worked off *)

(** One item stolen and reported: the object after the two calls, in
    closed form. *)
Lemma steal_then_success_closed manager result work rest self :
  accounting_wf self →
  dropped manager self = false →
  _in_progress self = [] →
  _file_queue self = work :: rest →
  (language_set work →
   ∃ l, endpoint_config manager !! "language" = Some l
        ∧ lower l = lower (default "" (language work))) →
  final (notify_work_success (filepath work) manager result
           (final (steal_work manager self)))
  = check_completion
      (success_recorded (filepath work) result (handed_out manager work rest self)).
Proof.
  intros Hwf Hdropped Hip Hq Haccepts.
  assert (_file_queue_size self = Z.of_nat (S (length rest))) as Hsize.
  { destruct Hwf as (-> & _). by rewrite Hq. }
  assert (steal_work manager self
          = mkRun (handed_out manager work rest self) [] (Returns (Work work))) as ->.
  { rewrite steal_work_run, Hdropped, Hq, bool_decide_eq_true_2 by lia. cbn zeta.
    destruct (truthy (language work)) eqn:Hlang; [|done].
    destruct (Haccepts Hlang) as (l & -> & Hl).
    by rewrite bool_decide_eq_false_2 by (by intros ?). }
  cbn [final].
  assert (dropped manager (handed_out manager work rest self) = false) as Hdropped'.
  { rewrite <- Hdropped. unfold dropped, handed_out. by fields. }
  assert (dict_get (filepath work) (_in_progress (handed_out manager work rest self))
          = Some work) as Hget.
  { unfold handed_out. fields. rewrite Hip. cbn [dict_set dict_get].
    by rewrite decide_True. }
  assert (_in_progress_owner (handed_out manager work rest self) !! filepath work
          = Some manager) as Hown.
  { unfold handed_out. fields. by rewrite lookup_insert_eq. }
  rewrite notify_work_success_run. cbn zeta. by rewrite Hdropped', Hget, Hown.
Qed.

Lemma steal_then_success_run manager result work rest self :
  accounting_wf self →
  dropped manager self = false →
  _in_progress self = [] →
  _file_queue self = work :: rest →
  (language_set work →
   ∃ l, endpoint_config manager !! "language" = Some l
        ∧ lower l = lower (default "" (language work))) →
  let after := final (notify_work_success (filepath work) manager result
                        (final (steal_work manager self))) in
  accounting_wf after
  ∧ dropped manager after = false
  ∧ _in_progress after = []
  ∧ _file_queue after = rest
  ∧ (rest = [] → _batch_completion_evt after = true)
  ∧ _work_results after
    = <[filepath work := Some (merged (_work_results self !! filepath work) result)]>
        (_work_results self).
Proof.
  intros Hwf Hdropped Hip Hq Haccepts after.
  split; [by apply notify_work_success_wf, steal_work_wf|].
  subst after.
  rewrite (steal_then_success_closed manager result work rest self) by done.
  assert (_file_queue_size self = Z.of_nat (S (length rest))) as Hsize.
  { destruct Hwf as (-> & _). by rewrite Hq. }
  clear Hwf Haccepts Hq.
  unfold check_completion, batch_finished, success_recorded, handed_out.
  fields. rewrite Hip. cbn [dict_set dict_del]. rewrite decide_True by done.
  cbn [length]. rewrite (bool_decide_eq_true_2 (0%nat = 0%nat)) by done.
  rewrite andb_true_r.
  destruct (bool_decide (_file_queue_size self - 1 = 0)) eqn:Hzero;
    unfold dropped in *; fields; split_and!; try done.
  intros ->. apply bool_decide_eq_false_1 in Hzero. cbn [length] in Hsize. lia.
Qed.

Lemma perform_all_processing MAX writers valid manager report work rest self :
  perform_all MAX writers valid (processing manager report (work :: rest)) self
  = perform_all MAX writers valid (processing manager report rest)
      (final (notify_work_success (filepath work) manager (report work)
                (final (steal_work manager self)))).
Proof.
  unfold perform_all, processing. cbn [mbind list_bind app foldl perform].
  by rewrite final_then_ret.
Qed.

Lemma processing_drains MAX writers valid manager report queue :
  ∀ self,
    accounting_wf self →
    dropped manager self = false →
    _in_progress self = [] →
    _file_queue self = queue →
    Forall (fun work =>
              language_set work →
              ∃ l, endpoint_config manager !! "language" = Some l
                   ∧ lower l = lower (default "" (language work))) queue →
    let after := perform_all MAX writers valid (processing manager report queue) self in
    accounting_wf after
    ∧ _file_queue after = []
    ∧ _in_progress after = []
    ∧ (queue ≠ [] → _batch_completion_evt after = true)
    ∧ (∀ work, work ∈ queue →
         _work_results after !! filepath work
         = Some (Some (merged (_work_results self !! filepath work) (report work))))
    ∧ (∀ fp, fp ∉ filepath <$> queue → _work_results after !! fp = _work_results self !! fp).
Proof.
  induction queue as [|work rest IH]; intros self Hwf Hdropped Hip Hq Haccepts.
  { cbn. split_and!; try done. intros work Hwork. by apply elem_of_nil in Hwork. }
  apply Forall_cons in Haccepts as [Hhead Hrest].
  assert (NoDup (filepath <$> work :: rest)) as Hnodup.
  { destruct Hwf as (_ & _ & _ & _ & Hnodup & _). by rewrite Hq in Hnodup. }
  cbn [fmap list_fmap] in Hnodup. apply NoDup_cons in Hnodup as [Hfresh _].
  rewrite perform_all_processing.
  destruct (steal_then_success_run manager (report work) work rest self
              Hwf Hdropped Hip Hq Hhead) as (Hwf1 & Hd1 & Hip1 & Hq1 & Hevt1 & Hres1).
  set (next := final (notify_work_success _ _ _ _)) in *.
  destruct (IH next Hwf1 Hd1 Hip1 Hq1 Hrest) as (Hwf' & Hq' & Hip' & Hevt' & Hin & Hout).
  clearbody next. cbn zeta. split_and!; try done.
  - intros _. destruct rest as [|work' rest]; [|by apply Hevt'].
    cbn. by apply Hevt1.
  - intros item [-> | Hitem]%elem_of_cons.
    + rewrite Hout by done. by rewrite Hres1, lookup_insert_eq.
    + rewrite (Hin item Hitem), Hres1, lookup_insert_ne; [done|].
      intros Heq. apply Hfresh. rewrite Heq. by apply list_elem_of_fmap_2.
  - intros fp [Hne Hfp]%not_elem_of_cons.
    rewrite Hout by done. by rewrite Hres1, lookup_insert_ne.
Qed.

(** X19. A batch is worked off by one manager: in a state that meets the
    invariants of the data model with work queued and nothing in
    progress, when a manager that is not dropped and that every queued
    item accepts (the item names no language, or the one the manager is
    configured for) steals and reports a success item after item, then
    after the last report the completion event is set, nothing is queued
    or in progress, every item of the queue has its reported result
    stored, merged with what was stored before, and no other result has
    changed. *)
Theorem batch_runs_to_completion MAX writers valid manager report self :
  accounting_wf self →
  dropped manager self = false →
  _in_progress self = [] →
  _file_queue self ≠ [] →
  Forall (fun work =>
            language_set work →
            ∃ l, endpoint_config manager !! "language" = Some l
                 ∧ lower l = lower (default "" (language work)))
    (_file_queue self) →
  let after := perform_all MAX writers valid
                 (processing manager report (_file_queue self)) self in
  _batch_completion_evt after = true
  ∧ _file_queue after = [] ∧ _file_queue_size after = 0
  ∧ _in_progress after = [] ∧ _in_progress_owner after = ∅
  ∧ (∀ work, work ∈ _file_queue self →
       _work_results after !! filepath work
       = Some (Some (merged (_work_results self !! filepath work) (report work))))
  ∧ (∀ fp, fp ∉ filepath <$> _file_queue self →
           _work_results after !! fp = _work_results self !! fp).
Proof.
  intros Hwf Hdropped Hip Hne Haccepts.
  destruct (processing_drains MAX writers valid manager report (_file_queue self) self
              Hwf Hdropped Hip eq_refl Haccepts)
    as (Hwf' & Hq & Hip' & Hevt & Hin & Hout).
  cbn zeta. set (after := perform_all _ _ _ _ _) in *. clearbody after.
  destruct Hwf' as (Hsize & _ & Hdom & _).
  split_and!; try done.
  - by apply Hevt.
  - by rewrite Hsize, Hq.
  - apply dom_empty_inv_L. by rewrite Hdom, Hip'.
Qed.

Lemma batch_runs_to_completion_witness :
  accounting_wf example_started
  ∧ dropped example_manager example_started = false
  ∧ _in_progress example_started = []
  ∧ _file_queue example_started = [work_a; work_b]
  ∧ _batch_completion_evt example_started = false
  ∧ _batch_completion_evt
      (perform_all 2 example_writers example_valid
         (processing example_manager (fun _ => example_result)
            (_file_queue example_started)) example_started)
    = true
  ∧ _work_results
      (perform_all 2 example_writers example_valid
         (processing example_manager (fun _ => example_result)
            (_file_queue example_started)) example_started) !! "b"
    = Some (Some example_result).
Proof.
  assert (accounting_wf example_started) as Hwf by by_evaluation.
  assert (dropped example_manager example_started = false) as Hdropped
    by (vm_compute; reflexivity).
  assert (_in_progress example_started = []) as Hip by reflexivity.
  assert (_file_queue example_started = [work_a; work_b]) as Hq by reflexivity.
  assert (_file_queue example_started ≠ []) as Hne by (by rewrite Hq).
  assert (Forall (fun work =>
            language_set work →
            ∃ l, endpoint_config example_manager !! "language" = Some l
                 ∧ lower l = lower (default "" (language work)))
            (_file_queue example_started)) as Haccepts.
  { rewrite Hq. repeat constructor.
    - intros _. exists "en-US". split; by vm_compute.
    - intros Hlang. vm_compute in Hlang. discriminate. }
  destruct (batch_runs_to_completion 2 example_writers example_valid example_manager
              (fun _ => example_result) example_started Hwf Hdropped Hip Hne Haccepts)
    as (Hevt & _ & _ & _ & _ & Hin & _).
  refine (conj Hwf (conj Hdropped (conj Hip (conj Hq (conj eq_refl (conj Hevt _)))))).
  assert (work_b ∈ _file_queue example_started) as Hb by (rewrite Hq; right; left).
  etrans; [exact (Hin work_b Hb)|]. by vm_compute.
Defined.

(** ** The summary thread *)

(** X18. A turn of the periodic summary task never raises and never
    changes the orchestrator. Once a stop is requested, before the first
    batch, or without a summarizer it calls no writer and logs nothing.
    Otherwise it writes the summary with five retries: a failed write is
    logged twice, by the warning of [write_summary_information] and then
    by the error of the task itself that keeps the thread alive, and the
    error is logged in no other case. The finalization of the master
    thread, for its part, calls no writer at all, with or without a
    singleton run summary. *)
Theorem run_summary_loop_never_dies writers self :
  let r := _run_summary_loop writers self in
  let error := log_error "Orchestrator: run_summary_thread in run_summary_loop()" in
  let debug := if truthy (_singleton_run_summary_path self)
               then [log_debug "Updating singleton run_summary"] else [] in
  outcome r = Returns tt
  ∧ final r = self
  ∧ (_stop_requested self = true ∨ _on_batch_id self ≤ -1 ∨ _summarizer self = None →
     emitted r = [])
  ∧ (_stop_requested self = false → _on_batch_id self > -1 →
     is_Some (_summarizer self) →
     emitted r = match summary_write_failure writers 5 false self with
                 | None => debug
                 | Some _ => debug ++ [log_warning "Failed to write run_summary"; error]
                 end)
  ∧ (error ∈ emitted r
     ↔ _stop_requested self = false ∧ _on_batch_id self > -1
       ∧ is_Some (_summarizer self)
       ∧ is_Some (summary_write_failure writers 5 false self))
  ∧ _master_finalize writers self = mkRun self [] (Returns tt).
Proof.
  intros r error debug.
  assert (r = if _stop_requested self then mkRun self [] (Returns tt)
              else if bool_decide (_on_batch_id self > -1)
                      && bool_decide (is_Some (_summarizer self))
                   then match summary_write_failure writers 5 false self with
                        | None => mkRun self debug (Returns tt)
                        | Some _ =>
                            mkRun self
                              (debug ++ [log_warning "Failed to write run_summary"; error])
                              (Returns tt)
                        end
                   else mkRun self [] (Returns tt)) as Hrun.
  { subst r. unfold _run_summary_loop. unfold bind at 1. unfold get_self at 1.
    destruct (_stop_requested self); [reflexivity|].
    destruct (_ && _); [|reflexivity].
    unfold try_except. rewrite write_summary_information_run. cbn zeta.
    destruct (summary_write_failure _ _ _ _); [|reflexivity].
    unfold signal. fields. subst debug error. by rewrite <- app_assoc. }
  assert (∀ x, x ∈ debug → x ≠ error) as Hdebug.
  { intros x Hx ->. subst debug error.
    destruct (truthy _); [|by apply elem_of_nil in Hx].
    by apply list_elem_of_singleton in Hx. }
  clearbody r. subst r. split_and!.
  - destruct (_stop_requested self); [done|]. destruct (_ && _); [|done].
    by destruct (summary_write_failure _ _ _ _).
  - destruct (_stop_requested self); [done|]. destruct (_ && _); [|done].
    by destruct (summary_write_failure _ _ _ _).
  - intros [-> | [Hid | Hnone]]; [done | |].
    + destruct (_stop_requested self); [done|].
      rewrite (bool_decide_eq_false_2 (_on_batch_id self > -1)) by lia. done.
    + destruct (_stop_requested self); [done|].
      rewrite (bool_decide_eq_false_2 (is_Some (_summarizer self)))
        by (rewrite Hnone; by intros [? ?]).
      by rewrite andb_false_r.
  - intros -> Hid Hsum. rewrite !bool_decide_eq_true_2 by done. cbn [andb].
    by destruct (summary_write_failure _ _ _ _).
  - destruct (_stop_requested self); [split; [by intros ?%elem_of_nil | by intros [? _]]|].
    destruct (bool_decide (_on_batch_id self > -1)) eqn:Hid; cbn [andb].
    2:{ apply bool_decide_eq_false_1 in Hid.
        split; [by intros ?%elem_of_nil | by intros (_ & ? & _)]. }
    destruct (bool_decide (is_Some (_summarizer self))) eqn:Hsum.
    2:{ apply bool_decide_eq_false_1 in Hsum.
        split; [by intros ?%elem_of_nil | by intros (_ & _ & ? & _)]. }
    apply bool_decide_eq_true_1 in Hid, Hsum.
    destruct (summary_write_failure _ _ _ _) as [e|]; fields.
    + split; [by eauto|]. intros _. rewrite elem_of_app. right. right. left.
    + split; [by intros ?%Hdebug | by intros (_ & _ & _ & [? ?])].
  - unfold _master_finalize. unfold bind at 1. unfold get_self at 1.
    destruct (truthy _); [|reflexivity]. by rewrite write_summary_information_run.
Qed.
